(** * Reconciliation of desired rows against a table: [upsert.py]

    A shallow embedding of [upsert(db, table, keys, upserts, **kwargs)] and of
    its nested functions, followed by the properties of the engine.

    - Python values are the scalars the engine compares and prints: [None],
      booleans, integers and strings, with Python's [==] and [type].
    - Dicts are insertion-ordered association lists looked up with [==];
      a row is a dict from field names to values.
    - Exceptions are an error type; a function that may raise returns a
      [result].
    - The store [db], the caller's list [upserts] (whose rows the defaults
      are written into, each position holding its own row object) and the
      calls and prints of an invocation are threaded through a small
      state-and-error monad that also collects the events.
    - The iteration order of the sets built by [get_unmatched] is a
      parameter of the engine. *)

From Stdlib Require Import List String Ascii ZArith Bool Arith Lia Permutation.
Import ListNotations.
Local Open Scope string_scope.
Local Open Scope list_scope.

Set Implicit Arguments.

(** ** Python values *)

Inductive value : Type :=
| VNone
| VBool (b : bool)
| VInt (n : Z)
| VStr (s : string).

Inductive pytype : Type := TNoneType | TBool | TInt | TStr.

(** [type(v)] *)
Definition type_of (v : value) : pytype :=
  match v with
  | VNone => TNoneType
  | VBool _ => TBool
  | VInt _ => TInt
  | VStr _ => TStr
  end.

Definition pytype_eqb (a b : pytype) : bool :=
  match a, b with
  | TNoneType, TNoneType | TBool, TBool | TInt, TInt | TStr, TStr => true
  | _, _ => false
  end.

Definition Z_of_bool (b : bool) : Z := if b then 1%Z else 0%Z.

(** [a == b]: [bool] is a subtype of [int], so [True == 1]. *)
Definition py_eqb (a b : value) : bool :=
  match a, b with
  | VNone, VNone => true
  | VBool x, VBool y => Bool.eqb x y
  | VInt x, VInt y => Z.eqb x y
  | VStr x, VStr y => String.eqb x y
  | VBool x, VInt y => Z.eqb (Z_of_bool x) y
  | VInt x, VBool y => Z.eqb x (Z_of_bool y)
  | _, _ => false
  end.

(** [v is None] *)
Definition is_none (v : value) : bool :=
  match v with VNone => true | _ => false end.

(** Equality of tuples: same length, components pairwise [==]. *)
Fixpoint tup_eqb (s t : list value) : bool :=
  match s, t with
  | [], [] => true
  | x :: s', y :: t' => py_eqb x y && tup_eqb s' t'
  | _, _ => false
  end.

(** [None in tup] *)
Definition none_in (tup : list value) : bool := existsb (py_eqb VNone) tup.

(** ** Exceptions and results *)

(** [TypeError] carries what the message of [do_updates] is formatted from:
    the field, the new value and the current value. [UniqueViolation] is
    [psycopg2.errors.UniqueViolation]; [OtherError] is any other exception of
    the store or of a caller's function. *)
Inductive exn : Type :=
| KeyError (k : string)
| IndexError
| ValueError
| TypeError (field : string) (new_val cur_val : value)
| UniqueViolation (msg : string)
| OtherError (msg : string).

Inductive result (A : Type) : Type :=
| Ok (a : A)
| Raise (e : exn).
Arguments Ok {A} a.
Arguments Raise {A} e.

Definition rbind {A B} (r : result A) (k : A -> result B) : result B :=
  match r with
  | Ok a => k a
  | Raise e => Raise e
  end.

Notation "x <-? r ;; k" := (rbind r (fun x => k))
  (at level 61, r at next level, right associativity).

(** A loop [for a in l: s = f(s, a)] whose body may raise. *)
Fixpoint foldlM {A S} (f : S -> A -> result S) (l : list A) (s : S) : result S :=
  match l with
  | [] => Ok s
  | a :: l' => s' <-? f s a ;; foldlM f l' s'
  end.

(** ** Dicts: insertion-ordered, keys compared by an equality test *)

Section Dict.
Variables (K V : Type) (eqb : K -> K -> bool).

Definition dict : Type := list (K * V).

(** [d.get(k)] *)
Fixpoint dget (k : K) (d : dict) : option V :=
  match d with
  | [] => None
  | (k', v) :: d' => if eqb k' k then Some v else dget k d'
  end.

(** [k in d] *)
Definition dmem (k : K) (d : dict) : bool :=
  match dget k d with Some _ => true | None => false end.

(** [d[k] = v]: an existing key keeps its place, a new one goes last. *)
Fixpoint dset (k : K) (v : V) (d : dict) : dict :=
  match d with
  | [] => [(k, v)]
  | (k', v') :: d' =>
      if eqb k' k then (k', v) :: d' else (k', v') :: dset k v d'
  end.
End Dict.

(** A row maps field names to values. *)
Definition row : Type := dict string value.

Definition row_get (f : string) (r : row) : option value := dget String.eqb f r.
Definition row_mem (f : string) (r : row) : bool := dmem String.eqb f r.
Definition row_set (f : string) (v : value) (r : row) : row := dset String.eqb f v r.

(** [r[f]] *)
Definition row_item (r : row) (f : string) : result value :=
  match row_get f r with
  | Some v => Ok v
  | None => Raise (KeyError f)
  end.

(** [to_tup = lambda dct, k: tuple([dct[x] for x in k])] *)
Fixpoint to_tup (dct : row) (k : list string) : result (list value) :=
  match k with
  | [] => Ok []
  | x :: k' => v <-? row_item dct x ;; t <-? to_tup dct k' ;; Ok (v :: t)
  end.

(** ** [parse_keys] *)

Inductive key_item : Type :=
| KScalar (f : string)
| KTuple (fs : list string).

Inductive key_arg : Type :=
| KSingle (k : key_item)
| KList (ks : list key_item).

Definition key : Type := list string.

Definition parse_keys (keys : key_arg) : list key :=
  let keys := match keys with KSingle k => [k] | KList ks => ks end in
  map (fun k => match k with KScalar f => [f] | KTuple fs => fs end) keys.

(** ** [get_current]: the index of the snapshot *)

(** [current["tups"]]: key-tuple -> positions of rows. *)
Definition tups_index : Type := dict (list value) (list nat).

Definition tups_get (t : list value) (d : tups_index) : option (list nat) :=
  dget tup_eqb t d.

(** [kwargs["keymaps"]]: field -> value -> aliases. *)
Definition keymaps_t : Type := dict string (dict value (list value)).

(** [key.index(field)] *)
Fixpoint index_of (field : string) (k : key) : result nat :=
  match k with
  | [] => Raise ValueError
  | x :: k' =>
      if String.eqb x field then Ok 0
      else n <-? index_of field k' ;; Ok (S n)
  end.

(** [alt = list(tup); alt[idx] = v] *)
Fixpoint list_set {A} (idx : nat) (v : A) (l : list A) : list A :=
  match l, idx with
  | [], _ => []
  | _ :: l', 0 => v :: l'
  | x :: l', S n => x :: list_set n v l'
  end.

(** Body of [for k in kwargs["keymaps"][field]]. *)
Definition alias_step (k : key) (tup : list value) (field : string)
    (tups : list (list value)) (kv : value * list value)
  : result (list (list value)) :=
  idx <-? index_of field k ;;
  match nth_error tup idx with
  | None => Raise IndexError
  | Some x =>
      if py_eqb x (fst kv)
      then Ok (tups ++ map (fun v => list_set idx v tup) (snd kv))
      else Ok tups
  end.

(** The tuples one row is registered under for one key: [tups]. *)
Definition key_tups (keymaps : keymaps_t) (k : key) (tup : list value)
  : result (list (list value)) :=
  foldlM (fun tups fm => foldlM (alias_step k tup (fst fm)) (snd fm) tups)
         keymaps [tup].

(** [if tup not in d: d[tup] = []] then [d[tup].append(i)] *)
Definition register (i : nat) (d : tups_index) (tup : list value) : tups_index :=
  match tups_get tup d with
  | Some l => dset tup_eqb tup (l ++ [i]) d
  | None => dset tup_eqb tup [i] d
  end.

(** Body of [for key in keys] in [get_current]. *)
Definition index_row (keymaps : keymaps_t) (i : nat) (r : row)
    (d : tups_index) (k : key) : result tups_index :=
  tup <-? to_tup r k ;;
  tups <-? key_tups keymaps k tup ;;
  Ok (fold_left (register i) tups d).

(** [enumerate(l)] *)
Definition enumerate {A} (l : list A) : list (nat * A) :=
  combine (seq 0 (List.length l)) l.

(** The two outer loops of [get_current]. *)
Definition build_index (keymaps : keymaps_t) (keys : list key) (rows : list row)
  : result tups_index :=
  foldlM (fun d ir => foldlM (index_row keymaps (fst ir) (snd ir)) keys d)
         (enumerate rows) [].

Record snapshot : Type := { rows : list row; tups : tups_index }.

(** ** [get_to_update]: the match records *)

Record match_record : Type :=
  { m_key : key; m_current : nat; m_upsert : nat }.

(** Body of [for key in keys] in [get_to_update]. *)
Definition match_key (current : snapshot) (nonullkeys : bool) (j : nat)
    (upsert : row) (to_update : list match_record) (k : key)
  : result (list match_record) :=
  tup <-? to_tup upsert k ;;
  match tups_get tup (tups current) with
  | Some l =>
      if nonullkeys && none_in tup then Ok to_update
      else Ok (to_update ++
                 map (fun i => {| m_key := k; m_current := i; m_upsert := j |}) l)
  | None => Ok to_update
  end.

Definition get_to_update (current : snapshot) (upserts : list row)
    (keys : list key) (nonullkeys : bool) : result (list match_record) :=
  foldlM (fun acc ju => foldlM (match_key current nonullkeys (fst ju) (snd ju)) keys acc)
         (enumerate upserts) [].

(** ** Keyword arguments *)

(** [default[field] = [func, *args]] *)
Record default_spec : Type :=
  { d_func : list value -> result value; d_args : list value }.

(** [before_insert = [func, *args]] *)
Record hook_spec : Type :=
  { h_func : list value -> result unit; h_args : list value }.

Record kwargs_t : Type :=
  { kw_where : option string;
    kw_delete : bool;
    kw_ignore : list string;
    kw_default : dict string default_spec;
    kw_noinsert : bool;
    kw_get_unmatched : bool;
    kw_overwrite : bool;
    kw_ignorenull : bool;
    kw_before_insert : option hook_spec;
    kw_nonullkeys : bool;
    kw_keymaps : keymaps_t;
    kw_dryrun : bool }.

(** [kwargs.get("where")] as a condition: absent, [None] and [""] are false. *)
Definition where_given (kw : kwargs_t) : option string :=
  match kw_where kw with
  | Some s => if String.eqb s "" then None else Some s
  | None => None
  end.

(** The argument loop shared by [get_default] and the hook of [do_inserts]:
    a string starting with [*] names a field of the row. *)
Fixpoint resolve_args (r : row) (args : list value) : result (list value) :=
  match args with
  | [] => Ok []
  | arg :: args' =>
      v <-? match arg with
            | VStr (String "*"%char field) => row_item r field
            | _ => Ok arg
            end ;;
      vs <-? resolve_args r args' ;;
      Ok (v :: vs)
  end.

(** [get_default(default, row, field)] *)
Definition get_default (spec : default_spec) (r : row) : result value :=
  args <-? resolve_args r (d_args spec) ;;
  d_func spec args.

(** ** The field loop of [do_updates] *)

(** Body of [for field in fields]: [acc] is [(sets, args)]. *)
Definition diff_step (kw : kwargs_t) (cur up : row)
    (acc : list string * list value) (field : string)
  : result (list string * list value) :=
  cur_val <-? row_item cur field ;;
  if negb (kw_overwrite kw) && negb (row_mem field up) then Ok acc
  else
    let new_val := match row_get field up with Some v => v | None => VNone end in
    if kw_ignorenull kw && is_none new_val then Ok acc
    else if negb (is_none cur_val) && negb (is_none new_val)
            && negb (pytype_eqb (type_of cur_val) (type_of new_val))
    then Raise (TypeError field new_val cur_val)
    else if negb (py_eqb cur_val new_val)
    then Ok (fst acc ++ [(field ++ " = %s")%string], snd acc ++ [new_val])
    else Ok acc.

Definition diff_fields (kw : kwargs_t) (cur up : row) (fields : list string)
  : result (list string * list value) :=
  foldlM (diff_step kw cur up) fields ([], []).

(** Body of [for field in key] of [do_updates] and [do_deletes]:
    [acc] is [(where, args)]; [where_pred] is the predicate text
    [f"{field} { 'IS' if val is None else '=' } %s"]. *)
Definition where_pred (field : string) (val : value) : string :=
  (field ++ " " ++ (if is_none val then "IS" else "=") ++ " %s")%string.

Definition where_step (cur : row) (acc : list string * list value)
    (field : string) : result (list string * list value) :=
  val <-? row_item cur field ;;
  Ok (fst acc ++ [where_pred field val], snd acc ++ [val]).

Definition update_query (table : string) (sets where_ : list string) : string :=
  ("UPDATE " ++ table ++ " SET " ++ String.concat ", " sets
     ++ " WHERE " ++ String.concat " AND " where_)%string.

Definition delete_query (table : string) (where_ : list string) : string :=
  ("DELETE FROM " ++ table ++ " WHERE " ++ String.concat " AND " where_)%string.

Definition select_query (table : string) (kw : kwargs_t) : string :=
  ("SELECT * FROM " ++ table ++ " "
     ++ match where_given kw with Some w => " WHERE " ++ w | None => "" end)%string.

(** ** [get_unmatched] *)

Definition mem_nat (i : nat) (l : list nat) : bool := existsb (Nat.eqb i) l.

(** The order in which indices are added to each of the two result sets. *)
Definition unmatched_of (matched : list nat) (n : nat) : list nat :=
  filter (fun i => negb (mem_nat i matched)) (seq 0 n).

Record unmatched_t : Type := { u_current : list nat; u_upserts : list nat }.

Definition get_unmatched (to_update : list match_record) (current : snapshot)
    (upserts : list row) : unmatched_t :=
  {| u_current := unmatched_of (map m_current to_update) (List.length (rows current));
     u_upserts := unmatched_of (map m_upsert to_update) (List.length upserts) |}.

(** ** The store and the effects of an invocation *)

(** [db]: "database class with methods get(), get_fields(), sql(), and
    insert()".  Each method may raise and may change the store. *)
Class Store (DB : Type) : Type :=
  { db_get : string -> DB -> result (list row) * DB;
    db_get_fields : string -> DB -> result (list string) * DB;
    db_sql : string -> list value -> DB -> result unit * DB;
    db_insert : row -> string -> DB -> result unit * DB }.

(** What an invocation does to the outside, in order. *)
Inductive event : Type :=
| EGet (query : string)
| EGetFields (table : string)
| ESql (query : string) (args : list value)
| EInsert (r : row) (table : string)
| EHook (args : list value)
| EPrintSql (query : string) (args : list value)
| EPrintInsert (r : row)
| EPrintExn (e : exn).

Inductive retval : Type :=
| RTrue
| RRows (l : list row).

(** [l[i]] *)
Definition list_item {A} (l : list A) (i : nat) : result A :=
  match nth_error l i with
  | Some a => Ok a
  | None => Raise IndexError
  end.

Definition mem_str (x : string) (l : list string) : bool := existsb (String.eqb x) l.

Section Engine.
Context {DB : Type} {store : Store DB}.

(** Iteration order of a [set] of ints, given the order in which its
    elements were added. *)
Variable iter_set : list nat -> list nat.

(** The mutable surroundings of an invocation: the store and the caller's
    list [upserts], whose rows the engine writes defaults into. *)
Record world : Type := { w_db : DB; w_upserts : list row }.

(** A computation returns or raises, leaves a world, and emits events. *)
Definition M (A : Type) : Type := world -> result A * world * list event.

Definition ret {A} (a : A) : M A := fun w => (Ok a, w, []).

Definition bind {A B} (m : M A) (k : A -> M B) : M B :=
  fun w =>
    match m w with
    | (Ok a, w', t) =>
        match k a w' with
        | (r, w'', t') => (r, w'', t ++ t')
        end
    | (Raise e, w', t) => (Raise e, w', t)
    end.

Definition lift {A} (r : result A) : M A := fun w => (r, w, []).

Definition emit (e : event) : M unit := fun w => (Ok tt, w, [e]).

Notation "x <- m ;; k" := (bind m (fun x => k))
  (at level 61, m at next level, right associativity).
Notation "m ;;; k" := (bind m (fun _ => k))
  (at level 61, right associativity).

(** [for a in l: f(a)] *)
Fixpoint forM_ {A} (f : A -> M unit) (l : list A) : M unit :=
  match l with
  | [] => ret tt
  | a :: l' => f a ;;; forM_ f l'
  end.

(** [try: m  except psycopg2.errors.UniqueViolation as e: print(e)] *)
Definition try_unique (m : M unit) : M unit :=
  fun w =>
    match m w with
    | (Raise (UniqueViolation msg), w', t) =>
        (Ok tt, w', t ++ [EPrintExn (UniqueViolation msg)])
    | other => other
    end.

(** [upserts[j]] *)
Definition get_upsert (j : nat) : M row :=
  fun w => (list_item (w_upserts w) j, w, []).

(** The world once the row object [upserts[j]] holds [r]. *)
Definition with_upsert (w : world) (j : nat) (r : row) : world :=
  {| w_db := w_db w; w_upserts := list_set j r (w_upserts w) |}.

(** Assignment into the row object [upserts[j]]. *)
Definition set_upsert (j : nat) (r : row) : M unit :=
  fun w => (Ok tt, with_upsert w j r, []).

Definition get_upserts : M (list row) := fun w => (Ok (w_upserts w), w, []).

Definition call {A} (e : event) (op : DB -> result A * DB) : M A :=
  fun w =>
    match op (w_db w) with
    | (r, db') => (r, {| w_db := db'; w_upserts := w_upserts w |}, [e])
    end.

(** The call of the hook [before[0]] on its resolved arguments. *)
Definition call_hook (h : hook_spec) (args : list value) : M unit :=
  fun w => (h_func h args, w, [EHook args]).

(** *** [get_current] *)
Definition get_current (table : string) (keys : list key) (kw : kwargs_t)
  : M snapshot :=
  let q := select_query table kw in
  rows <- call (EGet q) (db_get q) ;;
  tups <- lift (build_index (kw_keymaps kw) keys rows) ;;
  ret {| rows := rows; tups := tups |}.

(** *** [do_updates] *)

(** [for field in default: row[field] = get_default(default, row, field)]
    on the row object [upserts[j]]. *)
Definition set_defaults (kw : kwargs_t) (j : nat) : M unit :=
  forM_ (fun fs =>
           r <- get_upsert j ;;
           v <- lift (get_default (snd fs) r) ;;
           set_upsert j (row_set (fst fs) v r))
        (kw_default kw).

(** The [try] block of [do_updates]: the statement is printed in a dry
    run and executed otherwise; a uniqueness violation is printed. *)
Definition send_update (kw : kwargs_t) (query : string) (args : list value)
  : M unit :=
  try_unique
    (if kw_dryrun kw then emit (EPrintSql query args)
     else call (ESql query args) (db_sql query args)).

(** Body of [for update in to_update]. *)
Definition update_one (kw : kwargs_t) (table : string) (current : snapshot)
    (fields : list string) (u : match_record) : M unit :=
  cur <- lift (list_item (rows current) (m_current u)) ;;
  _ <- get_upsert (m_upsert u) ;;
  set_defaults kw (m_upsert u) ;;;
  up <- get_upsert (m_upsert u) ;;
  sa <- lift (diff_fields kw cur up fields) ;;
  match fst sa with
  | [] => ret tt
  | _ :: _ =>
      let where0 := match where_given kw with Some w => [w] | None => [] end in
      wa <- lift (foldlM (where_step cur) (m_key u) (where0, snd sa)) ;;
      let query := update_query table (fst sa) (fst wa) in
      send_update kw query (snd wa)
  end.

Definition do_updates (kw : kwargs_t) (table : string)
    (to_update : list match_record) (current : snapshot) : M unit :=
  fields <- call (EGetFields table) (db_get_fields table) ;;
  let fields := filter (fun x => negb (mem_str x (kw_ignore kw))) fields in
  forM_ (update_one kw table current fields) to_update.

(** *** [do_inserts] *)

(** The [try] block of [do_inserts]. *)
Definition send_insert (kw : kwargs_t) (table : string) (r : row) : M unit :=
  try_unique
    (if kw_dryrun kw then emit (EPrintInsert r)
     else call (EInsert r table) (db_insert r table)).

(** Body of [for i in unmatched["upserts"]]. *)
Definition insert_one (kw : kwargs_t) (table : string) (i : nat) : M unit :=
  _ <- get_upsert i ;;
  set_defaults kw i ;;;
  r <- get_upsert i ;;
  match kw_before_insert kw with
  | Some before =>
      args <- lift (resolve_args r (h_args before)) ;;
      if kw_dryrun kw then ret tt else call_hook before args
  | None => ret tt
  end ;;;
  send_insert kw table r.

Definition do_inserts (kw : kwargs_t) (table : string) (unmatched : unmatched_t)
  : M unit :=
  forM_ (insert_one kw table) (iter_set (u_upserts unmatched)).

(** *** [do_deletes] *)

(** Body of [for key in keys] of [do_deletes]. *)
Definition delete_one (kw : kwargs_t) (table : string) (current : snapshot)
    (i : nat) (k : key) : M unit :=
  r <- lift (list_item (rows current) i) ;;
  _ <- lift (to_tup r k) ;;
  let where0 := match where_given kw with Some w => [w] | None => ["1=1"] end in
  wa <- lift (foldlM (where_step r) k (where0, [])) ;;
  let query := delete_query table (fst wa) in
  if kw_dryrun kw then emit (EPrintSql query (snd wa))
  else call (ESql query (snd wa)) (db_sql query (snd wa)).

Definition do_deletes (kw : kwargs_t) (table : string) (keys : list key)
    (current : snapshot) (unmatched : unmatched_t) : M unit :=
  forM_ (fun i => forM_ (delete_one kw table current i) keys)
        (iter_set (u_current unmatched)).

(** [[upserts[i] for i in unmatched["upserts"]]] *)
Fixpoint collect_upserts (l : list nat) : M (list row) :=
  match l with
  | [] => ret []
  | i :: l' => r <- get_upsert i ;; rs <- collect_upserts l' ;; ret (r :: rs)
  end.

(** *** [upsert]: the caller's [upserts] is [w_upserts] of the initial world. *)
Definition upsert (table : string) (keys : key_arg) (kw : kwargs_t) : M retval :=
  let keys := parse_keys keys in
  current <- get_current table keys kw ;;
  upserts <- get_upserts ;;
  to_update <- lift (get_to_update current upserts keys (kw_nonullkeys kw)) ;;
  do_updates kw table to_update current ;;;
  let unmatched := get_unmatched to_update current upserts in
  (if kw_noinsert kw then ret tt else do_inserts kw table unmatched) ;;;
  (if kw_delete kw then do_deletes kw table keys current unmatched else ret tt) ;;;
  if kw_get_unmatched kw
  then rs <- collect_upserts (iter_set (u_upserts unmatched)) ;; ret (RRows rs)
  else ret RTrue.

End Engine.

(** ** Vocabulary of the statements *)

(** Looking the tuple [t] up in the index finds position [i]. *)
Definition indexed (i : nat) (t : list value) (d : tups_index) : Prop :=
  exists l, tups_get t d = Some l /\ In i l.

(** A key-map names a field, with at least one source value, that some
    declared key lacks. *)
Definition keymap_outside_key (keymaps : keymaps_t) (keys : list key) : Prop :=
  exists field m k,
    In (field, m) keymaps /\ m <> [] /\ In k keys /\ ~ In field k.

(** Every row carries every field of every declared key. *)
Definition rows_have_keys (rws : list row) (keys : list key) : Prop :=
  forall r k, In r rws -> In k keys -> exists tup, to_tup r k = Ok tup.

(** What the index holds for one row and one key once it is built. *)
Definition row_indexed (keymaps : keymaps_t) (i : nat) (r : row) (k : key)
    (d : tups_index) : Prop :=
  exists tup,
    to_tup r k = Ok tup /\ indexed i tup d /\
    forall field m a vs v idx x,
      In (field, m) keymaps -> In (a, vs) m -> In v vs ->
      index_of field k = Ok idx -> nth_error tup idx = Some x ->
      py_eqb x a = true ->
      indexed i (list_set idx v tup) d.


(** The match record [u] pairs a desired row with a current position found
    by looking the desired row's key-tuple up in the index. *)
Definition record_found (current : snapshot) (upserts : list row)
    (keys : list key) (u : match_record) : Prop :=
  exists r tup l,
    nth_error upserts (m_upsert u) = Some r /\ In (m_key u) keys /\
    to_tup r (m_key u) = Ok tup /\
    tups_get tup (tups current) = Some l /\ In (m_current u) l.

(** The row the defaults loop leaves in a desired row when no default raises. *)
Definition apply_defaults (kw : kwargs_t) (r : row) : result row :=
  foldlM (fun r fs => v <-? get_default (snd fs) r ;; Ok (row_set (fst fs) v r))
         (kw_default kw) r.

(** Both values of the field are present and non-null, with different types. *)
Definition type_mismatch (cur up : row) (field : string) : bool :=
  match row_get field cur, row_get field up with
  | Some c, Some n =>
      negb (is_none c) && negb (is_none n)
      && negb (pytype_eqb (type_of c) (type_of n))
  | _, _ => false
  end.

(** The WHERE clause of a statement scoped by [k] on the row [cur]: the
    optional global filter, then one predicate per field of the key. *)
Definition scope_where (kw : kwargs_t) (k : key) (tup : list value) : list string :=
  match where_given kw with Some w => [w] | None => [] end
    ++ map (fun fv => where_pred (fst fv) (snd fv)) (combine k tup).

(** An iteration order of sets: some arrangement of the elements added. *)
Definition set_order (iter_set : list nat -> list nat) : Prop :=
  forall l, NoDup l -> Permutation l (iter_set l).

Definition is_hook_call (e : event) : bool :=
  match e with EHook _ => true | _ => false end.

(** The store calls and prints of inserting rows one after the other into a
    store, each uniqueness violation caught and printed. *)
Fixpoint insert_log {DB : Type} {store : Store DB} (table : string)
    (rs : list row) (db : DB) : list event :=
  match rs with
  | [] => []
  | r :: rs' =>
      match db_insert r table db with
      | (Raise (UniqueViolation msg), db') =>
          EInsert r table :: EPrintExn (UniqueViolation msg)
            :: insert_log table rs' db'
      | (_, db') => EInsert r table :: insert_log table rs' db'
      end
  end.

(** The phases that follow [do_updates]. *)
Definition after_updates {DB : Type} {store : Store DB} (iter_set : list nat -> list nat) (kw : kwargs_t)
    (table : string) (keys : list key) (current : snapshot)
    (unmatched : unmatched_t) : M (DB := DB) retval :=
  bind (if kw_noinsert kw then ret tt else do_inserts iter_set kw table unmatched)
    (fun _ =>
       bind (if kw_delete kw
             then do_deletes iter_set kw table keys current unmatched
             else ret tt)
         (fun _ =>
            if kw_get_unmatched kw
            then bind (collect_upserts (iter_set (u_upserts unmatched)))
                      (fun rs => ret (RRows rs))
            else ret RTrue)).


(** The pre-insert hook, when there is one, resolves its arguments on the
    row and returns. *)
Definition hook_returns (kw : kwargs_t) (r : row) : Prop :=
  match kw_before_insert kw with
  | Some before =>
      exists args,
        resolve_args r (h_args before) = Ok args /\ h_func before args = Ok tt
  | None => True
  end.

(** The store's [insert] fails by uniqueness violations only. *)
Definition insert_fails_by_uniqueness {DB : Type} {store : Store DB}
    (table : string) : Prop :=
  forall r db,
    fst (db_insert r table db) = Ok tt
    \/ exists msg, fst (db_insert r table db) = Raise (UniqueViolation msg).

(** The desired row at position [i] of [upserts], and what its defaults
    make of it. *)
Definition defaulted (kw : kwargs_t) (upserts : list row) (i : nat) (r' : row)
  : Prop :=
  exists r, nth_error upserts i = Some r /\ apply_defaults kw r = Ok r'.

(** ** A store to run the engine on *)

(** Modelled from the spec: the store capability, which the repository
    leaves to the caller. An in-memory table: [get] returns every row,
    [get_fields] the declared columns, [insert] appends the row unless a
    non-null value of a unique column is already present, in which case it
    raises [UniqueViolation]; a statement passed to [sql] is accepted and
    leaves the table as it is. *)
Record mem_db : Type :=
  { md_rows : list row; md_fields : list string; md_unique : list string }.

Definition mem_clash (t : list row) (r : row) (c : string) : bool :=
  match row_get c r with
  | Some v =>
      negb (is_none v)
      && existsb (fun r' => match row_get c r' with
                            | Some v' => py_eqb v v'
                            | None => false
                            end) t
  | None => false
  end.

Definition mem_insert (r : row) (table : string) (db : mem_db)
  : result unit * mem_db :=
  match find (mem_clash (md_rows db) r) (md_unique db) with
  | Some c => (Raise (UniqueViolation c), db)
  | None =>
      (Ok tt, {| md_rows := md_rows db ++ [r];
                 md_fields := md_fields db;
                 md_unique := md_unique db |})
  end.

(** The four methods of the in-memory store. *)
#[export] Instance mem_store : Store mem_db :=
  {| db_get := fun _ db => (Ok (md_rows db), db);
     db_get_fields := fun _ db => (Ok (md_fields db), db);
     db_sql := fun _ _ db => (Ok tt, db);
     db_insert := mem_insert |}.

(** Sets of small ints iterate in the order the elements were added. *)
Definition iter_added (l : list nat) : list nat := l.

(** [upsert(db, table, keys, upserts)] with no keyword argument. *)
Definition no_kwargs : kwargs_t :=
  {| kw_where := None; kw_delete := false; kw_ignore := [];
     kw_default := []; kw_noinsert := false; kw_get_unmatched := false;
     kw_overwrite := false; kw_ignorenull := false; kw_before_insert := None;
     kw_nonullkeys := false; kw_keymaps := []; kw_dryrun := false |}.

(** ** Scenarios *)

(** Two customers keyed by [(state, id)], with aliases for one state. *)
Definition states_rows : list row :=
  [ [("id", VInt 1); ("state", VStr "NY")];
    [("id", VInt 2); ("state", VStr "CA")] ].
Definition states_keys : list key := [ ["state"; "id"] ].
Definition states_keymaps : keymaps_t :=
  [ ("state", [ (VStr "NY", [VStr "New York"; VStr "N.Y."]) ]) ].
Definition states_index : tups_index :=
  [ ([VStr "NY"; VInt 1], [0]);
    ([VStr "New York"; VInt 1], [0]);
    ([VStr "N.Y."; VInt 1], [0]);
    ([VStr "CA"; VInt 2], [1]) ].

(** A key-map entry for a field outside the key, with no source value. *)
Definition region_keymaps : keymaps_t := [ ("region", []) ].
Definition region_db : mem_db :=
  {| md_rows := [ [("id", VInt 1); ("name", VStr "a")] ];
     md_fields := ["id"; "name"]; md_unique := [] |}.
Definition region_kwargs : kwargs_t :=
  {| kw_where := None; kw_delete := false; kw_ignore := [];
     kw_default := []; kw_noinsert := false; kw_get_unmatched := false;
     kw_overwrite := false; kw_ignorenull := false; kw_before_insert := None;
     kw_nonullkeys := false; kw_keymaps := region_keymaps; kw_dryrun := false |}.
Definition region_world : world :=
  {| w_db := region_db; w_upserts := [ [("id", VInt 1); ("name", VStr "a")] ] |}.

(** One account without an email, keyed by [id] and by [email]. *)
Definition null_rows : list row := [ [("id", VInt 1); ("email", VNone)] ].
Definition null_keys : list key := [ ["id"]; ["email"] ].
Definition null_index : tups_index := [ ([VInt 1], [0]); ([VNone], [0]) ].
Definition null_snapshot : snapshot := {| rows := null_rows; tups := null_index |}.
Definition null_upserts : list row := [ [("id", VInt 1); ("email", VNone)] ].

(** The users of the worked example, keyed by [(id, email)]. *)
Definition users_rows : list row :=
  [ [("id", VInt 1); ("name", VStr "a"); ("email", VNone)];
    [("id", VInt 2); ("name", VStr "b"); ("email", VStr "b@x.com")] ].
Definition users_db : mem_db :=
  {| md_rows := users_rows; md_fields := ["id"; "name"; "email"]; md_unique := ["id"] |}.
Definition users_snapshot : snapshot :=
  {| rows := users_rows;
     tups := [ ([VInt 1; VNone], [0]); ([VInt 2; VStr "b@x.com"], [1]) ] |}.
Definition users_world : world :=
  {| w_db := users_db;
     w_upserts := [ [("id", VInt 1); ("name", VStr "a2"); ("email", VNone)];
                    [("id", VInt 3); ("name", VStr "c"); ("email", VNone)] ] |}.
Definition users_record : match_record :=
  {| m_key := ["id"; "email"]; m_current := 0; m_upsert := 0 |}.

(** Items whose quantity is stored as text; the second desired row gives it
    as a number. *)
Definition items_rows : list row :=
  [ [("id", VInt 1); ("name", VStr "nut"); ("qty", VStr "7")];
    [("id", VInt 2); ("name", VStr "bolt"); ("qty", VStr "5")] ].
Definition items_db : mem_db :=
  {| md_rows := items_rows; md_fields := ["id"; "name"; "qty"]; md_unique := ["id"] |}.
Definition items_world : world :=
  {| w_db := items_db;
     w_upserts := [ [("id", VInt 1); ("name", VStr "washer")];
                    [("id", VInt 2); ("qty", VInt 5)];
                    [("id", VInt 3); ("name", VStr "screw")] ] |}.

(** One account, keyed by [id] and by [email]; the first desired row gives
    it a new id, the second matches it by its old id. *)
Definition accounts_rows : list row := [ [("id", VInt 1); ("email", VStr "x")] ].
Definition accounts_db : mem_db :=
  {| md_rows := accounts_rows; md_fields := ["id"; "email"]; md_unique := [] |}.
Definition accounts_keys : key_arg := KList [KScalar "id"; KScalar "email"].
Definition accounts_snapshot : snapshot :=
  {| rows := accounts_rows; tups := [ ([VInt 1], [0]); ([VStr "x"], [0]) ] |}.
Definition accounts_records : list match_record :=
  [ {| m_key := ["email"]; m_current := 0; m_upsert := 0 |};
    {| m_key := ["id"]; m_current := 0; m_upsert := 1 |} ].
Definition accounts_world : world :=
  {| w_db := accounts_db;
     w_upserts := [ [("id", VInt 2); ("email", VStr "x")];
                    [("id", VInt 1); ("email", VStr "z")] ] |}.
(** The snapshot as it would be had the first update been written back. *)
Definition accounts_written_back : snapshot :=
  {| rows := [ [("id", VInt 2); ("email", VStr "x")] ];
     tups := [ ([VInt 1], [0]); ([VStr "x"], [0]) ] |}.

(** A contact without an id, reconciled under the no-null-keys policy. *)
Definition contacts_db : mem_db :=
  {| md_rows := []; md_fields := ["id"; "name"]; md_unique := [] |}.
Definition contacts_kwargs : kwargs_t :=
  {| kw_where := None; kw_delete := false; kw_ignore := [];
     kw_default := []; kw_noinsert := false; kw_get_unmatched := false;
     kw_overwrite := false; kw_ignorenull := false; kw_before_insert := None;
     kw_nonullkeys := true; kw_keymaps := []; kw_dryrun := false |}.
Definition contacts_upserts : list row := [ [("id", VNone); ("name", VStr "x")] ].
Definition contacts_world : world :=
  {| w_db := contacts_db; w_upserts := contacts_upserts |}.
(** The world the first run leaves. *)
Definition contacts_world_after : world :=
  {| w_db := {| md_rows := contacts_upserts; md_fields := ["id"; "name"];
                md_unique := [] |};
     w_upserts := contacts_upserts |}.

(** Members matched by [email], with a unique [id]: the second of three new
    members reuses the id of a stored one. *)
Definition members_db : mem_db :=
  {| md_rows := [ [("id", VInt 2); ("email", VStr "b")] ];
     md_fields := ["id"; "email"]; md_unique := ["id"] |}.
Definition members_upserts : list row :=
  [ [("id", VInt 1); ("email", VStr "a")];
    [("id", VInt 2); ("email", VStr "x")];
    [("id", VInt 3); ("email", VStr "c")] ].
Definition members_world : world :=
  {| w_db := members_db; w_upserts := members_upserts |}.
Definition members_db_after : mem_db :=
  {| md_rows := [ [("id", VInt 2); ("email", VStr "b")];
                  [("id", VInt 1); ("email", VStr "a")];
                  [("id", VInt 3); ("email", VStr "c")] ];
     md_fields := ["id"; "email"]; md_unique := ["id"] |}.
Definition members_world_after : world :=
  {| w_db := members_db_after; w_upserts := members_upserts |}.
Definition members_trace : list event :=
  [ EGet "SELECT * FROM members "; EGetFields "members";
    EInsert [("id", VInt 1); ("email", VStr "a")] "members";
    EInsert [("id", VInt 2); ("email", VStr "x")] "members";
    EPrintExn (UniqueViolation "id");
    EInsert [("id", VInt 3); ("email", VStr "c")] "members" ].
Definition return_unmatched : kwargs_t :=
  {| kw_where := None; kw_delete := false; kw_ignore := [];
     kw_default := []; kw_noinsert := false; kw_get_unmatched := true;
     kw_overwrite := false; kw_ignorenull := false; kw_before_insert := None;
     kw_nonullkeys := false; kw_keymaps := []; kw_dryrun := false |}.

(** A dry run over an empty table with a pre-insert hook whose argument
    names a field the desired row lacks. *)
Definition sessions_db : mem_db :=
  {| md_rows := []; md_fields := ["id"; "user"]; md_unique := [] |}.
Definition sessions_hook : hook_spec :=
  {| h_func := fun _ => Ok tt; h_args := [VStr "*token"] |}.
Definition sessions_row : row := [("id", VInt 1); ("user", VStr "u")].
Definition sessions_world : world :=
  {| w_db := sessions_db; w_upserts := [sessions_row] |}.
Definition dry_run_with (before : option hook_spec) : kwargs_t :=
  {| kw_where := None; kw_delete := false; kw_ignore := [];
     kw_default := []; kw_noinsert := false; kw_get_unmatched := false;
     kw_overwrite := false; kw_ignorenull := false; kw_before_insert := before;
     kw_nonullkeys := false; kw_keymaps := []; kw_dryrun := true |}.

(** ** Further vocabulary *)

(** The tuple [t] is the key-tuple of the row [r] for the key [k], or one of
    its alias tuples. *)
Definition tuple_of_row (keymaps : keymaps_t) (r : row) (k : key)
    (t : list value) : Prop :=
  exists tup,
    to_tup r k = Ok tup /\
    (t = tup \/
     exists field m a vs v idx x,
       In (field, m) keymaps /\ In (a, vs) m /\ In v vs /\
       index_of field k = Ok idx /\ nth_error tup idx = Some x /\
       py_eqb x a = true /\ t = list_set idx v tup).

(** Every event of every run of the computation satisfies [P]. *)
Definition emits_only {DB : Type} {A : Type} (P : event -> Prop)
    (m : M (DB := DB) A) : Prop :=
  forall w res w' t, m w = (res, w', t) -> Forall P t.

(** Calls that can change the store or run the caller's hook. *)
Definition is_write (e : event) : bool :=
  match e with
  | ESql _ _ | EInsert _ _ | EHook _ => true
  | _ => false
  end.

(** Calls and prints of the insert phase. *)
Definition is_insert_event (e : event) : bool :=
  match e with
  | EInsert _ _ | EPrintInsert _ | EHook _ => true
  | _ => false
  end.

(** A statement, executed or printed, is an UPDATE. *)
Definition statement_is_update (e : event) : Prop :=
  match e with
  | ESql q _ | EPrintSql q _ => String.prefix "UPDATE " q = true
  | _ => True
  end.

(** [rows["upsert"].get(field)] *)
Definition new_value (up : row) (field : string) : value :=
  match row_get field up with Some v => v | None => VNone end.

(** The field enters the change set: it is taken from the desired row (it
    is there, or [overwrite] is set), its new value is not a [None] that
    [ignorenull] skips, and the current value differs from it. *)
Definition field_changes (kw : kwargs_t) (cur up : row) (field : string) : bool :=
  (kw_overwrite kw || row_mem field up)
  && negb (kw_ignorenull kw && is_none (new_value up field))
  && match row_get field cur with
     | Some c => negb (py_eqb c (new_value up field))
     | None => false
     end.

(** The DELETE statement of [do_deletes] for one row and one key, executed
    or, in a dry run, printed. *)
Definition delete_statement (kw : kwargs_t) (table : string) (r : row) (k : key)
  : list event :=
  match to_tup r k with
  | Ok tup =>
      let where_ :=
        match where_given kw with Some w => [w] | None => ["1=1"] end
          ++ map (fun fv => where_pred (fst fv) (snd fv)) (combine k tup) in
      [ if kw_dryrun kw then EPrintSql (delete_query table where_) tup
        else ESql (delete_query table where_) tup ]
  | Raise _ => []
  end.

(** The statements of the delete phase over the positions [l]. *)
Definition delete_events (kw : kwargs_t) (table : string) (current : snapshot)
    (keys : list key) (l : list nat) : list event :=
  flat_map (fun i => match nth_error (rows current) i with
                     | Some r => flat_map (delete_statement kw table r) keys
                     | None => []
                     end) l.

(** How [resolve_args] treats one argument on the row [r]. *)
Definition arg_resolves (r : row) (arg v : value) : Prop :=
  match arg with
  | VStr (String "*"%char field) => row_get field r = Some v
  | _ => v = arg
  end.

(** The same keyword arguments with [dryrun] set or unset. *)
Definition with_dryrun (kw : kwargs_t) (b : bool) : kwargs_t :=
  {| kw_where := kw_where kw; kw_delete := kw_delete kw;
     kw_ignore := kw_ignore kw; kw_default := kw_default kw;
     kw_noinsert := kw_noinsert kw; kw_get_unmatched := kw_get_unmatched kw;
     kw_overwrite := kw_overwrite kw; kw_ignorenull := kw_ignorenull kw;
     kw_before_insert := kw_before_insert kw;
     kw_nonullkeys := kw_nonullkeys kw; kw_keymaps := kw_keymaps kw;
     kw_dryrun := b |}.

(** The store call that a printed plan stands for. *)
Definition as_live (table : string) (e : event) : event :=
  match e with
  | EPrintSql q a => ESql q a
  | EPrintInsert r => EInsert r table
  | _ => e
  end.

(** The events of a dry run are the plan of the events of a live run: the
    prints of the first, read as calls, are the events of the second but for
    its hook calls. *)
Definition plan_of (table : string) (dry live : list event) : Prop :=
  map (as_live table) dry = filter (fun e => negb (is_hook_call e)) live.

(** From worlds with the same desired rows, a dry computation and a live
    one end alike, the first planning what the second does. *)
Definition plans {DB : Type} {A : Type} (table : string)
    (dry live : M (DB := DB) A) : Prop :=
  forall wd wl,
    w_upserts wd = w_upserts wl ->
    fst (fst (dry wd)) = fst (fst (live wl))
    /\ plan_of table (snd (dry wd)) (snd (live wl))
    /\ w_upserts (snd (fst (dry wd))) = w_upserts (snd (fst (live wl))).

(** The hook, when there is one, returns on every argument list. *)
Definition hook_always_returns (kw : kwargs_t) : Prop :=
  match kw_before_insert kw with
  | Some before => forall args, h_func before args = Ok tt
  | None => True
  end.

(** The same, from one given world. *)
Definition plans_from {DB : Type} {A : Type} (table : string)
    (w : world (DB := DB)) (dry live : M (DB := DB) A) : Prop :=
  fst (fst (dry w)) = fst (fst (live w))
  /\ plan_of table (snd (dry w)) (snd (live w)).

(** An event that a dry run and a live run share. *)
Definition is_read (e : event) : Prop :=
  match e with
  | EGet _ | EGetFields _ => True
  | _ => False
  end.

(** The event respects the global filter [wf] on [table]: a read selects
    under it, and a statement, executed or printed, is an UPDATE or a DELETE
    whose WHERE clause starts with it, followed by the predicates of a key. *)
Definition scoped_by (table wf : string) (e : event) : Prop :=
  match e with
  | EGet q => q = ("SELECT * FROM " ++ table ++ "  WHERE " ++ wf)%string
  | ESql q _ | EPrintSql q _ =>
      exists k tup,
        let preds := map (fun fv => where_pred (fst fv) (snd fv)) (combine k tup) in
        (exists sets, q = update_query table sets (wf :: preds))
        \/ q = delete_query table (wf :: preds)
  | _ => True
  end.

(** ** More stores and scenarios *)

(** Modelled from the spec: a store capability without constraints, over
    the same in-memory table: [insert] always appends, [sql] accepts every
    statement and leaves the table as it is. *)
Definition lenient_store : Store mem_db :=
  {| db_get := fun _ db => (Ok (md_rows db), db);
     db_get_fields := fun _ db => (Ok (md_fields db), db);
     db_sql := fun _ _ db => (Ok tt, db);
     db_insert := fun r _ db =>
       (Ok tt, {| md_rows := md_rows db ++ [r]; md_fields := md_fields db;
                  md_unique := md_unique db |}) |}.

(** Modelled from the spec: a store capability that reads like the
    in-memory table and refuses every write with the exception [e]. *)
Definition refusing_store (e : exn) : Store mem_db :=
  {| db_get := fun _ db => (Ok (md_rows db), db);
     db_get_fields := fun _ db => (Ok (md_fields db), db);
     db_sql := fun _ _ db => (Raise e, db);
     db_insert := fun _ _ db => (Raise e, db) |}.

(** [noinsert] and nothing else. *)
Definition noinsert_kwargs : kwargs_t :=
  {| kw_where := None; kw_delete := false; kw_ignore := [];
     kw_default := []; kw_noinsert := true; kw_get_unmatched := false;
     kw_overwrite := false; kw_ignorenull := false; kw_before_insert := None;
     kw_nonullkeys := false; kw_keymaps := []; kw_dryrun := false |}.

(** [delete] under a global filter. *)
Definition delete_kwargs : kwargs_t :=
  {| kw_where := Some "active"; kw_delete := true; kw_ignore := [];
     kw_default := []; kw_noinsert := false; kw_get_unmatched := false;
     kw_overwrite := false; kw_ignorenull := false; kw_before_insert := None;
     kw_nonullkeys := false; kw_keymaps := []; kw_dryrun := false |}.

(** Defaults: a constant status, and a label computed from the name. *)
Definition label_of (args : list value) : result value :=
  match args with
  | [VStr s] => Ok (VStr (s ++ "!"))
  | _ => Raise (OtherError "label_of")
  end.
Definition defaults_kwargs : kwargs_t :=
  {| kw_where := None; kw_delete := false; kw_ignore := ["id"];
     kw_default := [ ("status", {| d_func := fun _ => Ok (VStr "new"); d_args := [] |});
                     ("label", {| d_func := label_of; d_args := [VStr "*name"] |}) ];
     kw_noinsert := false; kw_get_unmatched := false;
     kw_overwrite := false; kw_ignorenull := false; kw_before_insert := None;
     kw_nonullkeys := false; kw_keymaps := []; kw_dryrun := false |}.

(** The worked example as an invocation. *)
Definition users_keys : key_arg := KSingle (KTuple ["id"; "email"]).
Definition users_update : string :=
  "UPDATE users SET name = %s WHERE id = %s AND email IS %s".
Definition users_update_args : list value := [VStr "a2"; VInt 1; VNone].
Definition users_filtered_update : string :=
  "UPDATE users SET name = %s WHERE active AND id = %s AND email IS %s".
Definition users_delete : string :=
  "DELETE FROM users WHERE active AND id = %s AND email = %s".
Definition users_unmatched : unmatched_t := {| u_current := [1]; u_upserts := [1] |}.
Definition users_world_defaulted : world :=
  {| w_db := users_db;
     w_upserts := [ [("id", VInt 1); ("name", VStr "a2"); ("email", VNone)];
                    [("id", VInt 3); ("name", VStr "c"); ("email", VNone);
                     ("status", VStr "new"); ("label", VStr "c!")] ] |}.
Definition users_world_empty : world := {| w_db := users_db; w_upserts := [] |}.

(** ** Scenarios under a global filter *)

(** [where="active"] and nothing else. *)
Definition filtered_kwargs : kwargs_t :=
  {| kw_where := Some "active"; kw_delete := false; kw_ignore := [];
     kw_default := []; kw_noinsert := false; kw_get_unmatched := false;
     kw_overwrite := false; kw_ignorenull := false; kw_before_insert := None;
     kw_nonullkeys := false; kw_keymaps := []; kw_dryrun := false |}.

(** ** Settled fields *)

(** The field loop of [do_updates] leaves the field out of the change set:
    the current row carries it, and the desired row does not give it (and
    [overwrite] is off), or gives a [None] that [ignorenull] skips, or gives
    the current value. [new_value] is [rows["upsert"].get(field)]. *)
Definition field_settled (kw : kwargs_t) (cur up : row) (f : string) : Prop :=
  exists c,
    row_get f cur = Some c /\
    ((kw_overwrite kw = false /\ row_get f up = None)
     \/ (kw_ignorenull kw = true /\ new_value up f = VNone)
     \/ new_value up f = c).

(** ** A store that executes the statements

    [db] is the caller's object: the engine sends it statements and never
    reads back what they did. To speak of the table that a run leaves, the
    statements are given their meaning on the rows of a table. *)

(** The two rows have the same key-tuple for the key [k], as [==] on tuples
    has it. *)
Definition same_key (k : key) (r u : row) : bool :=
  match to_tup r k, to_tup u k with
  | Ok t, Ok t' => tup_eqb t t'
  | _, _ => false
  end.

(** Modelled from the spec: the key predicates of a statement scoped by [k]
    with the values [tup] select the row. *)
Definition key_selects (k : key) (tup : list value) (r : row) : bool :=
  match to_tup r k with
  | Ok t => tup_eqb t tup
  | Raise _ => false
  end.

(** Modelled from the spec: [SET f1 = v1, f2 = v2, ...] on one row. *)
Fixpoint assign (cf : list string) (vals : list value) (r : row) : row :=
  match cf, vals with
  | f :: cf', v :: vals' => assign cf' vals' (row_set f v r)
  | _, _ => r
  end.

(** Modelled from the spec: an UPDATE of the fields [cf] to [vals] on the
    rows that [k] and [tup] select. *)
Definition run_update (cf : list string) (vals : list value) (k : key)
    (tup : list value) (rws : list row) : list row :=
  map (fun r => if key_selects k tup r then assign cf vals r else r) rws.

(** Modelled from the spec: the row a table of columns [fs] keeps of an
    inserted row, NULL where the row gives no value. *)
Definition stored_row (fs : list string) (r : row) : row :=
  map (fun f => (f, new_value r f)) fs.

(** Modelled from the spec, as a condition on the store capability: the
    store executes the statements that [upsert] sends for the table of
    columns [fs] keyed by [k], whose rows are [tbl db]: the SELECT returns the
    rows, [get_fields] the columns, an INSERT adds the row, an UPDATE of
    some of the columns, scoped by [k], sets them on the rows selected, and a
    DELETE scoped by [k] removes the rows selected. *)
Record executes {DB : Type} {store : Store DB} (table : string) (kw : kwargs_t)
    (fs : list string) (k : key) (tbl : DB -> list row) : Prop :=
  { ex_get : forall db, db_get (select_query table kw) db = (Ok (tbl db), db);
    ex_fields : forall db, db_get_fields table db = (Ok fs, db);
    ex_insert : forall r db,
      exists db', db_insert r table db = (Ok tt, db')
                  /\ tbl db' = tbl db ++ [stored_row fs r];
    ex_update : forall (p : string -> bool) vals tup db,
      List.length vals = List.length (filter p fs) ->
      List.length tup = List.length k ->
      filter p fs <> [] ->
      exists db',
        db_sql (update_query table
                  (map (fun f => (f ++ " = %s")%string) (filter p fs))
                  (scope_where kw k tup))
               (vals ++ tup) db = (Ok tt, db')
        /\ tbl db' = run_update (filter p fs) vals k tup (tbl db);
    ex_delete : forall tup db,
      List.length tup = List.length k ->
      exists db',
        db_sql (delete_query table
                  (match where_given kw with Some f => [f] | None => ["1=1"] end
                     ++ map (fun fv => where_pred (fst fv) (snd fv))
                            (combine k tup)))
               tup db = (Ok tt, db')
        /\ tbl db' = filter (fun r => negb (key_selects k tup r)) (tbl db) }.

(** No two desired rows have the same key-tuple. *)
Definition distinct_keys (k : key) (ups : list row) : Prop :=
  forall j1 j2 r1 r2,
    nth_error ups j1 = Some r1 -> nth_error ups j2 = Some r2 ->
    same_key k r1 r2 = true -> j1 = j2.

(** The table [rws] holds the desired rows [ups]: its rows carry the
    columns, the desired rows carry the key (without [None] under
    [nonullkeys]), every desired row with the key-tuple of a table row has its
    defaults and settles every diffed field against it, unless [noinsert]
    every desired row has its key-tuple in the table, and under [delete]
    every table row has the key-tuple of a desired row. *)
Definition reconciled (kw : kwargs_t) (fs : list string) (k : key)
    (rws ups : list row) : Prop :=
  (forall r f, In r rws -> In f fs -> row_get f r <> None)
  /\ (forall u, In u ups ->
        exists tup, to_tup u k = Ok tup
                    /\ (kw_nonullkeys kw = true -> none_in tup = false))
  /\ (forall r u, In r rws -> In u ups -> same_key k r u = true ->
        apply_defaults kw u = Ok u
        /\ forall f, In f (filter (fun x => negb (mem_str x (kw_ignore kw))) fs) ->
                     field_settled kw r u f)
  /\ (kw_noinsert kw = false ->
      forall u, In u ups -> exists r, In r rws /\ same_key k r u = true)
  /\ (kw_delete kw = true ->
      forall r, In r rws -> exists u, In u ups /\ same_key k r u = true).

(** What the updates of a run can make of the table row [r0], given the
    desired rows [ups0]: the key fields are those of [r0], and every field is
    the one of [r0] or the value given, with its defaults, by a desired row
    that has the key-tuple of [r0]. *)
Definition row_between (kw : kwargs_t) (k : key) (ups0 : list row)
    (r0 r : row) : Prop :=
  (forall f, In f k -> row_get f r = row_get f r0)
  /\ forall f,
      row_get f r = row_get f r0
      \/ exists u0 up,
          In u0 ups0 /\ apply_defaults kw u0 = Ok up /\
          same_key k r0 u0 = true /\ row_get f r = Some (new_value up f).

(** What a run can make of the desired row [u0]: the row itself, or the
    row with its defaults. *)
Definition row_defaulted (kw : kwargs_t) (u0 u : row) : Prop :=
  u = u0 \/ apply_defaults kw u0 = Ok u.

(** The state of the update loop after the records [done], from the table
    [rws0] and the desired rows [ups0]: the table rows are between the loaded
    rows and the desired ones, and each record done pairs a table row with a
    desired row that has its defaults and settles every diffed field. *)
Definition updates_inv (kw : kwargs_t) (fs : list string) (k : key)
    (rws0 ups0 : list row) (done : list match_record)
    (rws ups : list row) : Prop :=
  Forall2 (row_between kw k ups0) rws0 rws
  /\ Forall2 (row_defaulted kw) ups0 ups
  /\ forall u, In u done ->
       exists r up,
         nth_error rws (m_current u) = Some r /\
         nth_error ups (m_upsert u) = Some up /\
         apply_defaults kw up = Ok up /\
         forall f, In f (filter (fun x => negb (mem_str x (kw_ignore kw))) fs) ->
                   field_settled kw r up f.

(** The loaded rows at the positions [l]. *)
Definition rows_at (rws0 : list row) (l : list nat) : list row :=
  flat_map (fun i => match nth_error rws0 i with
                     | Some r => [r]
                     | None => []
                     end) l.

(** The state of the insert and delete loops: the desired rows at the
    positions [held] have their key-tuple in the table, and a table row
    without the key-tuple of a desired row has the one of a row of [stale],
    the loaded rows still to delete, which no desired row matches. *)
Definition holds_inv (kw : kwargs_t) (fs : list string) (k : key)
    (ups0 : list row) (held : list nat) (stale : list row)
    (rws ups : list row) : Prop :=
  (forall r f, In r rws -> In f fs -> row_get f r <> None)
  /\ Forall2 (row_defaulted kw) ups0 ups
  /\ (forall r j u,
        In r rws -> nth_error ups j = Some u -> same_key k r u = true ->
        apply_defaults kw u = Ok u
        /\ forall f, In f (filter (fun x => negb (mem_str x (kw_ignore kw))) fs) ->
                     field_settled kw r u f)
  /\ (forall j, In j held ->
        exists u r, nth_error ups j = Some u /\ In r rws /\ same_key k r u = true)
  /\ (forall r, In r rws ->
        (exists u, In u ups /\ same_key k r u = true)
        \/ exists r0, In r0 stale /\ same_key k r r0 = true)
  /\ (forall r0 u, In r0 stale -> In u ups -> same_key k r0 u = false).

(** ** An in-memory table that executes the statements *)

(** The sublists of a list, in order. *)
Fixpoint sublists {A : Type} (l : list A) : list (list A) :=
  match l with
  | [] => [[]]
  | x :: l' => map (cons x) (sublists l') ++ sublists l'
  end.

(** Modelled from the spec: [db.sql] on a table of columns [fs] with the
    keys [keys], without a global filter: the statement is recognised among
    the UPDATEs of some columns scoped by one of the keys, or as the DELETE
    scoped by one of them, and executed on the rows; any other statement is
    refused. *)
Definition table_sql (table : string) (fs : list string) (keys : list key)
    (q : string) (args : list value) (rws : list row)
  : result unit * list row :=
  match find (fun ck : list string * key =>
                String.eqb q
                  (update_query table
                     (map (fun f => (f ++ " = %s")%string) (fst ck))
                     (map (fun fv => where_pred (fst fv) (snd fv))
                          (combine (snd ck)
                                   (skipn (List.length (fst ck)) args)))))
             (list_prod (sublists fs) keys) with
  | Some ck =>
      (Ok tt,
       run_update (fst ck) (firstn (List.length (fst ck)) args) (snd ck)
                  (skipn (List.length (fst ck)) args) rws)
  | None =>
      match find (fun k =>
                    String.eqb q
                      (delete_query table
                         ("1=1" :: map (fun fv => where_pred (fst fv) (snd fv))
                                       (combine k args))))
                 keys with
      | Some k => (Ok tt, filter (fun r => negb (key_selects k args r)) rws)
      | None => (Raise (OtherError q), rws)
      end
  end.

(** Modelled from the spec: the store of a table whose state is its list of
    rows. *)
Definition table_store (table : string) (fs : list string) (keys : list key)
  : Store (list row) :=
  {| db_get := fun _ rws => (Ok rws, rws);
     db_get_fields := fun _ rws => (Ok fs, rws);
     db_sql := table_sql table fs keys;
     db_insert := fun r _ rws => (Ok tt, rws ++ [stored_row fs r]) |}.

(** A team table with a member to rename and a stale member; of the two
    desired rows the first does not give the [active] column and the second is
    new. The run deletes what it does not match. *)
Definition team_kwargs : kwargs_t :=
  {| kw_where := None; kw_delete := true; kw_ignore := [];
     kw_default := []; kw_noinsert := false; kw_get_unmatched := false;
     kw_overwrite := false; kw_ignorenull := false; kw_before_insert := None;
     kw_nonullkeys := false; kw_keymaps := []; kw_dryrun := false |}.
Definition team_table : list row :=
  [ [("id", VInt 1); ("name", VStr "a"); ("active", VBool true)];
    [("id", VInt 9); ("name", VStr "z"); ("active", VBool false)] ].
Definition team_world : world :=
  {| w_db := team_table;
     w_upserts := [ [("id", VInt 1); ("name", VStr "b")];
                    [("id", VInt 2); ("name", VStr "c"); ("active", VNone)] ] |}.
Definition team_world_after : world :=
  {| w_db := [ [("id", VInt 1); ("name", VStr "b"); ("active", VBool true)];
               [("id", VInt 2); ("name", VStr "c"); ("active", VNone)] ];
     w_upserts := w_upserts team_world |}.

(** Two desired rows with the key-tuple of the one member. *)
Definition team_world_twins : world :=
  {| w_db := [ [("id", VInt 1); ("name", VStr "a"); ("active", VBool true)] ];
     w_upserts := [ [("id", VInt 1); ("name", VStr "b")];
                    [("id", VInt 1); ("name", VStr "c")] ] |}.

(** A default that is computed from the field it sets. *)
Definition starred_kwargs : kwargs_t :=
  {| kw_where := None; kw_delete := false; kw_ignore := [];
     kw_default := [ ("name", {| d_func := label_of; d_args := [VStr "*name"] |}) ];
     kw_noinsert := false; kw_get_unmatched := false;
     kw_overwrite := false; kw_ignorenull := false; kw_before_insert := None;
     kw_nonullkeys := false; kw_keymaps := []; kw_dryrun := false |}.
Definition team_world_starred : world :=
  {| w_db := [ [("id", VInt 1); ("name", VStr "a"); ("active", VBool true)] ];
     w_upserts := [ [("id", VInt 1); ("name", VStr "a")] ] |}.

(** An account found by [email] and by [id] by two desired rows. *)
Definition ledger_world : world :=
  {| w_db := [ [("id", VInt 1); ("email", VStr "x")] ];
     w_upserts := [ [("id", VInt 2); ("email", VStr "x")];
                    [("id", VInt 1); ("email", VStr "z")] ] |}.

(** A state found under its name and under its alias by two desired rows. *)
Definition alias_kwargs : kwargs_t :=
  {| kw_where := None; kw_delete := false; kw_ignore := [];
     kw_default := []; kw_noinsert := false; kw_get_unmatched := false;
     kw_overwrite := false; kw_ignorenull := false; kw_before_insert := None;
     kw_nonullkeys := false;
     kw_keymaps := [ ("state", [ (VStr "NY", [VStr "New York"]) ]) ];
     kw_dryrun := false |}.
Definition states_world : world :=
  {| w_db := [ [("state", VStr "NY"); ("n", VInt 0)] ];
     w_upserts := [ [("state", VStr "NY"); ("n", VInt 1)];
                    [("state", VStr "New York"); ("n", VInt 2)] ] |}.

(** * Properties *)

(** ** Python equality is an equivalence on the modelled values *)

Lemma py_eqb_refl (a : value) : py_eqb a a = true.
Proof.
  destruct a; simpl; auto using Bool.eqb_reflx, Z.eqb_refl, String.eqb_refl.
Qed.

Lemma py_eqb_sym (a b : value) : py_eqb a b = py_eqb b a.
Proof.
  destruct a, b; simpl; auto using Z.eqb_sym, String.eqb_sym.
  destruct b, b0; reflexivity.
Qed.

Lemma py_eqb_trans (a b c : value) :
  py_eqb a b = true -> py_eqb b c = true -> py_eqb a c = true.
Proof.
  destruct a, b, c; simpl; try discriminate; auto;
    rewrite ?Z.eqb_eq, ?String.eqb_eq, ?Bool.eqb_true_iff;
    intros; subst; auto;
    repeat match goal with b : bool |- _ => destruct b end;
    simpl in *; congruence.
Qed.

Lemma tup_eqb_refl (t : list value) : tup_eqb t t = true.
Proof.
  induction t; simpl; auto. now rewrite py_eqb_refl.
Qed.

Lemma tup_eqb_sym (s t : list value) : tup_eqb s t = tup_eqb t s.
Proof.
  revert t; induction s; destruct t; simpl; auto.
  now rewrite py_eqb_sym, IHs.
Qed.

Lemma tup_eqb_trans (s t u : list value) :
  tup_eqb s t = true -> tup_eqb t u = true -> tup_eqb s u = true.
Proof.
  revert t u; induction s; destruct t, u; simpl; try discriminate; auto.
  rewrite !andb_true_iff. intros [? ?] [? ?]. split.
  - eapply py_eqb_trans; eauto.
  - eapply IHs; eauto.
Qed.

(** ** Dict lookup after assignment *)

Section DictFacts.
Variables (K V : Type) (eqb : K -> K -> bool).
Hypothesis eqb_sym : forall a b, eqb a b = eqb b a.
Hypothesis eqb_trans : forall a b c, eqb a b = true -> eqb b c = true -> eqb a c = true.

Lemma dget_dset (k k' : K) (v : V) (d : dict K V) :
  dget eqb k' (dset eqb k v d) = if eqb k k' then Some v else dget eqb k' d.
Proof.
  induction d as [|[k0 v0] d IH]; simpl.
  - reflexivity.
  - destruct (eqb k0 k) eqn:E0; simpl.
    + destruct (eqb k0 k') eqn:E1.
      * assert (E2 : eqb k k' = true).
        { apply eqb_trans with k0; auto. now rewrite eqb_sym. }
        now rewrite E2.
      * destruct (eqb k k') eqn:E2; auto.
        assert (E3 : eqb k0 k' = true) by (apply eqb_trans with k; auto).
        congruence.
    + rewrite IH. destruct (eqb k0 k') eqn:E1; auto.
      destruct (eqb k k') eqn:E2; auto.
      assert (E3 : eqb k0 k = true).
      { apply eqb_trans with k'; auto. now rewrite eqb_sym. }
      congruence.
Qed.
End DictFacts.

Lemma tups_get_dset (t t' : list value) (l : list nat) (d : tups_index) :
  tups_get t' (dset tup_eqb t l d) = if tup_eqb t t' then Some l else tups_get t' d.
Proof.
  unfold tups_get. apply dget_dset.
  - apply tup_eqb_sym.
  - apply tup_eqb_trans.
Qed.

Lemma tups_get_eqb (t t' : list value) (d : tups_index) :
  tup_eqb t t' = true -> tups_get t d = tups_get t' d.
Proof.
  intros E. unfold tups_get. induction d as [|[k0 v0] d IH]; simpl; auto.
  destruct (tup_eqb k0 t) eqn:E0.
  - now rewrite (tup_eqb_trans k0 t t' E0 E).
  - destruct (tup_eqb k0 t') eqn:E1; auto.
    rewrite tup_eqb_sym in E.
    rewrite (tup_eqb_trans k0 t' t E1 E) in E0. discriminate.
Qed.

(** ** Loops that may raise *)

Section FoldFacts.
Variables (A S : Type) (f : S -> A -> result S).

Lemma foldlM_inv (P : S -> Prop) (l : list A) :
  (forall s a s', In a l -> P s -> f s a = Ok s' -> P s') ->
  forall s s', P s -> foldlM f l s = Ok s' -> P s'.
Proof.
  induction l as [|a l IH]; simpl; intros Hstep s s' Hs Hrun.
  - now inversion Hrun; subst.
  - destruct (f s a) as [s1|e] eqn:E; simpl in Hrun; try discriminate.
    apply IH with s1; auto.
    + intros s0 b s0' Hb. apply Hstep. now right.
    + apply Hstep with s a; auto.
Qed.

(** A step that establishes [Q], followed by steps that keep it. *)
Lemma foldlM_establish (Q : S -> Prop) (a : A) (l : list A) :
  In a l ->
  (forall s s', f s a = Ok s' -> Q s') ->
  (forall s b s', In b l -> Q s -> f s b = Ok s' -> Q s') ->
  forall s s', foldlM f l s = Ok s' -> Q s'.
Proof.
  induction l as [|x l IH]; simpl; intros Hin Hest Hkeep s s' Hrun.
  - contradiction.
  - destruct (f s x) as [s1|e] eqn:E; simpl in Hrun; try discriminate.
    destruct Hin as [->|Hin].
    + apply foldlM_inv with (P := Q) (l := l) (s := s1); auto.
      * intros s0 b s0' Hb. apply Hkeep. now right.
      * apply Hest with s; auto.
    + apply IH with s1; auto.
      intros s0 b s0' Hb. apply Hkeep. now right.
Qed.

Lemma foldlM_total (P : S -> Prop) (l : list A) :
  (forall s a, In a l -> P s -> exists s', f s a = Ok s' /\ P s') ->
  forall s, P s -> exists s', foldlM f l s = Ok s' /\ P s'.
Proof.
  induction l as [|a l IH]; simpl; intros Hstep s Hs.
  - eauto.
  - destruct (Hstep s a) as (s1 & E & H1); auto.
    rewrite E; simpl. apply IH; auto.
Qed.

(** Every step returns or raises [e], and one of them raises [e]. *)
Lemma foldlM_raises (e : exn) (a : A) (l : list A) :
  In a l ->
  (forall s, f s a = Raise e) ->
  (forall s b, In b l -> (exists s', f s b = Ok s') \/ f s b = Raise e) ->
  forall s, foldlM f l s = Raise e.
Proof.
  induction l as [|x l IH]; simpl; intros Hin Hbad Hall s.
  - contradiction.
  - destruct (Hall s x) as [[s1 E]|E]; auto; rewrite E; simpl; auto.
    destruct Hin as [->|Hin].
    + rewrite Hbad in E. discriminate.
    + apply IH; auto.
Qed.
End FoldFacts.

Lemma In_enumerate {A} (l : list A) (i : nat) (a : A) :
  In (i, a) (enumerate l) <-> nth_error l i = Some a.
Proof.
  unfold enumerate.
  assert (G : forall s, In (i, a) (combine (seq s (List.length l)) l)
                        <-> s <= i /\ nth_error l (i - s) = Some a).
  { induction l as [|x l IH]; intros s; simpl.
    - split; [contradiction|]. intros [_ H]. destruct (i - s); discriminate.
    - rewrite IH. split.
      + intros [E|[H1 H2]].
        * inversion E; subst. rewrite Nat.sub_diag. auto.
        * split; [lia|]. replace (i - s) with (S (i - S s)) by lia. exact H2.
      + intros [H1 H2]. destruct (Nat.eq_dec s i) as [->|Hne].
        * rewrite Nat.sub_diag in H2. simpl in H2. left. congruence.
        * right. split; [lia|].
          replace (i - s) with (S (i - S s)) in H2 by lia. exact H2. }
  rewrite G, Nat.sub_0_r. intuition lia.
Qed.

(** ** The snapshot index *)

Lemma register_same (i : nat) (t : list value) (d : tups_index) :
  indexed i t (register i d t).
Proof.
  unfold indexed, register.
  destruct (tups_get t d) as [l|]; rewrite tups_get_dset, tup_eqb_refl;
    eexists; split; eauto using in_or_app, in_eq.
Qed.

Lemma register_mono (i i' : nat) (t t' : list value) (d : tups_index) :
  indexed i' t' d -> indexed i' t' (register i d t).
Proof.
  intros (l & Hl & Hi). unfold indexed, register.
  destruct (tups_get t d) as [l0|] eqn:E; rewrite tups_get_dset;
    destruct (tup_eqb t t') eqn:Et; eauto.
  - rewrite (tups_get_eqb t t' d Et) in E. rewrite E in Hl. inversion Hl; subst.
    eexists; split; eauto using in_or_app.
  - rewrite (tups_get_eqb t t' d Et) in E. congruence.
Qed.

Lemma fold_register_mono (i i' : nat) (t' : list value) (ts : list (list value)) :
  forall d, indexed i' t' d -> indexed i' t' (fold_left (register i) ts d).
Proof.
  induction ts as [|t ts IH]; simpl; intros d H; auto using register_mono.
Qed.

Lemma fold_register_all (i : nat) (t : list value) (ts : list (list value)) :
  In t ts -> forall d, indexed i t (fold_left (register i) ts d).
Proof.
  induction ts as [|t0 ts IH]; simpl; intros Hin d.
  - contradiction.
  - destruct Hin as [->|Hin]; auto.
    apply fold_register_mono, register_same.
Qed.

Lemma alias_step_mono k tup field acc kv acc' (t : list value) :
  alias_step k tup field acc kv = Ok acc' -> In t acc -> In t acc'.
Proof.
  unfold alias_step. destruct (index_of field k) as [idx|]; simpl; try discriminate.
  destruct (nth_error tup idx); try discriminate.
  destruct (py_eqb v (fst kv)); intros E; inversion E; subst; auto using in_or_app.
Qed.

Lemma alias_loop_mono k tup field m acc acc' (t : list value) :
  foldlM (alias_step k tup field) m acc = Ok acc' -> In t acc -> In t acc'.
Proof.
  intros Hrun Hin.
  apply foldlM_inv with (P := fun a => In t a) (3 := Hrun); auto.
  intros s a s' _ Hs Hstep. eapply alias_step_mono; eauto.
Qed.

(** The tuples of one row for one key: the literal one and every alias. *)
Lemma key_tups_spec keymaps k tup ts :
  key_tups keymaps k tup = Ok ts ->
  In tup ts /\
  forall field m a vs v idx x,
    In (field, m) keymaps -> In (a, vs) m -> In v vs ->
    index_of field k = Ok idx -> nth_error tup idx = Some x ->
    py_eqb x a = true ->
    In (list_set idx v tup) ts.
Proof.
  unfold key_tups. intros Hrun. split.
  - apply foldlM_inv with (P := fun acc => In tup acc) (3 := Hrun); simpl; auto.
    intros s fm s' _ Hs Hstep. eapply alias_loop_mono; eauto.
  - intros field m a vs v idx x Hf Ha Hv Hidx Hx Heq.
    apply foldlM_establish
      with (Q := fun acc => In (list_set idx v tup) acc) (a := (field, m)) (4 := Hrun);
      auto; simpl.
    + intros s s' Hm.
      apply foldlM_establish
        with (Q := fun acc => In (list_set idx v tup) acc) (a := (a, vs)) (4 := Hm);
        auto.
      * intros s0 s0'. unfold alias_step. rewrite Hidx; simpl. rewrite Hx.
        simpl. rewrite Heq. intros E; inversion E; subst.
        apply in_or_app. right. apply in_map_iff. eauto.
      * intros s0 b s0' _ Hs0 Hstep. eapply alias_step_mono; eauto.
    + intros s fm s' _ Hs Hstep. eapply alias_loop_mono; eauto.
Qed.

Lemma index_row_mono keymaps i r d k d' i' t' :
  index_row keymaps i r d k = Ok d' -> indexed i' t' d -> indexed i' t' d'.
Proof.
  unfold index_row. destruct (to_tup r k); simpl; try discriminate.
  destruct (key_tups keymaps k a); simpl; try discriminate.
  intros E; inversion E; subst. apply fold_register_mono.
Qed.

Lemma index_keys_mono keymaps i r keys d d' i' t' :
  foldlM (index_row keymaps i r) keys d = Ok d' ->
  indexed i' t' d -> indexed i' t' d'.
Proof.
  intros Hrun Hin.
  apply foldlM_inv with (P := indexed i' t') (3 := Hrun); auto.
  intros s a s' _ Hs Hstep. eapply index_row_mono; eauto.
Qed.

Lemma row_indexed_mono keymaps i r k d d' :
  (forall t, indexed i t d -> indexed i t d') ->
  row_indexed keymaps i r k d -> row_indexed keymaps i r k d'.
Proof.
  intros Hm (tup & Ht & Hi & Ha). exists tup. repeat split; auto.
  intros. apply Hm. eapply Ha; eauto.
Qed.

Lemma index_row_spec keymaps i r d k d' :
  index_row keymaps i r d k = Ok d' -> row_indexed keymaps i r k d'.
Proof.
  unfold index_row. destruct (to_tup r k) as [tup|] eqn:Et; simpl; try discriminate.
  destruct (key_tups keymaps k tup) as [ts|] eqn:Ek; simpl; try discriminate.
  intros E; inversion E; subst.
  destruct (key_tups_spec _ _ _ Ek) as [H1 H2].
  exists tup. repeat split; auto using fold_register_all.
  intros. apply fold_register_all. eapply H2; eauto.
Qed.

Lemma rows_indexed_once_built keymaps keys rws d :
  build_index keymaps keys rws = Ok d ->
  forall i r k,
    nth_error rws i = Some r -> In k keys -> row_indexed keymaps i r k d.
Proof.
  unfold build_index. intros Hrun i r k Hr Hk.
  apply foldlM_establish
    with (Q := row_indexed keymaps i r k) (a := (i, r)) (4 := Hrun); simpl.
  - now apply In_enumerate.
  - intros s s' Hkeys.
    apply foldlM_establish
      with (Q := row_indexed keymaps i r k) (a := k) (4 := Hkeys); auto.
    + intros s0 s0'. apply index_row_spec.
    + intros s0 b s0' _ Hq Hstep. revert Hq. apply row_indexed_mono.
      intros t. eapply index_row_mono; eauto.
  - intros s ir s' _ Hq Hstep. revert Hq. apply row_indexed_mono.
    intros t. eapply index_keys_mono; eauto.
Qed.



(** ** The matcher *)

Lemma match_key_mono current nn j r acc k acc' (u : match_record) :
  match_key current nn j r acc k = Ok acc' -> In u acc -> In u acc'.
Proof.
  unfold match_key. destruct (to_tup r k) as [tup|]; simpl; try discriminate.
  destruct (tups_get tup (tups current)).
  - destruct (nn && none_in tup); intros E; inversion E; subst;
      auto using in_or_app.
  - intros E; inversion E; subst; auto.
Qed.

Lemma match_keys_mono current nn j r keys acc acc' (u : match_record) :
  foldlM (match_key current nn j r) keys acc = Ok acc' -> In u acc -> In u acc'.
Proof.
  intros Hrun Hin.
  apply foldlM_inv with (P := fun a => In u a) (3 := Hrun); auto.
  intros s a s' _ Hs Hstep. eapply match_key_mono; eauto.
Qed.

(** Every record comes from a lookup that succeeded, on a tuple free of
    [None] when the policy is on. *)
Lemma get_to_update_sound current ups keys nn recs :
  get_to_update current ups keys nn = Ok recs ->
  forall u, In u recs ->
    exists r tup l,
      nth_error ups (m_upsert u) = Some r /\ In (m_key u) keys /\
      to_tup r (m_key u) = Ok tup /\
      tups_get tup (tups current) = Some l /\ In (m_current u) l /\
      (nn = true -> none_in tup = false).
Proof.
  unfold get_to_update. intros Hrun.
  apply foldlM_inv
    with (P := fun recs => forall u, In u recs ->
      exists r tup l,
        nth_error ups (m_upsert u) = Some r /\ In (m_key u) keys /\
        to_tup r (m_key u) = Ok tup /\
        tups_get tup (tups current) = Some l /\ In (m_current u) l /\
        (nn = true -> none_in tup = false)) (3 := Hrun).
  - intros s [j r] s' Hjr Hs Hkeys. simpl in Hkeys.
    apply In_enumerate in Hjr.
    apply foldlM_inv
      with (P := fun recs => forall u, In u recs ->
        exists r tup l,
          nth_error ups (m_upsert u) = Some r /\ In (m_key u) keys /\
          to_tup r (m_key u) = Ok tup /\
          tups_get tup (tups current) = Some l /\ In (m_current u) l /\
          (nn = true -> none_in tup = false)) (3 := Hkeys); auto.
    intros s0 k s0' Hk Hs0. unfold match_key.
    destruct (to_tup r k) as [tup|] eqn:Et; simpl; try discriminate.
    destruct (tups_get tup (tups current)) as [l|] eqn:El.
    + destruct (nn && none_in tup) eqn:En; intros E; inversion E; subst; auto.
      intros u Hu. apply in_app_or in Hu. destruct Hu as [Hu|Hu]; auto.
      apply in_map_iff in Hu. destruct Hu as (i & <- & Hi). simpl.
      exists r, tup, l. repeat split; auto.
      intros ->. simpl in En. exact En.
    + intros E; inversion E; subst; auto.
  - simpl. contradiction.
Qed.

(** Every successful lookup yields its records, unless the policy is on and
    the tuple holds a [None]. *)
Lemma get_to_update_complete current ups keys nn recs :
  get_to_update current ups keys nn = Ok recs ->
  forall j r k tup l i,
    nth_error ups j = Some r -> In k keys -> to_tup r k = Ok tup ->
    tups_get tup (tups current) = Some l -> In i l ->
    nn && none_in tup = false ->
    In {| m_key := k; m_current := i; m_upsert := j |} recs.
Proof.
  unfold get_to_update. intros Hrun j r k tup l i Hj Hk Ht Hl Hi Hn.
  apply foldlM_establish
    with (Q := fun recs => In {| m_key := k; m_current := i; m_upsert := j |} recs)
         (a := (j, r)) (4 := Hrun); simpl.
  - now apply In_enumerate.
  - intros s s' Hkeys.
    apply foldlM_establish
      with (Q := fun recs => In {| m_key := k; m_current := i; m_upsert := j |} recs)
           (a := k) (4 := Hkeys); auto.
    + intros s0 s0'. unfold match_key. rewrite Ht; simpl. rewrite Hl, Hn.
      intros E; inversion E; subst. apply in_or_app. right.
      apply in_map_iff. eauto.
    + intros s0 b s0' _ Hq Hstep. eapply match_key_mono; eauto.
  - intros s ju s' _ Hq Hstep. eapply match_keys_mono; eauto.
Qed.

(** The matcher returns exactly when every desired row carries every field
    of every declared key. *)
Lemma get_to_update_total current ups keys nn :
  rows_have_keys ups keys ->
  exists recs, get_to_update current ups keys nn = Ok recs.
Proof.
  intros H. unfold get_to_update.
  destruct (foldlM_total
              (fun acc ju => foldlM (match_key current nn (fst ju) (snd ju)) keys acc)
              (fun _ => True) (enumerate ups)) with (s := @nil match_record)
    as (recs & E & _); eauto.
  intros s [j r] Hjr _. simpl. apply In_enumerate in Hjr.
  apply nth_error_In in Hjr.
  apply foldlM_total with (P := fun _ : list match_record => True); auto.
  intros s0 k Hk _. unfold match_key.
  destruct (H r k Hjr Hk) as [tup ->]. simpl.
  destruct (tups_get tup (tups current)); [destruct (nn && none_in tup)|]; eauto.
Qed.

(** C5. Null-key exclusion: with the no-null-keys policy on, a desired row
    whose key-tuple for a declared key holds a [None] is in no match record
    for that key. *)
Theorem null_key_exclusion current ups keys recs :
  get_to_update current ups keys true = Ok recs ->
  forall j r k tup,
    nth_error ups j = Some r -> to_tup r k = Ok tup -> none_in tup = true ->
    forall u, In u recs -> ~ (m_upsert u = j /\ m_key u = k).
Proof.
  intros Hrun j r k tup Hj Ht Hn u Hu [Ej Ek].
  destruct (get_to_update_sound _ _ _ _ Hrun u Hu)
    as (r' & tup' & l & Hr' & _ & Ht' & _ & _ & Hnn).
  subst j k. rewrite Hj in Hr'. inversion Hr'; subst r'.
  rewrite Ht in Ht'. inversion Ht'; subst tup'.
  rewrite (Hnn eq_refl) in Hn. discriminate.
Qed.

Lemma null_key_exclusion_witness :
  get_to_update null_snapshot null_upserts null_keys true
  = Ok [ {| m_key := ["id"]; m_current := 0; m_upsert := 0 |} ]
  /\ to_tup [("id", VInt 1); ("email", VNone)] ["email"] = Ok [VNone]
  /\ ~ (m_upsert {| m_key := ["id"]; m_current := 0; m_upsert := 0 |} = 0
        /\ m_key {| m_key := ["id"]; m_current := 0; m_upsert := 0 |} = ["email"]).
Proof.
  split; [reflexivity|]. split; [reflexivity|].
  exact (@null_key_exclusion null_snapshot null_upserts null_keys
           [ {| m_key := ["id"]; m_current := 0; m_upsert := 0 |} ] eq_refl
           0 [("id", VInt 1); ("email", VNone)] ["email"] [VNone]
           eq_refl eq_refl eq_refl
           {| m_key := ["id"]; m_current := 0; m_upsert := 0 |}
           (or_introl eq_refl)).
Defined.

(** C10. Null keys match when the policy is off: a desired row and a current
    row with the same key-tuple under a declared key, whether or not the tuple
    holds a [None], give a match record; and the records are exactly those of
    the successful index lookups, with no condition on [None]. *)
Theorem null_keys_match_without_policy keymaps keys rws d ups recs :
  build_index keymaps keys rws = Ok d ->
  get_to_update {| rows := rws; tups := d |} ups keys false = Ok recs ->
  (forall i ri j rj k t,
      nth_error rws i = Some ri -> nth_error ups j = Some rj -> In k keys ->
      to_tup ri k = Ok t -> to_tup rj k = Ok t ->
      In {| m_key := k; m_current := i; m_upsert := j |} recs) /\
  (forall u, In u recs <-> record_found {| rows := rws; tups := d |} ups keys u).
Proof.
  intros Hidx Hrun. split.
  - intros i ri j rj k t Hi Hj Hk Hti Htj.
    destruct (rows_indexed_once_built _ _ _ Hidx i k Hi Hk)
      as (tup & Ht & (l & Hl & Hin) & _).
    rewrite Hti in Ht. inversion Ht; subst tup.
    eapply get_to_update_complete; eauto.
  - intros u. split.
    + intros Hu.
      destruct (get_to_update_sound _ _ _ _ Hrun u Hu)
        as (r & tup & l & H1 & H2 & H3 & H4 & H5 & _).
      exists r, tup, l. auto.
    + intros (r & tup & l & H1 & H2 & H3 & H4 & H5).
      destruct u as [k i j]. simpl in *.
      eapply get_to_update_complete; eauto.
Qed.

Lemma null_keys_match_without_policy_witness :
  In {| m_key := ["email"]; m_current := 0; m_upsert := 0 |}
     [ {| m_key := ["id"]; m_current := 0; m_upsert := 0 |};
       {| m_key := ["email"]; m_current := 0; m_upsert := 0 |} ].
Proof.
  exact (proj1 (@null_keys_match_without_policy [] null_keys null_rows
                  null_index null_upserts
                  [ {| m_key := ["id"]; m_current := 0; m_upsert := 0 |};
                    {| m_key := ["email"]; m_current := 0; m_upsert := 0 |} ]
                  eq_refl eq_refl)
               0 [("id", VInt 1); ("email", VNone)]
               0 [("id", VInt 1); ("email", VNone)]
               ["email"] [VNone]
               eq_refl eq_refl (or_intror (or_introl eq_refl)) eq_refl eq_refl).
Defined.

(** ** When index construction raises *)

Lemma index_of_notin field k : ~ In field k -> index_of field k = Raise ValueError.
Proof.
  induction k as [|x k IH]; simpl; intros H; auto.
  destruct (String.eqb x field) eqn:E.
  - apply String.eqb_eq in E. tauto.
  - rewrite IH; auto.
Qed.

Lemma index_of_In field k :
  In field k -> exists idx, index_of field k = Ok idx /\ idx < List.length k.
Proof.
  induction k as [|x k IH]; simpl; intros H; [contradiction|].
  destruct (String.eqb x field) eqn:E.
  - exists 0. split; auto. lia.
  - destruct H as [->|H]; [rewrite String.eqb_refl in E; discriminate|].
    destruct (IH H) as (idx & -> & Hlt). exists (S idx). simpl. split; auto. lia.
Qed.

Lemma index_of_cases field k :
  (exists idx, index_of field k = Ok idx /\ idx < List.length k)
  \/ index_of field k = Raise ValueError.
Proof.
  destruct (in_dec string_dec field k);
    auto using index_of_In, index_of_notin.
Qed.

Lemma to_tup_length r k tup : to_tup r k = Ok tup -> List.length tup = List.length k.
Proof.
  revert tup; induction k as [|x k IH]; simpl; intros tup.
  - intros E; inversion E; auto.
  - destruct (row_item r x); simpl; try discriminate.
    destruct (to_tup r k) as [t|]; simpl; try discriminate.
    intros E; inversion E; subst. simpl. now rewrite (IH t).
Qed.

Lemma alias_step_cases k tup field acc kv :
  List.length tup = List.length k ->
  (exists acc', alias_step k tup field acc kv = Ok acc')
  \/ alias_step k tup field acc kv = Raise ValueError.
Proof.
  intros Hlen. unfold alias_step.
  destruct (index_of_cases field k) as [(idx & -> & Hlt)| -> ]; simpl; auto.
  destruct (nth_error tup idx) eqn:En.
  - destruct (py_eqb v (fst kv)); eauto.
  - apply nth_error_None in En. lia.
Qed.

Lemma alias_loop_cases k tup field m :
  List.length tup = List.length k ->
  (In field k \/ m = [] -> forall acc, exists acc', foldlM (alias_step k tup field) m acc = Ok acc')
  /\ (~ In field k -> m <> [] -> forall acc, foldlM (alias_step k tup field) m acc = Raise ValueError).
Proof.
  intros Hlen. split.
  - intros H acc.
    destruct (foldlM_total (alias_step k tup field) (fun _ => True) m)
      with (s := acc) as (acc' & E & _); eauto.
    intros s a Ha _. destruct H as [H | -> ]; [|contradiction].
    unfold alias_step. destruct (index_of_In _ _ H) as (idx & -> & Hlt). simpl.
    destruct (nth_error tup idx) eqn:En.
    + destruct (py_eqb v (fst a)); eauto.
    + apply nth_error_None in En. lia.
  - intros Hn Hm acc. destruct m as [|a m]; [congruence|]. simpl.
    unfold alias_step at 1. rewrite index_of_notin; auto.
Qed.

Lemma key_tups_cases keymaps k tup :
  List.length tup = List.length k ->
  ((forall field m, In (field, m) keymaps -> m <> [] -> In field k) ->
   exists ts, key_tups keymaps k tup = Ok ts)
  /\ ((exists field m, In (field, m) keymaps /\ m <> [] /\ ~ In field k) ->
      key_tups keymaps k tup = Raise ValueError).
Proof.
  intros Hlen. unfold key_tups. split.
  - intros H.
    destruct (foldlM_total
                (fun tups fm => foldlM (alias_step k tup (fst fm)) (snd fm) tups)
                (fun _ => True) keymaps) with (s := [tup]) as (ts & E & _); eauto.
    intros s [field m] Hfm _. simpl.
    destruct (@alias_loop_cases k tup field m Hlen) as [Hok _].
    destruct (Hok) with (acc := s) as [acc' E]; eauto.
    destruct m; [now right|]. left. apply (H field (p :: m)); auto. discriminate.
  - intros (field & m & Hfm & Hm & Hn).
    apply foldlM_raises with (a := (field, m)); auto; simpl.
    + intros s. now apply (@alias_loop_cases k tup field m Hlen).
    + intros s [f' m'] _. simpl.
      destruct (in_dec string_dec f' k) as [Hi|Hi].
      * left. apply (@alias_loop_cases k tup f' m' Hlen); auto.
      * destruct m' as [|a m']; [left; simpl; eauto|].
        right. apply (@alias_loop_cases k tup f' (a :: m') Hlen); auto. discriminate.
Qed.

Lemma index_row_cases keymaps i r d k tup :
  to_tup r k = Ok tup ->
  ((forall field m, In (field, m) keymaps -> m <> [] -> In field k) ->
   exists d', index_row keymaps i r d k = Ok d')
  /\ ((exists field m, In (field, m) keymaps /\ m <> [] /\ ~ In field k) ->
      index_row keymaps i r d k = Raise ValueError)
  /\ ((exists d', index_row keymaps i r d k = Ok d')
      \/ index_row keymaps i r d k = Raise ValueError).
Proof.
  intros Ht. pose proof (to_tup_length _ _ Ht) as Hlen.
  destruct (@key_tups_cases keymaps k tup Hlen) as [Hok Hbad].
  unfold index_row. rewrite Ht. simpl. repeat split.
  - intros H. destruct (Hok H) as [ts ->]. simpl. eauto.
  - intros H. now rewrite (Hbad H).
  - destruct (key_tups keymaps k tup) as [ts|e] eqn:E; simpl; eauto.
    right. f_equal.
    assert (D : (forall field m, In (field, m) keymaps -> m <> [] -> In field k)
                \/ (exists field m, In (field, m) keymaps /\ m <> [] /\ ~ In field k)).
    { clear. induction keymaps as [|[f m] km IH].
      - left. simpl. contradiction.
      - destruct m as [|a m].
        + destruct IH as [IH|(f' & m' & H1 & H2)].
          * left. intros field m0 [E|Hin] Hm; [inversion E; subst; exfalso; now apply Hm|eauto].
          * right. exists f', m'. simpl. tauto.
        + destruct (in_dec string_dec f k) as [Hi|Hi].
          * destruct IH as [IH|(f' & m' & H1 & H2)].
            -- left. intros field m0 [E|Hin] Hm; [inversion E; subst; auto|eauto].
            -- right. exists f', m'. simpl. tauto.
          * right. exists f, (a :: m). simpl. repeat split; auto. discriminate. }
    destruct D as [D|D].
    + destruct (Hok D) as [ts E']. discriminate E'.
    + pose proof (Hbad D) as E'. now inversion E'.
Qed.

(** Index construction over rows that carry the key fields: [ValueError]
    when there is a row and a key-map field with a source value is missing
    from a declared key. *)
Lemma build_index_raises keymaps keys rws :
  rows_have_keys rws keys -> rws <> [] -> keymap_outside_key keymaps keys ->
  build_index keymaps keys rws = Raise ValueError.
Proof.
  intros Hrows Hne (field & m & k & Hfm & Hm & Hk & Hn).
  unfold build_index.
  assert (Hkeys : forall i r d, In r rws ->
            foldlM (index_row keymaps i r) keys d = Raise ValueError).
  { intros i r d Hr. apply foldlM_raises with (a := k); auto.
    - intros s. destruct (Hrows r k Hr Hk) as [tup Ht].
      apply (@index_row_cases keymaps i r s k tup Ht). eauto.
    - intros s b Hb. destruct (Hrows r b Hr Hb) as [tup Ht].
      apply (@index_row_cases keymaps i r s b tup Ht). }
  destruct rws as [|r rws]; [congruence|].
  unfold enumerate. simpl. rewrite Hkeys; simpl; auto.
Qed.

(** Index construction returns when there is no row, or every key-map field
    with a source value occurs in every declared key. *)
Lemma build_index_total keymaps keys rws :
  rows_have_keys rws keys ->
  rws = [] \/
  (forall field m k, In (field, m) keymaps -> m <> [] -> In k keys -> In field k) ->
  exists d, build_index keymaps keys rws = Ok d.
Proof.
  intros Hrows [->|H]; unfold build_index.
  - simpl. eauto.
  - destruct (foldlM_total
                (fun d ir => foldlM (index_row keymaps (fst ir) (snd ir)) keys d)
                (fun _ => True) (enumerate rws)) with (s := @nil (list value * list nat))
      as (d & E & _); eauto.
    intros s [i r] Hir _. simpl. apply In_enumerate, nth_error_In in Hir.
    apply foldlM_total with (P := fun _ : tups_index => True); auto.
    intros s0 k Hk _. destruct (Hrows r k Hir Hk) as [tup Ht].
    destruct (@index_row_cases keymaps i r s0 k tup Ht) as [Hok _].
    destruct Hok as [d' E]; eauto.
Qed.

(** ** Running computations *)

Section RunFacts.
Context {DB : Type} {store : Store DB}.

Lemma bind_ok {A B} (m : M A) (k : A -> M B) (w w1 : world (DB := DB)) a t1 :
  m w = (Ok a, w1, t1) ->
  bind m k w = (fst (fst (k a w1)), snd (fst (k a w1)), t1 ++ snd (k a w1)).
Proof.
  unfold bind. intros ->. now destruct (k a w1) as [[r w2] t2].
Qed.

Lemma bind_raise {A B} (m : M A) (k : A -> M B) (w w1 : world (DB := DB)) e t1 :
  m w = (Raise e, w1, t1) -> bind m k w = (Raise e, w1, t1).
Proof.
  unfold bind. now intros ->.
Qed.
End RunFacts.

(** C9, as amended. With rows that carry the key fields read from the store:
    when there is at least one row and the key-map names a field, with at
    least one source value, that some declared key lacks, the invocation
    raises [ValueError] right after the read, before any matching; and index
    construction returns when there is no row or every key-map field with a
    source value occurs in every declared key. *)
Theorem keymap_field_outside_key_aborts {DB : Type} {store : Store DB}
    (iter_set : list nat -> list nat) table karg kw (w : world) rws db' :
  db_get (select_query table kw) (w_db w) = (Ok rws, db') ->
  rows_have_keys rws (parse_keys karg) ->
  (rws <> [] -> keymap_outside_key (kw_keymaps kw) (parse_keys karg) ->
   upsert iter_set table karg kw w
   = (Raise ValueError, {| w_db := db'; w_upserts := w_upserts w |},
      [EGet (select_query table kw)]))
  /\ (rws = [] \/
      (forall field m k, In (field, m) (kw_keymaps kw) -> m <> [] ->
                         In k (parse_keys karg) -> In field k) ->
      exists d,
        get_current table (parse_keys karg) kw w
        = (Ok {| rows := rws; tups := d |},
           {| w_db := db'; w_upserts := w_upserts w |},
           [EGet (select_query table kw)])).
Proof.
  intros Hget Hrows. split.
  - intros Hne Hbad.
    pose proof (build_index_raises Hrows Hne Hbad) as Hidx.
    unfold upsert, get_current, bind, call, lift. rewrite Hget. simpl.
    rewrite Hidx. reflexivity.
  - intros H. destruct (build_index_total (kw_keymaps kw) Hrows H) as [d Hd].
    exists d. unfold get_current, bind, call, lift, ret. rewrite Hget. simpl.
    rewrite Hd. reflexivity.
Qed.

Lemma keymap_field_outside_key_aborts_witness :
  upsert iter_added "customers" (KSingle (KScalar "id"))
    {| kw_where := None; kw_delete := false; kw_ignore := [];
       kw_default := []; kw_noinsert := false; kw_get_unmatched := false;
       kw_overwrite := false; kw_ignorenull := false; kw_before_insert := None;
       kw_nonullkeys := false;
       kw_keymaps := [("region", [(VStr "EU", [VStr "Europe"])])];
       kw_dryrun := false |}
    region_world
  = (Raise ValueError, region_world, [EGet "SELECT * FROM customers "]).
Proof.
  refine (proj1 (@keymap_field_outside_key_aborts mem_db mem_store iter_added
                   "customers" (KSingle (KScalar "id")) _ region_world
                   (md_rows region_db) region_db eq_refl _) _ _).
  - intros r k [<-|[]] [<-|[]]. simpl. eauto.
  - discriminate.
  - exists "region", [(VStr "EU", [VStr "Europe"])], ["id"]. simpl.
    repeat split; auto; try discriminate.
    intros [E|[]]. discriminate E.
Defined.

(** The claim as stated fails: a key-map field outside the key, with an
    empty alias table, does not make index construction raise although the
    snapshot holds a row. *)
Lemma keymap_field_outside_key_counterexample :
  (exists field m k,
      In (field, m) region_keymaps /\ In k [["id"]] /\ ~ In field k)
  /\ md_rows region_db <> []
  /\ build_index region_keymaps [["id"]] (md_rows region_db)
     = Ok [([VInt 1], [0])]
  /\ upsert iter_added "customers" (KSingle (KScalar "id")) region_kwargs region_world
     = (Ok RTrue, region_world,
        [EGet "SELECT * FROM customers "; EGetFields "customers"]).
Proof.
  repeat split.
  - exists "region", [], ["id"]. simpl. repeat split; auto.
    intros [E|[]]. discriminate E.
  - discriminate.
Qed.

(** ** Assignment into a list position *)

Lemma list_set_same {A} (l : list A) j a :
  nth_error l j = Some a -> list_set j a l = l.
Proof.
  revert j; induction l as [|x l IH]; intros [|j]; simpl; auto;
    intros E; [now inversion E | now rewrite IH].
Qed.

Lemma list_set_twice {A} (l : list A) j a b :
  list_set j a (list_set j b l) = list_set j a l.
Proof.
  revert j; induction l as [|x l IH]; intros [|j]; simpl; auto. now rewrite IH.
Qed.

Lemma nth_error_list_set {A} (l : list A) j a b :
  nth_error l j = Some b -> nth_error (list_set j a l) j = Some a.
Proof.
  revert j; induction l as [|x l IH]; intros [|j]; simpl; auto; discriminate.
Qed.

Lemma nth_error_list_set_other {A} (l : list A) i j a :
  i <> j -> nth_error (list_set j a l) i = nth_error l i.
Proof.
  revert i j; induction l as [|x l IH]; intros [|i] [|j]; simpl; auto;
    try congruence.
Qed.

Lemma length_list_set {A} (l : list A) j a :
  List.length (list_set j a l) = List.length l.
Proof.
  revert j; induction l as [|x l IH]; intros [|j]; simpl; auto.
Qed.

(** ** The defaults loop *)

Section DefaultFacts.
Context {DB : Type} {store : Store DB}.

Lemma with_upsert_same (w : world (DB := DB)) j r :
  nth_error (w_upserts w) j = Some r -> with_upsert w j r = w.
Proof.
  destruct w as [db ups]. unfold with_upsert. simpl. intros H.
  now rewrite list_set_same.
Qed.

Lemma with_upsert_twice (w : world (DB := DB)) j a b :
  with_upsert (with_upsert w j b) j a = with_upsert w j a.
Proof.
  unfold with_upsert. simpl. now rewrite list_set_twice.
Qed.

Lemma set_defaults_run kw j (w : world (DB := DB)) r r' :
  nth_error (w_upserts w) j = Some r ->
  apply_defaults kw r = Ok r' ->
  set_defaults kw j w = (Ok tt, with_upsert w j r', []).
Proof.
  unfold set_defaults, apply_defaults.
  generalize (kw_default kw) as ds. intros ds; revert w r.
  induction ds as [|[f spec] ds IH]; simpl; intros w r Hr Hrun.
  - inversion Hrun; subst. unfold ret. now rewrite with_upsert_same.
  - destruct (get_default spec r) as [v|] eqn:Ev; simpl in Hrun; try discriminate.
    unfold bind at 1. unfold bind at 1. unfold get_upsert at 1, list_item.
    rewrite Hr. unfold bind at 1. unfold lift at 1. rewrite Ev.
    unfold set_upsert at 1. simpl.
    rewrite (IH (with_upsert w j (row_set f v r)) (row_set f v r)); auto.
    + now rewrite with_upsert_twice.
    + simpl. eapply nth_error_list_set; eauto.
Qed.

(** The defaults loop calls no store method and prints nothing. *)
Lemma set_defaults_quiet kw j (w : world (DB := DB)) :
  exists res w', set_defaults kw j w = (res, w', []) /\ w_db w' = w_db w.
Proof.
  unfold set_defaults. generalize (kw_default kw) as ds. intros ds; revert w.
  induction ds as [|[f spec] ds IH]; simpl; intros w.
  - unfold ret. eauto.
  - unfold bind at 1. unfold bind at 1. unfold get_upsert at 1.
    destruct (list_item (w_upserts w) j) as [r|e]; [|eauto].
    unfold bind at 1. unfold lift at 1.
    destruct (get_default spec r) as [v|e]; [|eauto].
    unfold set_upsert at 1. simpl.
    destruct (IH (with_upsert w j (row_set f v r))) as (res & w' & -> & Hdb).
    eauto.
Qed.

Lemma set_defaults_raise kw j (w : world (DB := DB)) r e :
  nth_error (w_upserts w) j = Some r ->
  apply_defaults kw r = Raise e ->
  exists w', set_defaults kw j w = (Raise e, w', []) /\ w_db w' = w_db w.
Proof.
  unfold set_defaults, apply_defaults.
  generalize (kw_default kw) as ds. intros ds; revert w r.
  induction ds as [|[f spec] ds IH]; simpl; intros w r Hr Hrun.
  - discriminate.
  - unfold bind at 1. unfold bind at 1. unfold get_upsert at 1, list_item.
    rewrite Hr. unfold bind at 1. unfold lift at 1.
    destruct (get_default spec r) as [v|e'] eqn:Ev; simpl in Hrun.
    + unfold set_upsert at 1. simpl.
      destruct (IH (with_upsert w j (row_set f v r)) (row_set f v r))
        as (w' & -> & Hdb); auto.
      * simpl. eapply nth_error_list_set; eauto.
      * eauto.
    + inversion Hrun; subst. eauto.
Qed.
End DefaultFacts.

(** ** One match record of the update loop *)

Lemma where_loop cur k :
  forall wh args,
    foldlM (where_step cur) k (wh, args)
    = match to_tup cur k with
      | Ok tup =>
          Ok (wh ++ map (fun fv => where_pred (fst fv) (snd fv)) (combine k tup),
              args ++ tup)
      | Raise e => Raise e
      end.
Proof.
  induction k as [|x k IH]; simpl; intros wh args.
  - now rewrite !app_nil_r.
  - unfold where_step at 1. destruct (row_item cur x) as [v|e]; simpl; auto.
    rewrite IH. destruct (to_tup cur k) as [tup|e]; simpl; auto.
    now rewrite <- !app_assoc.
Qed.

Section UpdateFacts.
Context {DB : Type} {store : Store DB}.

Lemma update_one_run kw table current fields u (w : world (DB := DB)) cur r up :
  nth_error (rows current) (m_current u) = Some cur ->
  nth_error (w_upserts w) (m_upsert u) = Some r ->
  apply_defaults kw r = Ok up ->
  update_one kw table current fields u w
  = match diff_fields kw cur up fields with
    | Raise e => (Raise e, with_upsert w (m_upsert u) up, [])
    | Ok sa =>
        match fst sa with
        | [] => (Ok tt, with_upsert w (m_upsert u) up, [])
        | _ :: _ =>
            match to_tup cur (m_key u) with
            | Raise e => (Raise e, with_upsert w (m_upsert u) up, [])
            | Ok tup =>
                send_update kw
                  (update_query table (fst sa) (scope_where kw (m_key u) tup))
                  (snd sa ++ tup) (with_upsert w (m_upsert u) up)
            end
        end
    end.
Proof.
  intros Hcur Hr Hup.
  assert (Hup' : nth_error (w_upserts (with_upsert w (m_upsert u) up)) (m_upsert u)
                 = Some up).
  { simpl. eapply nth_error_list_set; eauto. }
  unfold update_one, bind, lift, get_upsert, list_item.
  rewrite Hcur, Hr, (set_defaults_run kw _ w Hr Hup), Hup'.
  destruct (diff_fields kw cur up fields) as [[sets args]|e]; auto. simpl.
  destruct sets as [|s sets]; auto.
  rewrite where_loop. unfold scope_where.
  destruct (to_tup cur (m_key u)) as [tup|e]; auto. simpl.
  destruct (send_update _ _ _ _) as [[res w2] t2]. reflexivity.
Qed.
End UpdateFacts.

(** ** The field loop *)

Lemma pytype_eqb_refl t : pytype_eqb t t = true.
Proof. now destruct t. Qed.

Lemma row_mem_get f r v : row_get f r = Some v -> row_mem f r = true.
Proof.
  unfold row_mem, dmem, row_get. now intros ->.
Qed.

(** A field without a type mismatch does not raise, when the current row
    carries it. *)
Lemma diff_step_returns kw cur up acc f :
  row_get f cur <> None -> type_mismatch cur up f = false ->
  exists acc', diff_step kw cur up acc f = Ok acc'.
Proof.
  unfold diff_step, row_item, type_mismatch.
  destruct (row_get f cur) as [c|] eqn:Hc; [|congruence]. intros _ Hm. simpl.
  unfold row_mem, dmem. fold (row_get f up).
  destruct (row_get f up) as [n|] eqn:Hu; simpl.
  - rewrite andb_false_r. destruct (kw_ignorenull kw && is_none n); eauto.
    rewrite Hm. destruct (negb (py_eqb c n)); eauto.
  - rewrite andb_true_r. destruct (negb (kw_overwrite kw)); eauto.
    simpl. rewrite andb_true_r.
    destruct (kw_ignorenull kw); simpl; eauto.
    rewrite andb_false_r. simpl. destruct (negb (py_eqb c VNone)); eauto.
Qed.

(** The first field with a type mismatch raises, naming itself and both
    values. *)
Lemma diff_fields_mismatch kw cur up fields f0 :
  (forall x, In x fields -> row_get x cur <> None) ->
  find (type_mismatch cur up) fields = Some f0 ->
  exists c n,
    row_get f0 cur = Some c /\ row_get f0 up = Some n /\
    c <> VNone /\ n <> VNone /\ type_of c <> type_of n /\
    diff_fields kw cur up fields = Raise (TypeError f0 n c).
Proof.
  unfold diff_fields. generalize (@nil string, @nil value) as acc.
  induction fields as [|f fields IH]; simpl; intros acc Hcur Hfind.
  - discriminate.
  - destruct (type_mismatch cur up f) eqn:Hm.
    + inversion Hfind; subst f0. clear IH.
      unfold type_mismatch in Hm.
      destruct (row_get f cur) as [c|] eqn:Hc; try discriminate.
      destruct (row_get f up) as [n|] eqn:Hu; try discriminate.
      exists c, n. repeat split; auto.
      * intros ->. discriminate.
      * intros ->. simpl in Hm. now rewrite andb_false_r in Hm.
      * intros E. rewrite E, pytype_eqb_refl in Hm. simpl in Hm.
        now rewrite andb_false_r in Hm.
      * assert (Hn : is_none n = false).
        { destruct n; auto. simpl in Hm. now rewrite andb_false_r in Hm. }
        unfold diff_step, row_item. rewrite Hc. cbn [rbind].
        rewrite (@row_mem_get _ _ _ Hu), Hu. cbn [negb].
        rewrite Hn in *. rewrite !andb_false_r. now rewrite Hm.
    + destruct (@diff_step_returns kw cur up acc f) as [acc' ->]; auto.
      simpl. apply IH; auto.
Qed.

Section StatementFacts.
Context {DB : Type} {store : Store DB}.

(** C6. UPDATE scoping: the statement of a match record with a non-empty
    change set has, as its WHERE clause, the global filter, when [where] is
    given and not empty, followed by one predicate per field of the record's
    key, joined by AND; each predicate is [field = %s], or [field IS %s] when
    the current row's value is [None]; the predicate values are the current
    row's. The statement is printed in a dry run and executed otherwise. *)
Theorem update_scoping kw table current fields u (w : world (DB := DB))
    cur r up sets args tup :
  nth_error (rows current) (m_current u) = Some cur ->
  nth_error (w_upserts w) (m_upsert u) = Some r ->
  apply_defaults kw r = Ok up ->
  diff_fields kw cur up fields = Ok (sets, args) ->
  sets <> [] ->
  to_tup cur (m_key u) = Ok tup ->
  let preds :=
    map (fun fv => (fst fv ++ " " ++ (if is_none (snd fv) then "IS" else "=")
                      ++ " %s")%string)
        (combine (m_key u) tup) in
  let filter_ :=
    match kw_where kw with
    | Some f => if String.eqb f "" then [] else [f]
    | None => []
    end in
  let query :=
    ("UPDATE " ++ table ++ " SET " ++ String.concat ", " sets
       ++ " WHERE " ++ String.concat " AND " (filter_ ++ preds))%string in
  let w1 := with_upsert w (m_upsert u) up in
  update_one kw table current fields u w
  = (if kw_dryrun kw then (Ok tt, w1, [EPrintSql query (args ++ tup)])
     else try_unique (call (ESql query (args ++ tup))
                           (db_sql query (args ++ tup))) w1)
  /\ exists res w2 log,
      update_one kw table current fields u w
      = (res, w2,
         (if kw_dryrun kw then EPrintSql query (args ++ tup)
          else ESql query (args ++ tup)) :: log).
Proof.
  intros Hcur Hr Hup Hdiff Hsets Htup preds filter_ query w1.
  rewrite (update_one_run kw table current fields u w Hcur Hr Hup).
  rewrite Hdiff. simpl. destruct sets as [|s sets]; [congruence|].
  rewrite Htup. unfold send_update.
  assert (Hw : scope_where kw (m_key u) tup = filter_ ++ preds).
  { unfold scope_where, where_given, filter_, preds.
    destruct (kw_where kw) as [f|]; [destruct (String.eqb f "")|]; reflexivity. }
  rewrite Hw.
  change (update_query table (s :: sets) (filter_ ++ preds)) with query.
  fold w1. destruct (kw_dryrun kw).
  - split; [reflexivity|]. unfold try_unique, emit. eauto.
  - split; [reflexivity|]. unfold try_unique, call.
    destruct (db_sql query (args ++ tup) (w_db w1)) as [[|e] db'].
    + do 3 eexists. reflexivity.
    + destruct e; do 3 eexists; reflexivity.
Qed.
End StatementFacts.

Lemma update_scoping_witness :
  update_one filtered_kwargs "users" users_snapshot ["id"; "name"; "email"]
             users_record users_world
  = (Ok tt, users_world,
     [ESql "UPDATE users SET name = %s WHERE active AND id = %s AND email IS %s"
           [VStr "a2"; VInt 1; VNone]]).
Proof.
  exact (proj1 (@update_scoping mem_db mem_store filtered_kwargs "users"
                  users_snapshot
                  ["id"; "name"; "email"] users_record users_world
                  [("id", VInt 1); ("name", VStr "a"); ("email", VNone)]
                  [("id", VInt 1); ("name", VStr "a2"); ("email", VNone)]
                  [("id", VInt 1); ("name", VStr "a2"); ("email", VNone)]
                  ["name = %s"] [VStr "a2"] [VInt 1; VNone]
                  eq_refl eq_refl eq_refl eq_refl
                  (fun E => eq_ind ["name = %s"]
                              (fun l => match l with [] => False | _ => True end)
                              I [] E)
                  eq_refl)).
Defined.

(** ** The phases of an invocation *)

Section PhaseFacts.
Context {DB : Type} {store : Store DB}.

Lemma forM__app {A} (f : A -> M (DB := DB) unit) (l1 l2 : list A) (w : world) :
  forM_ f (l1 ++ l2) w = bind (forM_ f l1) (fun _ => forM_ f l2) w.
Proof.
  revert w; induction l1 as [|a l1 IH]; simpl; intros w.
  - unfold bind, ret. destruct (forM_ f l2 w) as [[r w'] t]. reflexivity.
  - unfold bind. destruct (f a w) as [[[|e] w1] t1]; auto.
    rewrite IH. unfold bind.
    destruct (forM_ f l1 w1) as [[[|e] w2] t2]; auto.
    destruct (forM_ f l2 w2) as [[r w3] t3]. now rewrite app_assoc.
Qed.

(** The loop stops at the first body that raises. *)
Lemma forM__raises {A} (f : A -> M (DB := DB) unit) l1 a l2 (w w1 w2 : world) t1 t2 e :
  forM_ f l1 w = (Ok tt, w1, t1) ->
  f a w1 = (Raise e, w2, t2) ->
  forM_ f (l1 ++ a :: l2) w = (Raise e, w2, t1 ++ t2).
Proof.
  intros H1 H2. rewrite forM__app. unfold bind. rewrite H1. simpl.
  unfold bind. now rewrite H2.
Qed.

Lemma upsert_run iter_set table karg kw (w : world (DB := DB)) rws db1 d recs :
  db_get (select_query table kw) (w_db w) = (Ok rws, db1) ->
  build_index (kw_keymaps kw) (parse_keys karg) rws = Ok d ->
  get_to_update {| rows := rws; tups := d |} (w_upserts w) (parse_keys karg)
                (kw_nonullkeys kw) = Ok recs ->
  upsert iter_set table karg kw w
  = match bind (do_updates kw table recs {| rows := rws; tups := d |})
               (fun _ => after_updates iter_set kw table (parse_keys karg)
                           {| rows := rws; tups := d |}
                           (get_unmatched recs {| rows := rws; tups := d |}
                                          (w_upserts w)))
               {| w_db := db1; w_upserts := w_upserts w |} with
    | (res, w', t) => (res, w', EGet (select_query table kw) :: t)
    end.
Proof.
  intros Hget Hidx Hrecs.
  unfold upsert, get_current.
  unfold bind at 1. unfold bind at 1. unfold call at 1. rewrite Hget.
  unfold bind at 1. unfold lift at 1. rewrite Hidx. unfold ret at 1.
  unfold bind at 1. unfold get_upserts at 1. cbn [w_upserts w_db].
  unfold bind at 1. unfold lift at 1. rewrite Hrecs.
  fold (after_updates iter_set kw table (parse_keys karg)
          {| rows := rws; tups := d |}
          (get_unmatched recs {| rows := rws; tups := d |} (w_upserts w))).
  destruct (bind _ _ _) as [[res w'] t]. reflexivity.
Qed.
End PhaseFacts.

Section UpdatePhase.
Context {DB : Type} {store : Store DB}.

Lemma do_updates_run kw table recs current (w : world (DB := DB)) fs db2 :
  db_get_fields table (w_db w) = (Ok fs, db2) ->
  do_updates kw table recs current w
  = match forM_ (update_one kw table current
                   (filter (fun x => negb (mem_str x (kw_ignore kw))) fs))
                recs {| w_db := db2; w_upserts := w_upserts w |} with
    | (res, w', t) => (res, w', EGetFields table :: t)
    end.
Proof.
  intros Hf. unfold do_updates, bind, call. rewrite Hf.
  destruct (forM_ _ _ _) as [[res w'] t]. reflexivity.
Qed.

(** C2. A type mismatch is fatal and uncaught: when the loop reaches a match
    record in which some diffed field has, in the current row and in the
    desired row with its defaults, non-null values of different types, the
    record raises [TypeError] naming the first such field and its two values,
    without any statement for the record, and the invocation ends with that
    error: nothing follows the events of the earlier records. *)
Theorem type_mismatch_aborts (iter_set : list nat -> list nat) table karg kw
    (w w2 : world (DB := DB)) rws db1 d recs1 u recs2 fs db2 t1 cur r up f :
  let keys := parse_keys karg in
  let current := {| rows := rws; tups := d |} in
  let fields := filter (fun x => negb (mem_str x (kw_ignore kw))) fs in
  db_get (select_query table kw) (w_db w) = (Ok rws, db1) ->
  build_index (kw_keymaps kw) keys rws = Ok d ->
  get_to_update current (w_upserts w) keys (kw_nonullkeys kw)
  = Ok (recs1 ++ u :: recs2) ->
  db_get_fields table db1 = (Ok fs, db2) ->
  forM_ (update_one kw table current fields) recs1
        {| w_db := db2; w_upserts := w_upserts w |} = (Ok tt, w2, t1) ->
  nth_error rws (m_current u) = Some cur ->
  nth_error (w_upserts w2) (m_upsert u) = Some r ->
  apply_defaults kw r = Ok up ->
  (forall x, In x fields -> row_get x cur <> None) ->
  In f fields ->
  type_mismatch cur up f = true ->
  exists f0 c n,
    find (type_mismatch cur up) fields = Some f0 /\
    row_get f0 cur = Some c /\ row_get f0 up = Some n /\
    c <> VNone /\ n <> VNone /\ type_of c <> type_of n /\
    update_one kw table current fields u w2
    = (Raise (TypeError f0 n c), with_upsert w2 (m_upsert u) up, []) /\
    upsert iter_set table karg kw w
    = (Raise (TypeError f0 n c), with_upsert w2 (m_upsert u) up,
       EGet (select_query table kw) :: EGetFields table :: t1).
Proof.
  intros keys current fields Hget Hidx Hrecs Hfs Hloop Hcur Hr Hup Hall Hin Hm.
  subst keys. set (flds := fields) in *. subst fields.
  set (cur_ := current) in *. subst current.
  destruct (find (type_mismatch cur up) flds) as [f0|] eqn:Hfind.
  2:{ apply find_none with (x := f) in Hfind; auto. congruence. }
  destruct (@diff_fields_mismatch kw cur up flds f0 Hall Hfind)
    as (c & n & Hc & Hn & Hc0 & Hn0 & Hty & Hdiff).
  assert (Hone : update_one kw table cur_ flds u w2
                 = (Raise (TypeError f0 n c), with_upsert w2 (m_upsert u) up, [])).
  { rewrite (@update_one_run _ _ kw table cur_ flds u w2 cur r up Hcur Hr Hup).
    now rewrite Hdiff. }
  exists f0, c, n. repeat split; auto.
  rewrite (@upsert_run _ _ iter_set table karg kw w rws db1 d _ Hget Hidx Hrecs).
  unfold bind at 1.
  fold cur_.
  rewrite (@do_updates_run kw table (recs1 ++ u :: recs2) cur_
             {| w_db := db1; w_upserts := w_upserts w |} fs db2 Hfs).
  cbn [w_upserts]. fold flds.
  pose proof (@forM__raises DB _ _ recs1 u recs2 _ _ _ _ _ _ Hloop Hone) as Hrun.
  rewrite Hrun.
  now rewrite app_nil_r.
Qed.
End UpdatePhase.

Lemma type_mismatch_aborts_witness :
  exists f0 c n,
    f0 = "qty" /\ c = VStr "5" /\ n = VInt 5 /\
    upsert iter_added "items" (KSingle (KScalar "id")) no_kwargs items_world
    = (Raise (TypeError f0 n c), items_world,
       [ EGet "SELECT * FROM items "; EGetFields "items";
         ESql "UPDATE items SET name = %s WHERE id = %s" [VStr "washer"; VInt 1] ]).
Proof.
  destruct (@type_mismatch_aborts mem_db mem_store iter_added "items"
              (KSingle (KScalar "id")) no_kwargs items_world items_world
              items_rows items_db [ ([VInt 1], [0]); ([VInt 2], [1]) ]
              [ {| m_key := ["id"]; m_current := 0; m_upsert := 0 |} ]
              {| m_key := ["id"]; m_current := 1; m_upsert := 1 |}
              [] ["id"; "name"; "qty"] items_db
              [ ESql "UPDATE items SET name = %s WHERE id = %s"
                     [VStr "washer"; VInt 1] ]
              [("id", VInt 2); ("name", VStr "bolt"); ("qty", VStr "5")]
              [("id", VInt 2); ("qty", VInt 5)]
              [("id", VInt 2); ("qty", VInt 5)]
              "qty"
              eq_refl eq_refl eq_refl eq_refl eq_refl eq_refl eq_refl eq_refl)
    as (f0 & c & n & Hf & Hc & Hn & _ & _ & _ & _ & Hrun).
  - simpl. intros x [<-|[<-|[<-|[]]]]; discriminate.
  - simpl. auto.
  - reflexivity.
  - exists f0, c, n.
    simpl in Hf. inversion Hf; subst f0.
    simpl in Hc. inversion Hc; subst c.
    simpl in Hn. inversion Hn; subst n.
    split; [reflexivity|]. split; [reflexivity|]. split; [reflexivity|].
    exact Hrun.
Defined.

(** ** Statements of the update loop *)

Section SnapshotFacts.
Context {DB : Type} {store : Store DB}.

Lemma forM__event {A} (f : A -> M (DB := DB) unit) (e : event) l :
  forall (w w' : world) res t,
    forM_ f l w = (res, w', t) -> In e t ->
    exists a w0 res0 w0' t0,
      In a l /\ f a w0 = (res0, w0', t0) /\ In e t0.
Proof.
  induction l as [|a l IH]; simpl; intros w w' res t Hrun Hin.
  - unfold ret in Hrun. inversion Hrun; subst. contradiction.
  - unfold bind in Hrun.
    destruct (f a w) as [[[[]|e0] w1] t1] eqn:Ea.
    + destruct (forM_ f l w1) as [[r2 w2] t2] eqn:El.
      inversion Hrun; subst. apply in_app_or in Hin. destruct Hin as [Hin|Hin].
      * exists a, w, (Ok tt), w1, t1. auto.
      * destruct (IH _ _ _ _ El Hin) as (b & w0 & r0 & w0' & t0 & Hb & Hf & He).
        exists b, w0, r0, w0', t0. auto.
    + inversion Hrun; subst. exists a, w, (Raise e0), w', t. auto.
Qed.

(** Whatever the world, a statement of a match record is scoped by the
    values of the snapshot row and sets the change set computed against it. *)
Lemma update_one_events kw table current fields u (w w' : world (DB := DB)) res t :
  update_one kw table current fields u w = (res, w', t) ->
  forall q a,
    In (ESql q a) t \/ In (EPrintSql q a) t ->
    exists cur up tup sets sargs,
      nth_error (rows current) (m_current u) = Some cur /\
      diff_fields kw cur up fields = Ok (sets, sargs) /\
      to_tup cur (m_key u) = Ok tup /\
      q = update_query table sets (scope_where kw (m_key u) tup) /\
      a = sargs ++ tup.
Proof.
  intros Hrun q a Hin.
  destruct (nth_error (rows current) (m_current u)) as [cur|] eqn:Hcur.
  2:{ unfold update_one, bind, lift, list_item in Hrun. rewrite Hcur in Hrun.
      inversion Hrun; subst. simpl in Hin. tauto. }
  destruct (nth_error (w_upserts w) (m_upsert u)) as [r|] eqn:Hr.
  2:{ unfold update_one, bind, lift, get_upsert, list_item in Hrun.
      rewrite Hcur, Hr in Hrun. inversion Hrun; subst. simpl in Hin. tauto. }
  destruct (apply_defaults kw r) as [up|e] eqn:Hup.
  2:{ destruct (@set_defaults_raise DB kw (m_upsert u) w r e Hr Hup)
        as (w1 & Hd & _).
      unfold update_one, bind, lift, get_upsert, list_item in Hrun.
      rewrite Hcur, Hr, Hd in Hrun. inversion Hrun; subst. simpl in Hin. tauto. }
  rewrite (@update_one_run _ _ kw table current fields u w cur r up Hcur Hr Hup)
    in Hrun.
  destruct (diff_fields kw cur up fields) as [[sets sargs]|e] eqn:Hdiff.
  2:{ inversion Hrun; subst. simpl in Hin. tauto. }
  simpl in Hrun. destruct sets as [|s sets].
  { inversion Hrun; subst. simpl in Hin. tauto. }
  destruct (to_tup cur (m_key u)) as [tup|e] eqn:Htup.
  2:{ inversion Hrun; subst. simpl in Hin. tauto. }
  exists cur, up, tup, (s :: sets), sargs.
  assert (Hq : q = update_query table (s :: sets) (scope_where kw (m_key u) tup)
               /\ a = sargs ++ tup).
  { unfold send_update, try_unique in Hrun. destruct (kw_dryrun kw).
    - unfold emit in Hrun. inversion Hrun; subst. simpl in Hin.
      destruct Hin as [[E|[]]|[E|[]]]; inversion E; auto.
    - unfold call in Hrun.
      destruct (db_sql _ _ _) as [[|e] db'].
      + inversion Hrun; subst. simpl in Hin.
        destruct Hin as [[E|[]]|[E|[]]]; inversion E; auto.
      + destruct e; inversion Hrun; subst; simpl in Hin;
          repeat match goal with
                 | H : _ \/ _ |- _ => destruct H
                 | H : False |- _ => destruct H
                 | H : _ = ESql _ _ |- _ => inversion H; clear H
                 | H : _ = EPrintSql _ _ |- _ => inversion H; clear H
                 end; auto. }
  destruct Hq. auto.
Qed.

(** C8, as amended. Executed updates are not written into the snapshot:
    every UPDATE statement the loop executes or prints, whichever updates
    were executed before it, sets the change set computed against the current
    row as the snapshot was loaded and is scoped by that row's values. *)
Theorem updates_read_loaded_snapshot kw table recs current
    (w w' : world (DB := DB)) fs db2 res t :
  db_get_fields table (w_db w) = (Ok fs, db2) ->
  do_updates kw table recs current w = (res, w', t) ->
  forall q a,
    In (ESql q a) t \/ In (EPrintSql q a) t ->
    exists u cur up tup sets sargs,
      In u recs /\
      nth_error (rows current) (m_current u) = Some cur /\
      diff_fields kw cur up
                  (filter (fun x => negb (mem_str x (kw_ignore kw))) fs)
      = Ok (sets, sargs) /\
      to_tup cur (m_key u) = Ok tup /\
      q = update_query table sets (scope_where kw (m_key u) tup) /\
      a = sargs ++ tup.
Proof.
  intros Hfs Hrun q a Hin.
  rewrite (@do_updates_run _ _ kw table recs current w fs db2 Hfs) in Hrun.
  destruct (forM_ _ _ _) as [[r1 w1] t1] eqn:Hloop.
  inversion Hrun; subst. clear Hrun.
  assert (He : exists e, (e = ESql q a \/ e = EPrintSql q a) /\ In e t1).
  { destruct Hin as [[E|Hin]|[E|Hin]]; try discriminate E; eauto. }
  destruct He as (e & He & Hin1).
  destruct (forM__event _ _ _ _ Hloop Hin1)
    as (u & w0 & r0 & w0' & t0 & Hu & Hone & Hin0).
  destruct (update_one_events _ _ _ _ _ _ Hone q a)
    as (cur & up & tup & sets & sargs & H1 & H2 & H3 & H4 & H5).
  { destruct He as [-> | ->]; auto. }
  exists u, cur, up, tup, sets, sargs. tauto.
Qed.
End SnapshotFacts.

Lemma updates_read_loaded_snapshot_witness :
  do_updates no_kwargs "accounts" accounts_records accounts_snapshot accounts_world
  = (Ok tt, accounts_world,
     [ EGetFields "accounts";
       ESql "UPDATE accounts SET id = %s WHERE email = %s" [VInt 2; VStr "x"];
       ESql "UPDATE accounts SET email = %s WHERE id = %s" [VStr "z"; VInt 1] ])
  /\ exists u cur up tup sets sargs,
      In u accounts_records /\
      nth_error (rows accounts_snapshot) (m_current u) = Some cur /\
      diff_fields no_kwargs cur up ["id"; "email"] = Ok (sets, sargs) /\
      to_tup cur (m_key u) = Ok tup /\
      "UPDATE accounts SET email = %s WHERE id = %s"
      = update_query "accounts" sets (scope_where no_kwargs (m_key u) tup) /\
      [VStr "z"; VInt 1] = sargs ++ tup.
Proof.
  split; [reflexivity|].
  exact (@updates_read_loaded_snapshot mem_db mem_store no_kwargs "accounts"
           accounts_records accounts_snapshot accounts_world accounts_world
           ["id"; "email"] accounts_db (Ok tt) _ eq_refl eq_refl
           "UPDATE accounts SET email = %s WHERE id = %s" [VStr "z"; VInt 1]
           (or_introl (or_intror (or_intror (or_introl eq_refl))))).
Defined.

(** The claim as stated fails: the first update is executed and sets [id]
    to 2 on the only current row, yet the statement of the next record for
    that row is still scoped by [id = 1] and leaves [id] out of its change
    set; had the applied value been written into the row, the statement would
    be the one of the second equation. *)
Lemma snapshot_write_back_counterexample :
  upsert iter_added "accounts" accounts_keys no_kwargs accounts_world
  = (Ok RTrue, accounts_world,
     [ EGet "SELECT * FROM accounts "; EGetFields "accounts";
       ESql "UPDATE accounts SET id = %s WHERE email = %s" [VInt 2; VStr "x"];
       ESql "UPDATE accounts SET email = %s WHERE id = %s" [VStr "z"; VInt 1] ])
  /\ update_one no_kwargs "accounts" accounts_written_back ["id"; "email"]
                {| m_key := ["id"]; m_current := 0; m_upsert := 1 |} accounts_world
     = (Ok tt, accounts_world,
        [ ESql "UPDATE accounts SET id = %s, email = %s WHERE id = %s"
               [VInt 1; VStr "z"; VInt 2] ]).
Proof.
  split; reflexivity.
Qed.

(** ** Runs that change nothing *)

Lemma unmatched_of_all matched n :
  (forall i, i < n -> In i matched) -> unmatched_of matched n = [].
Proof.
  intros H. unfold unmatched_of.
  assert (G : forall l, (forall i, In i l -> In i matched) ->
                        filter (fun i => negb (mem_nat i matched)) l = []).
  { induction l as [|x l IH]; simpl; intros Hl; auto.
    assert (E : mem_nat x matched = true).
    { unfold mem_nat. apply existsb_exists. exists x. split; auto.
      apply Nat.eqb_refl. }
    rewrite E. simpl. auto. }
  apply G. intros i Hi. apply in_seq in Hi. apply H. lia.
Qed.

Lemma iter_added_order : set_order iter_added.
Proof.
  intros l _. apply Permutation_refl.
Qed.


(** ** One unmatched desired row of the insert loop *)

Section InsertFacts.
Context {DB : Type} {store : Store DB}.

Lemma insert_one_run kw table i (w : world (DB := DB)) r r' :
  nth_error (w_upserts w) i = Some r ->
  apply_defaults kw r = Ok r' ->
  insert_one kw table i w
  = match kw_before_insert kw with
    | Some before =>
        match resolve_args r' (h_args before) with
        | Raise e => (Raise e, with_upsert w i r', [])
        | Ok args =>
            if kw_dryrun kw then send_insert kw table r' (with_upsert w i r')
            else
              match h_func before args with
              | Raise e => (Raise e, with_upsert w i r', [EHook args])
              | Ok _ =>
                  match send_insert kw table r' (with_upsert w i r') with
                  | (res, w2, t) => (res, w2, EHook args :: t)
                  end
              end
        end
    | None => send_insert kw table r' (with_upsert w i r')
    end.
Proof.
  intros Hr Hup.
  assert (Hr' : nth_error (w_upserts (with_upsert w i r')) i = Some r').
  { simpl. eapply nth_error_list_set; eauto. }
  unfold insert_one, bind, get_upsert, list_item.
  rewrite Hr, (@set_defaults_run DB kw i w r r' Hr Hup), Hr'.
  destruct (kw_before_insert kw) as [before|].
  - unfold lift. destruct (resolve_args r' (h_args before)) as [args|e]; auto.
    destruct (kw_dryrun kw).
    + unfold ret.
      destruct (send_insert _ _ _ _) as [[res w2] t]. reflexivity.
    + unfold call_hook. destruct (h_func before args) as [[]|e]; auto.
      destruct (send_insert _ _ _ _) as [[res w2] t]. reflexivity.
  - unfold ret. destruct (send_insert _ _ _ _) as [[res w2] t]. reflexivity.
Qed.

(** Every hook call of the insert loop happens outside dry runs. *)
Lemma insert_one_hook kw table i (w w' : world (DB := DB)) res t args :
  insert_one kw table i w = (res, w', t) -> In (EHook args) t ->
  kw_dryrun kw = false.
Proof.
  intros Hrun Hin.
  destruct (nth_error (w_upserts w) i) as [r|] eqn:Hr.
  2:{ unfold insert_one, bind, get_upsert, list_item in Hrun.
      rewrite Hr in Hrun. inversion Hrun; subst. contradiction. }
  destruct (apply_defaults kw r) as [r'|e] eqn:Hup.
  2:{ destruct (@set_defaults_raise DB kw i w r e Hr Hup) as (w1 & Hd & _).
      unfold insert_one, bind, get_upsert, list_item in Hrun.
      rewrite Hr, Hd in Hrun. inversion Hrun; subst. contradiction. }
  rewrite (insert_one_run kw table i w Hr Hup) in Hrun.
  destruct (kw_dryrun kw) eqn:Hdry; auto. exfalso.
  assert (G : forall (w0 w1 : world (DB := DB)) r0 t0,
             send_insert kw table r' w0 = (r0, w1, t0) -> ~ In (EHook args) t0).
  { intros w0 w1 r0 t0. unfold send_insert, try_unique. rewrite Hdry.
    unfold emit. intros E; inversion E; subst. simpl. intros [H|[]]. discriminate H. }
  destruct (kw_before_insert kw) as [before|].
  - destruct (resolve_args r' (h_args before)) as [a|e].
    + eapply G; eauto.
    + inversion Hrun; subst. contradiction.
  - eapply G; eauto.
Qed.
End InsertFacts.

(** ** The insert loop *)

Lemma Forall2_impl_In {A B} (R R' : A -> B -> Prop) l rs :
  Forall2 R l rs ->
  (forall a b, In a l -> R a b -> R' a b) ->
  Forall2 R' l rs.
Proof.
  induction 1 as [|a b l rs Hab Hrest IH]; intros Himp; constructor.
  - apply Himp; simpl; auto.
  - apply IH. intros a' b' Ha'. apply Himp. simpl. auto.
Qed.

Section InsertPhase.
Context {DB : Type} {store : Store DB}.

Lemma send_insert_live kw table r (w : world (DB := DB)) :
  kw_dryrun kw = false ->
  send_insert kw table r w
  = match db_insert r table (w_db w) with
    | (Ok _, db') =>
        (Ok tt, {| w_db := db'; w_upserts := w_upserts w |}, [EInsert r table])
    | (Raise (UniqueViolation msg), db') =>
        (Ok tt, {| w_db := db'; w_upserts := w_upserts w |},
         [EInsert r table; EPrintExn (UniqueViolation msg)])
    | (Raise e, db') =>
        (Raise e, {| w_db := db'; w_upserts := w_upserts w |}, [EInsert r table])
    end.
Proof.
  intros Hdry. unfold send_insert, try_unique, call. rewrite Hdry.
  destruct (db_insert r table (w_db w)) as [[[]|e] db']; auto.
  destruct e; auto.
Qed.

(** One row of an isolated insert loop: the hook call, if any, then the
    insert, then the print of its uniqueness violation, if any. *)
Lemma insert_one_isolated kw table i (w : world (DB := DB)) r r' :
  kw_dryrun kw = false ->
  insert_fails_by_uniqueness table ->
  nth_error (w_upserts w) i = Some r ->
  apply_defaults kw r = Ok r' ->
  hook_returns kw r' ->
  exists t,
    insert_one kw table i w
    = (Ok tt,
       {| w_db := snd (db_insert r' table (w_db w));
          w_upserts := list_set i r' (w_upserts w) |}, t)
    /\ filter (fun e => negb (is_hook_call e)) t
       = match fst (db_insert r' table (w_db w)) with
         | Raise (UniqueViolation msg) =>
             [EInsert r' table; EPrintExn (UniqueViolation msg)]
         | _ => [EInsert r' table]
         end.
Proof.
  intros Hdry Hstore Hr Hup Hhook.
  rewrite (insert_one_run kw table i w Hr Hup).
  assert (Hsend : exists t,
             send_insert kw table r' (with_upsert w i r')
             = (Ok tt,
                {| w_db := snd (db_insert r' table (w_db w));
                   w_upserts := list_set i r' (w_upserts w) |}, t)
             /\ filter (fun e => negb (is_hook_call e)) t
                = match fst (db_insert r' table (w_db w)) with
                  | Raise (UniqueViolation msg) =>
                      [EInsert r' table; EPrintExn (UniqueViolation msg)]
                  | _ => [EInsert r' table]
                  end).
  { rewrite (send_insert_live kw table r' (with_upsert w i r') Hdry).
    cbn [w_db w_upserts with_upsert].
    destruct (Hstore r' (w_db w)) as [E|[msg E]];
      destruct (db_insert r' table (w_db w)) as [res db']; simpl in E; subst res;
      simpl; eauto. }
  destruct Hsend as (t & Hsend & Hfilter).
  unfold hook_returns in Hhook. destruct (kw_before_insert kw) as [before|].
  - destruct Hhook as (args & -> & ->). rewrite Hdry, Hsend.
    exists (EHook args :: t). split; auto.
  - exists t. auto.
Qed.

Lemma inserts_isolated_loop kw table :
  kw_dryrun kw = false ->
  insert_fails_by_uniqueness table ->
  forall l, NoDup l ->
  forall w : world (DB := DB),
    (forall i, In i l ->
               exists r', defaulted kw (w_upserts w) i r' /\ hook_returns kw r') ->
    exists w2 t2 rs,
      forM_ (insert_one kw table) l w = (Ok tt, w2, t2)
      /\ Forall2 (defaulted kw (w_upserts w)) l rs
      /\ Forall2 (fun i r' => nth_error (w_upserts w2) i = Some r') l rs
      /\ filter (fun e => negb (is_hook_call e)) t2 = insert_log table rs (w_db w)
      /\ (forall j, ~ In j l -> nth_error (w_upserts w2) j = nth_error (w_upserts w) j).
Proof.
  intros Hdry Hstore l Hnd. induction Hnd as [|i l Hi Hnd IH]; intros w Hrows.
  - exists w, [], []. simpl. unfold ret. repeat split; auto; constructor.
  - destruct (Hrows i) as (r' & (r & Hr & Hup) & Hhook); [simpl; auto|].
    destruct (@insert_one_isolated kw table i w r r' Hdry Hstore Hr Hup Hhook)
      as (t & Hone & Hfilter).
    set (w' := {| w_db := snd (db_insert r' table (w_db w));
                  w_upserts := list_set i r' (w_upserts w) |}) in *.
    assert (Hframe : forall j, In j l ->
              nth_error (w_upserts w') j = nth_error (w_upserts w) j).
    { intros j Hj. simpl. apply nth_error_list_set_other. intros ->. auto. }
    destruct (IH w') as (w2 & t2 & rs & Hloop & Hdef & Hfin & Hlog & Hkeep).
    { intros j Hj. destruct (Hrows j) as (rj' & (rj & Hrj & Hupj) & Hhj);
        [simpl; auto|].
      exists rj'. split; auto. exists rj. split; auto.
      now rewrite Hframe. }
    exists w2, (t ++ t2), (r' :: rs).
    split; [|split; [|split; [|split]]].
    + simpl. unfold bind. now rewrite Hone, Hloop.
    + constructor.
      * exists r. auto.
      * apply Forall2_impl_In with (1 := Hdef).
        intros j rj Hj (r0 & H0 & H1). exists r0. split; auto.
        now rewrite <- Hframe.
    + constructor; auto.
      rewrite Hkeep; auto. simpl. eapply nth_error_list_set; eauto.
    + rewrite filter_app, Hfilter, Hlog. simpl.
      destruct (db_insert r' table (w_db w)) as [res db']. simpl.
      destruct res as [[]|e]; auto. destruct e; auto.
    + intros j Hj. rewrite Hkeep.
      * simpl. apply nth_error_list_set_other. intros ->. apply Hj. simpl. auto.
      * intros Hjl. apply Hj. simpl. auto.
Qed.

Lemma collect_upserts_run l rs (w : world (DB := DB)) :
  Forall2 (fun i r' => nth_error (w_upserts w) i = Some r') l rs ->
  collect_upserts l w = (Ok rs, w, []).
Proof.
  induction 1 as [|i r' l rs Hi Hrest IH]; simpl.
  - reflexivity.
  - unfold bind, get_upsert, list_item. rewrite Hi.
    unfold bind in IH. rewrite IH. reflexivity.
Qed.

Lemma forM__upserts {A} (f : A -> M (DB := DB) unit) l :
  (forall a (w w' : world) res t, f a w = (res, w', t) -> w_upserts w' = w_upserts w) ->
  forall (w w' : world) res t,
    forM_ f l w = (res, w', t) -> w_upserts w' = w_upserts w.
Proof.
  intros Hf. induction l as [|a l IH]; simpl; intros w w' res t Hrun.
  - unfold ret in Hrun. now inversion Hrun.
  - unfold bind in Hrun. destruct (f a w) as [[[[]|e] w1] t1] eqn:Ea.
    + destruct (forM_ f l w1) as [[r2 w2] t2] eqn:El. inversion Hrun; subst.
      rewrite (IH _ _ _ _ El). eapply Hf; eauto.
    + inversion Hrun; subst. eapply Hf; eauto.
Qed.

(** The delete phase writes into no desired row. *)
Lemma do_deletes_upserts iter_set kw table keys current unmatched
    (w w' : world (DB := DB)) res t :
  do_deletes iter_set kw table keys current unmatched w = (res, w', t) ->
  w_upserts w' = w_upserts w.
Proof.
  unfold do_deletes. apply forM__upserts.
  intros i. apply forM__upserts.
  intros k w0 w0' res0 t0. unfold delete_one, bind, lift.
  destruct (list_item (rows current) i) as [r|e]; [|now inversion 1].
  destruct (to_tup r k) as [tup|e]; [|now inversion 1].
  destruct (foldlM _ _ _) as [wa|e]; [|now inversion 1].
  destruct (kw_dryrun kw).
  - unfold emit. now inversion 1.
  - unfold call. destruct (db_sql _ _ _) as [r0 db']. now inversion 1.
Qed.
End InsertPhase.

Lemma NoDup_unmatched_of matched n : NoDup (unmatched_of matched n).
Proof.
  unfold unmatched_of. apply NoDup_filter, seq_NoDup.
Qed.

Lemma mem_insert_fails_by_uniqueness table :
  insert_fails_by_uniqueness (store := mem_store) table.
Proof.
  intros r db. simpl. unfold mem_insert.
  destruct (find _ _); simpl; eauto.
Qed.

Section Isolation.
Context {DB : Type} {store : Store DB}.

(** C1, as amended. Partial failure isolation for inserts: in a live run
    that inserts, over a store whose inserts fail by uniqueness violations
    only, with defaults and hook that return and a delete phase that returns,
    every unmatched desired row is passed to [insert], each violation is
    caught and printed, and the call returns: the success marker, or the
    unmatched desired rows when [get_unmatched] is set. *)
Theorem insert_violations_isolated (iter_set : list nat -> list nat) table karg kw
    (w w1 : world (DB := DB)) rws db1 d recs t1 :
  let keys := parse_keys karg in
  let current := {| rows := rws; tups := d |} in
  let unmatched := get_unmatched recs current (w_upserts w) in
  set_order iter_set ->
  db_get (select_query table kw) (w_db w) = (Ok rws, db1) ->
  build_index (kw_keymaps kw) keys rws = Ok d ->
  get_to_update current (w_upserts w) keys (kw_nonullkeys kw) = Ok recs ->
  do_updates kw table recs current {| w_db := db1; w_upserts := w_upserts w |}
  = (Ok tt, w1, t1) ->
  kw_noinsert kw = false ->
  kw_dryrun kw = false ->
  insert_fails_by_uniqueness table ->
  (forall i, In i (u_upserts unmatched) ->
             exists r', defaulted kw (w_upserts w1) i r' /\ hook_returns kw r') ->
  (kw_delete kw = true ->
   forall w3, exists w4 t4,
     do_deletes iter_set kw table keys current unmatched w3 = (Ok tt, w4, t4)) ->
  exists w4 t_ins t_del rs,
    upsert iter_set table karg kw w
    = (Ok (if kw_get_unmatched kw then RRows rs else RTrue), w4,
       EGet (select_query table kw) :: t1 ++ t_ins ++ t_del)
    /\ Forall2 (defaulted kw (w_upserts w1)) (iter_set (u_upserts unmatched)) rs
    /\ filter (fun e => negb (is_hook_call e)) t_ins
       = insert_log table rs (w_db w1)
    /\ (kw_delete kw = false -> t_del = []).
Proof.
  intros keys current unmatched Hord Hget Hidx Hrecs Hupd Hnoins Hdry Hstore
         Hrows Hdel.
  subst keys. set (cur_ := current) in *. subst current.
  set (un := unmatched) in *. subst unmatched.
  assert (Hperm : Permutation (u_upserts un) (iter_set (u_upserts un))).
  { apply Hord. apply NoDup_unmatched_of. }
  assert (Hnd : NoDup (iter_set (u_upserts un))).
  { eapply Permutation_NoDup; eauto. apply NoDup_unmatched_of. }
  destruct (@inserts_isolated_loop DB store kw table Hdry Hstore _ Hnd w1)
    as (w2 & t2 & rs & Hloop & Hdef & Hfin & Hlog & _).
  { intros i Hi. apply Hrows.
    apply Permutation_in with (l := iter_set (u_upserts un)); auto.
    now apply Permutation_sym. }
  assert (Hdel' : exists w4 t4,
             (if kw_delete kw
              then do_deletes iter_set kw table (parse_keys karg) cur_ un
              else ret tt) w2 = (Ok tt, w4, t4)
             /\ w_upserts w4 = w_upserts w2
             /\ (kw_delete kw = false -> t4 = [])).
  { destruct (kw_delete kw) eqn:Ed.
    - destruct (Hdel eq_refl w2) as (w4 & t4 & E). exists w4, t4.
      repeat split; auto; try discriminate.
      eapply do_deletes_upserts; eauto.
    - exists w2, []. unfold ret. auto. }
  destruct Hdel' as (w4 & t4 & Hd & Hups & Ht4).
  exists w4, t2, t4, rs. repeat split; auto.
  rewrite (@upsert_run _ _ iter_set table karg kw w rws db1 d recs Hget Hidx Hrecs).
  fold cur_. fold un. unfold bind at 1. rewrite Hupd.
  unfold after_updates. rewrite Hnoins.
  unfold bind at 1. unfold do_inserts. rewrite Hloop.
  unfold bind at 1. rewrite Hd.
  destruct (kw_get_unmatched kw).
  - unfold bind.
    rewrite (@collect_upserts_run DB (iter_set (u_upserts un)) rs w4).
    + unfold ret. now rewrite !app_nil_r.
    + apply Forall2_impl_In with (1 := Hfin). intros i r' _ H. now rewrite Hups.
  - unfold ret. now rewrite !app_nil_r.
Qed.
End Isolation.

Lemma insert_violations_isolated_witness :
  upsert iter_added "members" (KSingle (KScalar "email")) no_kwargs members_world
  = (Ok RTrue, members_world_after, members_trace)
  /\
  exists w4 t_ins t_del rs,
    upsert iter_added "members" (KSingle (KScalar "email")) no_kwargs members_world
    = (Ok RTrue, w4,
       EGet "SELECT * FROM members " :: [EGetFields "members"] ++ t_ins ++ t_del)
    /\ Forall2 (defaulted no_kwargs members_upserts) [0; 1; 2] rs
    /\ filter (fun e => negb (is_hook_call e)) t_ins
       = insert_log "members" rs members_db
    /\ (false = false -> t_del = []).
Proof.
  split; [reflexivity|].
  refine (@insert_violations_isolated mem_db mem_store iter_added "members"
            (KSingle (KScalar "email")) no_kwargs members_world
            {| w_db := members_db; w_upserts := members_upserts |}
            (md_rows members_db) members_db [ ([VStr "b"], [0]) ] []
            [EGetFields "members"]
            iter_added_order eq_refl eq_refl eq_refl eq_refl eq_refl eq_refl
            (@mem_insert_fails_by_uniqueness "members") _ _).
  - simpl. intros i [<-|[<-|[<-|[]]]];
      (eexists; split; [eexists; split; reflexivity | exact I]).
  - discriminate.
Defined.

(** The claim as stated fails: when [get_unmatched] is set the call returns
    the unmatched desired rows, not the success marker, also when an insert
    raised a uniqueness violation. *)
Lemma insert_violations_isolated_counterexample :
  upsert iter_added "members" (KSingle (KScalar "email")) return_unmatched
         members_world
  = (Ok (RRows members_upserts), members_world_after, members_trace)
  /\ RRows members_upserts <> RTrue.
Proof.
  split; [reflexivity | discriminate].
Qed.

Section HookFacts.
Context {DB : Type} {store : Store DB}.

(** C7, as amended. In a dry run the pre-insert hook is never called, for
    any unmatched desired row; its arguments are resolved all the same, so a
    back-reference to a field the row lacks raises there too, before the row
    is printed; outside a dry run the hook is called on the resolved
    arguments before the insert. *)
Theorem dry_run_skips_hook_call (iter_set : list nat -> list nat) kw table :
  (kw_dryrun kw = true ->
   forall unmatched (w w' : world (DB := DB)) res t args,
     do_inserts iter_set kw table unmatched w = (res, w', t) ->
     ~ In (EHook args) t)
  /\ (forall i (w : world (DB := DB)) r r' before e,
        kw_dryrun kw = true ->
        kw_before_insert kw = Some before ->
        nth_error (w_upserts w) i = Some r ->
        apply_defaults kw r = Ok r' ->
        resolve_args r' (h_args before) = Raise e ->
        insert_one kw table i w = (Raise e, with_upsert w i r', []))
  /\ (forall i (w : world (DB := DB)) r r' before args,
        kw_dryrun kw = false ->
        kw_before_insert kw = Some before ->
        nth_error (w_upserts w) i = Some r ->
        apply_defaults kw r = Ok r' ->
        resolve_args r' (h_args before) = Ok args ->
        h_func before args = Ok tt ->
        exists res w2 log,
          insert_one kw table i w
          = (res, w2, EHook args :: EInsert r' table :: log)).
Proof.
  split; [|split].
  - intros Hdry unmatched w w' res t args Hrun Hin.
    unfold do_inserts in Hrun.
    destruct (forM__event _ _ _ _ Hrun Hin)
      as (i & w0 & r0 & w0' & t0 & _ & Hone & Hin0).
    rewrite (insert_one_hook _ _ _ _ _ Hone Hin0) in Hdry. discriminate.
  - intros i w r r' before e Hdry Hb Hr Hup He.
    rewrite (insert_one_run kw table i w Hr Hup), Hb, He. reflexivity.
  - intros i w r r' before args Hdry Hb Hr Hup Ha Hf.
    rewrite (insert_one_run kw table i w Hr Hup), Hb, Ha, Hdry, Hf.
    rewrite (send_insert_live kw table r' (with_upsert w i r') Hdry).
    destruct (db_insert r' table (w_db (with_upsert w i r'))) as [[[]|e0] db'].
    + do 3 eexists. reflexivity.
    + destruct e0; do 3 eexists; reflexivity.
Qed.
End HookFacts.

Lemma dry_run_skips_hook_call_witness :
  insert_one (dry_run_with (Some sessions_hook)) "sessions" 0 sessions_world
  = (Raise (KeyError "token"), sessions_world, [])
  /\ ~ In (EHook [])
          (snd (do_inserts iter_added (dry_run_with (Some sessions_hook))
                           "sessions"
                           {| u_current := []; u_upserts := [0] |}
                           sessions_world)).
Proof.
  split.
  - exact (proj1 (proj2 (@dry_run_skips_hook_call mem_db mem_store iter_added
                           (dry_run_with (Some sessions_hook)) "sessions"))
                 0 sessions_world sessions_row sessions_row sessions_hook
                 (KeyError "token") eq_refl eq_refl eq_refl eq_refl eq_refl).
  - exact (proj1 (@dry_run_skips_hook_call mem_db mem_store iter_added
                    (dry_run_with (Some sessions_hook)) "sessions")
                 eq_refl {| u_current := []; u_upserts := [0] |}
                 sessions_world _ _ _ [] eq_refl).
Defined.

(** The claim as stated fails: in a dry run the hook's arguments are
    resolved, back-references included. With the hook declared the run raises
    the [KeyError] of the back-reference; without it the same run prints the
    row and returns. *)
Lemma dry_run_skips_hook_call_counterexample :
  kw_dryrun (dry_run_with (Some sessions_hook)) = true
  /\ upsert iter_added "sessions" (KSingle (KScalar "id"))
            (dry_run_with (Some sessions_hook)) sessions_world
     = (Raise (KeyError "token"), sessions_world,
        [EGet "SELECT * FROM sessions "; EGetFields "sessions"])
  /\ upsert iter_added "sessions" (KSingle (KScalar "id"))
            (dry_run_with None) sessions_world
     = (Ok RTrue, sessions_world,
        [EGet "SELECT * FROM sessions "; EGetFields "sessions";
         EPrintInsert sessions_row]).
Proof.
  repeat split.
Qed.

(** * Further properties of the engine *)

(** ** [to_tup] *)

Lemma to_tup_cases (r : row) (k : key) :
  (forall tup,
      to_tup r k = Ok tup <-> Forall2 (fun f v => row_get f r = Some v) k tup)
  /\ (forall e,
         to_tup r k = Raise e ->
         exists k1 f k2,
           k = k1 ++ f :: k2 /\ e = KeyError f /\ row_get f r = None /\
           forall x, In x k1 -> row_get x r <> None).
Proof.
  induction k as [|x k [IHok IHerr]]; simpl.
  - split.
    + intros tup. split.
      * intros E; inversion E; subst. constructor.
      * intros H; inversion H; subst. reflexivity.
    + intros e E. discriminate E.
  - unfold row_item. destruct (row_get x r) as [v|] eqn:Hx; simpl.
    + destruct (to_tup r k) as [t|e0] eqn:Ht; simpl.
      * split.
        -- intros tup. split.
           ++ intros E; inversion E; subst. constructor; auto. now apply IHok.
           ++ intros H; inversion H; subst.
              assert (l' = t).
              { match goal with H : Forall2 _ k l' |- _ =>
                  apply IHok in H; congruence end. }
              subst. congruence.
        -- intros e E. discriminate E.
      * split.
        -- intros tup. split; [discriminate|].
           intros H; inversion H; subst.
           match goal with H : Forall2 _ k l' |- _ =>
             apply IHok in H; discriminate H end.
        -- intros e E. inversion E; subst e.
           destruct (IHerr e0 eq_refl) as (k1 & f & k2 & -> & -> & Hf & Hk1).
           exists (x :: k1), f, k2. repeat split; auto.
           intros y [<-|Hy]; [congruence | auto].
    + split.
      * intros tup. split; [discriminate|].
        intros H; inversion H; subst. congruence.
      * intros e E. inversion E; subst e.
        exists [], x, k. repeat split; auto.
Qed.

(** [to_tup] returns exactly when the row carries every field of the key,
    with the values in key order; otherwise it raises [KeyError] on the
    first field the row lacks. *)
Theorem to_tup_exact (r : row) (k : key) :
  (forall tup,
      to_tup r k = Ok tup <-> Forall2 (fun f v => row_get f r = Some v) k tup)
  /\ (forall e,
         to_tup r k = Raise e ->
         exists k1 f k2,
           k = k1 ++ f :: k2 /\ e = KeyError f /\ row_get f r = None /\
           forall x, In x k1 -> row_get x r <> None).
Proof.
  exact (to_tup_cases r k).
Qed.

(** ** [get_unmatched] *)

Lemma mem_nat_In i l : mem_nat i l = true <-> In i l.
Proof.
  unfold mem_nat. rewrite existsb_exists. split.
  - intros (x & Hx & E). apply Nat.eqb_eq in E. now subst.
  - intros H. exists i. split; auto. apply Nat.eqb_refl.
Qed.

Lemma In_unmatched_of i matched n :
  In i (unmatched_of matched n) <-> i < n /\ ~ In i matched.
Proof.
  unfold unmatched_of. rewrite filter_In, in_seq, negb_true_iff.
  rewrite <- mem_nat_In. destruct (mem_nat i matched); intuition (try lia; congruence).
Qed.

(** The unmatched positions are the positions that no match record names:
    every position of the desired rows, and of the current rows, is either
    named by a record or unmatched, never both, and is listed once. *)
Theorem unmatched_partition to_update current upserts :
  (forall j,
      In j (u_upserts (get_unmatched to_update current upserts))
      <-> j < List.length upserts /\ ~ In j (map m_upsert to_update))
  /\ (forall i,
         In i (u_current (get_unmatched to_update current upserts))
         <-> i < List.length (rows current) /\ ~ In i (map m_current to_update))
  /\ NoDup (u_upserts (get_unmatched to_update current upserts))
  /\ NoDup (u_current (get_unmatched to_update current upserts)).
Proof.
  unfold get_unmatched. simpl.
  split; [|split; [|split]];
    auto using NoDup_unmatched_of; intros; apply In_unmatched_of.
Qed.

(** ** Loops that may raise, continued *)

Section FoldFacts2.
Variables (A S : Type) (f : S -> A -> result S).

Lemma foldlM_visits (l : list A) :
  forall s s', foldlM f l s = Ok s' ->
  forall a, In a l -> exists s1 s2, f s1 a = Ok s2.
Proof.
  induction l as [|x l IH]; simpl; intros s s' Hrun a Ha.
  - contradiction.
  - destruct (f s x) as [s1|e] eqn:E; simpl in Hrun; try discriminate.
    destruct Ha as [->|Ha]; eauto.
Qed.

Lemma foldlM_raise_inv (l : list A) :
  forall s e, foldlM f l s = Raise e ->
  exists a s1, In a l /\ f s1 a = Raise e.
Proof.
  induction l as [|x l IH]; simpl; intros s e Hrun.
  - discriminate.
  - destruct (f s x) as [s1|e0] eqn:E; simpl in Hrun.
    + destruct (IH _ _ Hrun) as (a & s2 & Ha & Hf). eauto.
    + inversion Hrun; subst. eauto.
Qed.
End FoldFacts2.

(** ** [get_to_update]: when it returns and what it raises *)

Lemma match_key_to_tup current nn j r acc k :
  (forall acc', match_key current nn j r acc k = Ok acc' ->
                exists tup, to_tup r k = Ok tup)
  /\ (forall e, match_key current nn j r acc k = Raise e -> to_tup r k = Raise e).
Proof.
  unfold match_key. destruct (to_tup r k) as [tup|e0]; simpl; split; eauto;
    try discriminate.
  - destruct (tups_get tup (tups current)); [destruct (nn && none_in tup)|];
      discriminate.
  - intros e E. inversion E. reflexivity.
Qed.

(** The matcher returns exactly when every desired row carries every field
    of every declared key; otherwise it raises the [KeyError] of a key field
    that a desired row lacks. It raises nothing else. *)
Theorem matcher_returns_iff current ups keys nn :
  (rows_have_keys ups keys
   <-> exists recs, get_to_update current ups keys nn = Ok recs)
  /\ (forall e,
         get_to_update current ups keys nn = Raise e ->
         exists r k f,
           In r ups /\ In k keys /\ In f k /\ row_get f r = None
           /\ e = KeyError f).
Proof.
  split; [split|].
  - apply get_to_update_total.
  - intros [recs Hrun] r k Hr Hk.
    apply In_nth_error in Hr. destruct Hr as [j Hj].
    apply In_enumerate in Hj.
    destruct (foldlM_visits _ _ _ Hrun _ Hj) as (s1 & s2 & Hkeys). simpl in Hkeys.
    destruct (foldlM_visits _ _ _ Hkeys _ Hk) as (s3 & s4 & Hstep).
    eapply match_key_to_tup; eauto.
  - intros e Hrun.
    destruct (foldlM_raise_inv _ _ _ Hrun) as ([j r] & s1 & Hjr & Hkeys).
    simpl in Hkeys.
    destruct (foldlM_raise_inv _ _ _ Hkeys) as (k & s2 & Hk & Hstep).
    apply match_key_to_tup in Hstep.
    destruct (proj2 (to_tup_cases r k) e Hstep) as (k1 & f & k2 & -> & -> & Hf & _).
    apply In_enumerate, nth_error_In in Hjr.
    exists r, (k1 ++ f :: k2), f. repeat split; auto.
    apply in_or_app. right. simpl. auto.
Qed.

(** ** What the index holds *)

Section DictFacts2.
Variables (K V : Type) (eqb : K -> K -> bool).

Lemma dget_In (k : K) (d : dict K V) v :
  dget eqb k d = Some v -> exists k', In (k', v) d /\ eqb k' k = true.
Proof.
  induction d as [|[k0 v0] d IH]; simpl; try discriminate.
  destruct (eqb k0 k) eqn:E.
  - intros H; inversion H; subst. eauto.
  - intros H. destruct (IH H) as (k' & Hin & Hk). eauto.
Qed.

Lemma In_dset (k : K) (v : V) (d : dict K V) k1 v1 :
  In (k1, v1) (dset eqb k v d) ->
  In (k1, v1) d \/ (v1 = v /\ (k1 = k \/ eqb k1 k = true)).
Proof.
  induction d as [|[k0 v0] d IH]; simpl.
  - intros [E|[]]. inversion E; subst. auto.
  - destruct (eqb k0 k) eqn:E0; simpl.
    + intros [E|H]; auto. inversion E; subst. auto.
    + intros [E|H]; auto. destruct (IH H) as [H1|H1]; auto.
Qed.
End DictFacts2.

Lemma alias_step_sound k tup field kv acc acc' t :
  alias_step k tup field acc kv = Ok acc' -> In t acc' ->
  In t acc \/
  exists v idx x,
    In v (snd kv) /\ index_of field k = Ok idx /\ nth_error tup idx = Some x /\
    py_eqb x (fst kv) = true /\ t = list_set idx v tup.
Proof.
  unfold alias_step. destruct (index_of field k) as [idx|]; simpl; try discriminate.
  destruct (nth_error tup idx) as [x|] eqn:Hx; try discriminate.
  destruct (py_eqb x (fst kv)) eqn:Hq; intros E; inversion E; subst; auto.
  intros H. apply in_app_or in H. destruct H as [H|H]; auto.
  apply in_map_iff in H. destruct H as (v & <- & Hv).
  right. exists v, idx, x. auto.
Qed.

(** Every tuple a row is registered under is its key-tuple or an alias
    tuple. *)
Lemma key_tups_sound keymaps r k tup ts :
  to_tup r k = Ok tup -> key_tups keymaps k tup = Ok ts ->
  forall t, In t ts -> tuple_of_row keymaps r k t.
Proof.
  intros Ht Hrun. unfold key_tups in Hrun.
  apply foldlM_inv
    with (P := fun acc => forall t, In t acc -> tuple_of_row keymaps r k t)
         (3 := Hrun).
  - intros s [field m] s' Hfm Hs Hm. simpl in Hm.
    apply foldlM_inv
      with (P := fun acc => forall t, In t acc -> tuple_of_row keymaps r k t)
           (3 := Hm); auto.
    intros s0 [a vs] s0' Ha Hs0 Hstep t Hin.
    destruct (@alias_step_sound k tup field (a, vs) s0 s0' t Hstep Hin)
      as [H|(v & idx & x & Hv & Hidx & Hx & Hq & ->)]; auto.
    exists tup. split; auto. right.
    exists field, m, a, vs, v, idx, x. simpl in *. tauto.
  - intros t [<-|[]]. exists tup. auto.
Qed.

(** Every position listed in the index belongs to a row that has, for some
    declared key, a key-tuple or alias tuple equal to the entry's tuple. *)
Lemma index_entries_sound keymaps keys rws d :
  build_index keymaps keys rws = Ok d ->
  forall t0 l i,
    In (t0, l) d -> In i l ->
    exists r k t',
      nth_error rws i = Some r /\ In k keys /\
      tuple_of_row keymaps r k t' /\ tup_eqb t' t0 = true.
Proof.
  unfold build_index. intros Hrun.
  set (P := fun d : tups_index =>
         forall t0 l i, In (t0, l) d -> In i l ->
           exists r k t',
             nth_error rws i = Some r /\ In k keys /\
             tuple_of_row keymaps r k t' /\ tup_eqb t' t0 = true).
  change (P d).
  apply foldlM_inv with (P := P) (3 := Hrun).
  - intros s [i r] s' Hir Hs Hkeys. simpl in Hkeys. apply In_enumerate in Hir.
    apply foldlM_inv with (P := P) (3 := Hkeys); auto.
    intros s0 k s0' Hk Hs0. unfold index_row.
    destruct (to_tup r k) as [tup|] eqn:Ht; simpl; try discriminate.
    destruct (key_tups keymaps k tup) as [ts|] eqn:Hts; simpl; try discriminate.
    intros E; inversion E; subst s0'. clear E.
    pose proof (@key_tups_sound keymaps r k tup ts Ht Hts) as Hsound.
    clear Hts. revert s0 Hs0.
    induction ts as [|t ts IH]; simpl; intros s0 Hs0; auto.
    apply IH.
    + intros t1 H1. apply Hsound. simpl. auto.
    + assert (Ht1 : tuple_of_row keymaps r k t) by (apply Hsound; simpl; auto).
      intros t0 l i0 Hin Hi0. unfold register in Hin.
      destruct (tups_get t s0) as [l0|] eqn:Hl0;
        apply In_dset in Hin;
        destruct Hin as [Hin|[-> Hk0]]; eauto.
      * apply in_app_or in Hi0. destruct Hi0 as [Hi0|[<-|[]]].
        -- unfold tups_get in Hl0.
           destruct (@dget_In _ _ tup_eqb t s0 l0 Hl0) as (k' & Hk' & Ek').
           destruct (Hs0 k' l0 i0 Hk' Hi0) as (r1 & k1 & t1 & H1 & H2 & H3 & H4).
           exists r1, k1, t1. repeat split; auto.
           apply tup_eqb_trans with k'; auto.
           apply tup_eqb_trans with t; auto.
           destruct Hk0 as [->|Hk0]; [apply tup_eqb_refl | now rewrite tup_eqb_sym].
        -- exists r, k, t. repeat split; auto.
           destruct Hk0 as [->|Hk0]; [apply tup_eqb_refl | now rewrite tup_eqb_sym].
      * destruct Hi0 as [<-|[]].
        exists r, k, t. repeat split; auto.
        destruct Hk0 as [->|Hk0]; [apply tup_eqb_refl | now rewrite tup_eqb_sym].
  - intros t0 l i [].
Qed.

Lemma indexed_sound keymaps keys rws d :
  build_index keymaps keys rws = Ok d ->
  forall t i,
    indexed i t d ->
    exists r k t',
      nth_error rws i = Some r /\ In k keys /\
      tuple_of_row keymaps r k t' /\ tup_eqb t' t = true.
Proof.
  intros Hrun t i (l & Hl & Hi). unfold tups_get in Hl.
  destruct (@dget_In _ _ tup_eqb t d l Hl) as (t0 & Hin & Et).
  destruct (@index_entries_sound keymaps keys rws d Hrun t0 l i Hin Hi)
    as (r & k & t' & H1 & H2 & H3 & H4).
  exists r, k, t'. repeat split; auto.
  apply tup_eqb_trans with t0; auto.
Qed.

(** Index soundness, the converse of alias symmetry: a lookup finds only
    positions of rows that have, for some declared key, a key-tuple or an
    alias tuple equal to the tuple looked up. The index does not separate the
    declared keys. *)
Theorem index_lookup_sound keymaps keys rws d :
  build_index keymaps keys rws = Ok d ->
  forall t i,
    indexed i t d ->
    exists r k t',
      nth_error rws i = Some r /\ In k keys /\
      tuple_of_row keymaps r k t' /\ tup_eqb t' t = true.
Proof.
  exact (@indexed_sound keymaps keys rws d).
Qed.

Lemma index_lookup_sound_witness :
  build_index states_keymaps states_keys states_rows = Ok states_index
  /\ indexed 0 [VStr "N.Y."; VInt 1] states_index
  /\ exists r k t',
      nth_error states_rows 0 = Some r /\ In k states_keys /\
      tuple_of_row states_keymaps r k t'
      /\ tup_eqb t' [VStr "N.Y."; VInt 1] = true.
Proof.
  split; [reflexivity|].
  assert (H : indexed 0 [VStr "N.Y."; VInt 1] states_index).
  { exists [0]. split; [reflexivity | simpl; auto]. }
  split; [exact H|].
  exact (@index_lookup_sound states_keymaps states_keys states_rows
           states_index eq_refl [VStr "N.Y."; VInt 1] 0 H).
Defined.

(** Match soundness: every match record names a declared key, a desired row
    that carries it and a current row in the snapshot; the desired row's
    key-tuple equals a key-tuple or alias tuple of that current row under
    some declared key. So the update loop never indexes out of range on the
    matcher's records. *)
Theorem match_records_sound keymaps keys rws d ups nn recs :
  build_index keymaps keys rws = Ok d ->
  get_to_update {| rows := rws; tups := d |} ups keys nn = Ok recs ->
  forall u, In u recs ->
    In (m_key u) keys /\
    exists up tup cur k' t',
      nth_error ups (m_upsert u) = Some up /\
      to_tup up (m_key u) = Ok tup /\
      nth_error rws (m_current u) = Some cur /\
      In k' keys /\ tuple_of_row keymaps cur k' t' /\ tup_eqb t' tup = true.
Proof.
  intros Hidx Hrun u Hu.
  destruct (get_to_update_sound _ _ _ _ Hrun u Hu)
    as (up & tup & l & H1 & H2 & H3 & H4 & H5 & _). simpl in H4.
  split; auto.
  destruct (@indexed_sound keymaps keys rws d Hidx tup (m_current u))
    as (cur & k' & t' & G1 & G2 & G3 & G4).
  { exists l. auto. }
  exists up, tup, cur, k', t'. tauto.
Qed.

Lemma match_records_sound_witness :
  In ["email"] null_keys /\
  exists up tup cur k' t',
    nth_error null_upserts 0 = Some up /\
    to_tup up ["email"] = Ok tup /\
    nth_error null_rows 0 = Some cur /\
    In k' null_keys /\ tuple_of_row [] cur k' t' /\ tup_eqb t' tup = true.
Proof.
  exact (@match_records_sound [] null_keys null_rows null_index null_upserts
           false
           [ {| m_key := ["id"]; m_current := 0; m_upsert := 0 |};
             {| m_key := ["email"]; m_current := 0; m_upsert := 0 |} ]
           eq_refl eq_refl
           {| m_key := ["email"]; m_current := 0; m_upsert := 0 |}
           (or_intror (or_introl eq_refl))).
Defined.

(** ** What an invocation may emit *)

Section EmitFacts.
Context {DB : Type} {store : Store DB}.
Variable P : event -> Prop.

Lemma emits_only_ret {A} (a : A) : emits_only (DB := DB) P (ret a).
Proof. intros w res w' t E. unfold ret in E. inversion E. constructor. Qed.

Lemma emits_only_lift {A} (r : result A) : emits_only (DB := DB) P (lift r).
Proof. intros w res w' t E. unfold lift in E. inversion E. constructor. Qed.

Lemma emits_only_emit e : P e -> emits_only (DB := DB) P (emit e).
Proof.
  intros He w res w' t E. unfold emit in E. inversion E. repeat constructor. auto.
Qed.

Lemma emits_only_call {A} e (op : DB -> result A * DB) :
  P e -> emits_only P (call e op).
Proof.
  intros He w res w' t E. unfold call in E. destruct (op (w_db w)).
  inversion E. repeat constructor. auto.
Qed.

Lemma emits_only_get_upsert j : emits_only (DB := DB) P (get_upsert j).
Proof. intros w res w' t E. unfold get_upsert in E. inversion E. constructor. Qed.

Lemma emits_only_get_upserts : emits_only (DB := DB) P get_upserts.
Proof. intros w res w' t E. unfold get_upserts in E. inversion E. constructor. Qed.

Lemma emits_only_set_upsert j r : emits_only (DB := DB) P (set_upsert j r).
Proof. intros w res w' t E. unfold set_upsert in E. inversion E. constructor. Qed.

Lemma emits_only_bind {A B} (m : M (DB := DB) A) (k : A -> M B) :
  emits_only P m -> (forall a, emits_only P (k a)) -> emits_only P (bind m k).
Proof.
  intros Hm Hk w res w' t E. unfold bind in E.
  destruct (m w) as [[[a|e] w1] t1] eqn:Em.
  - destruct (k a w1) as [[r2 w2] t2] eqn:Ek. inversion E; subst.
    apply Forall_app. split; [eapply Hm | eapply Hk]; eauto.
  - inversion E; subst. eapply Hm; eauto.
Qed.

Lemma emits_only_forM {A} (f : A -> M (DB := DB) unit) l :
  (forall a, In a l -> emits_only P (f a)) -> emits_only P (forM_ f l).
Proof.
  induction l as [|a l IH]; simpl; intros Hf.
  - apply emits_only_ret.
  - apply emits_only_bind; auto.
Qed.

Lemma emits_only_try_unique (m : M (DB := DB) unit) :
  (forall e, P (EPrintExn e)) -> emits_only P m -> emits_only P (try_unique m).
Proof.
  intros Hp Hm w res w' t E. unfold try_unique in E.
  destruct (m w) as [[[[]|e] w1] t1] eqn:Em.
  - inversion E; subst. eapply Hm; eauto.
  - destruct e; inversion E; subst; try solve [eapply Hm; eauto].
    apply Forall_app. split; [eapply Hm; eauto | repeat constructor; auto].
Qed.

Lemma emits_only_set_defaults kw j : emits_only (DB := DB) P (set_defaults kw j).
Proof.
  unfold set_defaults. apply emits_only_forM. intros fs _.
  apply emits_only_bind; [apply emits_only_get_upsert|]. intros r.
  apply emits_only_bind; [apply emits_only_lift|]. intros v.
  apply emits_only_set_upsert.
Qed.

Lemma emits_only_collect l : emits_only (DB := DB) P (collect_upserts l).
Proof.
  induction l as [|i l IH]; simpl.
  - apply emits_only_ret.
  - apply emits_only_bind; [apply emits_only_get_upsert|]. intros r.
    apply emits_only_bind; auto. intros rs. apply emits_only_ret.
Qed.

(** The events of an invocation, phase by phase. *)
Lemma upsert_emits_only (iter_set : list nat -> list nat) table karg kw :
  (forall q, P (EGet q)) ->
  (forall t, P (EGetFields t)) ->
  (forall e, P (EPrintExn e)) ->
  (forall sets wh a,
      P (if kw_dryrun kw then EPrintSql (update_query table sets wh) a
         else ESql (update_query table sets wh) a)) ->
  (kw_noinsert kw = false ->
   (forall r, P (if kw_dryrun kw then EPrintInsert r else EInsert r table))
   /\ (kw_dryrun kw = false -> forall a, P (EHook a))) ->
  (kw_delete kw = true ->
   forall wh a,
     P (if kw_dryrun kw then EPrintSql (delete_query table wh) a
        else ESql (delete_query table wh) a)) ->
  emits_only P (upsert iter_set table karg kw).
Proof.
  intros Hget Hfs Hexn Hupd Hins Hdel.
  unfold upsert.
  apply emits_only_bind.
  { unfold get_current.
    apply emits_only_bind; [apply emits_only_call; auto|]. intros rws.
    apply emits_only_bind; [apply emits_only_lift|]. intros d.
    apply emits_only_ret. }
  intros current.
  apply emits_only_bind; [apply emits_only_get_upserts|]. intros ups.
  apply emits_only_bind; [apply emits_only_lift|]. intros recs.
  apply emits_only_bind.
  { unfold do_updates.
    apply emits_only_bind; [apply emits_only_call; auto|]. intros fs.
    apply emits_only_forM. intros u _. unfold update_one.
    apply emits_only_bind; [apply emits_only_lift|]. intros cur.
    apply emits_only_bind; [apply emits_only_get_upsert|]. intros _.
    apply emits_only_bind; [apply emits_only_set_defaults|]. intros _.
    apply emits_only_bind; [apply emits_only_get_upsert|]. intros up.
    apply emits_only_bind; [apply emits_only_lift|]. intros sa.
    destruct (fst sa); [apply emits_only_ret|].
    apply emits_only_bind; [apply emits_only_lift|]. intros wa.
    unfold send_update. apply emits_only_try_unique; auto.
    specialize (Hupd (s :: l) (fst wa) (snd wa)).
    destruct (kw_dryrun kw); [apply emits_only_emit | apply emits_only_call]; auto. }
  intros _.
  apply emits_only_bind.
  { destruct (kw_noinsert kw) eqn:Hno; [apply emits_only_ret|].
    destruct (Hins eq_refl) as [Hrow Hhook].
    unfold do_inserts. apply emits_only_forM. intros i _. unfold insert_one.
    apply emits_only_bind; [apply emits_only_get_upsert|]. intros _.
    apply emits_only_bind; [apply emits_only_set_defaults|]. intros _.
    apply emits_only_bind; [apply emits_only_get_upsert|]. intros r.
    apply emits_only_bind.
    - destruct (kw_before_insert kw) as [before|]; [|apply emits_only_ret].
      apply emits_only_bind; [apply emits_only_lift|]. intros args.
      destruct (kw_dryrun kw) eqn:Hdry; [apply emits_only_ret|].
      intros w res w' t E. unfold call_hook in E. inversion E; subst.
      repeat constructor. auto.
    - intros _. unfold send_insert. apply emits_only_try_unique; auto.
      specialize (Hrow r).
      destruct (kw_dryrun kw); [apply emits_only_emit | apply emits_only_call]; auto. }
  intros _.
  apply emits_only_bind.
  { destruct (kw_delete kw) eqn:Hd; [|apply emits_only_ret].
    unfold do_deletes. apply emits_only_forM. intros i _.
    apply emits_only_forM. intros k _. unfold delete_one.
    apply emits_only_bind; [apply emits_only_lift|]. intros r.
    apply emits_only_bind; [apply emits_only_lift|]. intros _.
    apply emits_only_bind; [apply emits_only_lift|]. intros wa.
    specialize (Hdel eq_refl (fst wa) (snd wa)).
    destruct (kw_dryrun kw); [apply emits_only_emit | apply emits_only_call]; auto. }
  intros _.
  destruct (kw_get_unmatched kw); [|apply emits_only_ret].
  apply emits_only_bind; [apply emits_only_collect|]. intros rs.
  apply emits_only_ret.
Qed.
End EmitFacts.

(** A dry run never writes: whatever the inputs and however the run ends,
    it calls neither [db.sql], nor [db.insert], nor the pre-insert hook; the
    store is reached through [get] and [get_fields] only. *)
Theorem dry_run_never_writes {DB : Type} {store : Store DB}
    (iter_set : list nat -> list nat) table karg kw
    (w w' : world (DB := DB)) res t :
  kw_dryrun kw = true ->
  upsert iter_set table karg kw w = (res, w', t) ->
  forall e, In e t -> is_write e = false.
Proof.
  intros Hdry Hrun.
  apply Forall_forall.
  apply (@upsert_emits_only DB store (fun e => is_write e = false)
           iter_set table karg kw) with (w := w) (res := res) (w' := w');
    auto; rewrite Hdry; auto.
Qed.

Lemma dry_run_never_writes_witness :
  is_write (EPrintInsert sessions_row) = false.
Proof.
  exact (@dry_run_never_writes mem_db mem_store iter_added "sessions"
           (KSingle (KScalar "id")) (dry_run_with None) sessions_world
           sessions_world (Ok RTrue)
           [EGet "SELECT * FROM sessions "; EGetFields "sessions";
            EPrintInsert sessions_row]
           eq_refl eq_refl (EPrintInsert sessions_row)
           (or_intror (or_intror (or_introl eq_refl)))).
Defined.

(** With [noinsert] set the insert phase is skipped whole: the invocation
    neither inserts nor prints a row, nor calls the pre-insert hook. *)
Theorem noinsert_skips_insert_phase {DB : Type} {store : Store DB}
    (iter_set : list nat -> list nat) table karg kw
    (w w' : world (DB := DB)) res t :
  kw_noinsert kw = true ->
  upsert iter_set table karg kw w = (res, w', t) ->
  forall e, In e t -> is_insert_event e = false.
Proof.
  intros Hno Hrun.
  apply Forall_forall.
  apply (@upsert_emits_only DB store (fun e => is_insert_event e = false)
           iter_set table karg kw) with (w := w) (res := res) (w' := w');
    auto.
  - intros. destruct (kw_dryrun kw); auto.
  - rewrite Hno. discriminate.
  - intros. destruct (kw_dryrun kw); auto.
Qed.

Lemma update_query_prefix table sets wh :
  String.prefix "UPDATE " (update_query table sets wh) = true.
Proof.
  unfold update_query. simpl.
  destruct (table ++ _)%string; reflexivity.
Qed.

(** Without [delete] no row is deleted: every statement the invocation
    executes or prints is an UPDATE. *)
Theorem no_delete_without_flag {DB : Type} {store : Store DB}
    (iter_set : list nat -> list nat) table karg kw
    (w w' : world (DB := DB)) res t :
  kw_delete kw = false ->
  upsert iter_set table karg kw w = (res, w', t) ->
  forall e, In e t -> statement_is_update e.
Proof.
  intros Hdel Hrun.
  apply Forall_forall.
  apply (@upsert_emits_only DB store statement_is_update
           iter_set table karg kw) with (w := w) (res := res) (w' := w');
    simpl; auto.
  - intros. destruct (kw_dryrun kw); apply update_query_prefix.
  - intros _. split; intros; [destruct (kw_dryrun kw)|]; simpl; auto.
  - rewrite Hdel. discriminate.
Qed.

(** ** The change set *)

Lemma diff_step_changes kw cur up acc f acc' :
  diff_step kw cur up acc f = Ok acc' ->
  acc' = if field_changes kw cur up f
         then (fst acc ++ [(f ++ " = %s")%string], snd acc ++ [new_value up f])
         else acc.
Proof.
  unfold diff_step, field_changes, row_item, new_value.
  destruct (row_get f cur) as [c|]; simpl; try discriminate.
  destruct (kw_overwrite kw); simpl.
  - destruct (kw_ignorenull kw && is_none _); simpl.
    + intros E; now inversion E.
    + destruct (negb (is_none c) && _ && _); try discriminate.
      destruct (negb (py_eqb c _)); intros E; now inversion E.
  - destruct (row_mem f up); simpl.
    + destruct (kw_ignorenull kw && is_none _); simpl.
      * intros E; now inversion E.
      * destruct (negb (is_none c) && _ && _); try discriminate.
        destruct (negb (py_eqb c _)); intros E; now inversion E.
    + intros E; now inversion E.
Qed.

Lemma diff_fields_filter kw cur up fields sets args :
  diff_fields kw cur up fields = Ok (sets, args) ->
  sets = map (fun f => (f ++ " = %s")%string)
             (filter (field_changes kw cur up) fields)
  /\ args = map (new_value up) (filter (field_changes kw cur up) fields).
Proof.
  intros Hrun.
  assert (G : forall fs acc acc',
             foldlM (diff_step kw cur up) fs acc = Ok acc' ->
             acc' = (fst acc ++ map (fun f => (f ++ " = %s")%string)
                                    (filter (field_changes kw cur up) fs),
                     snd acc ++ map (new_value up)
                                    (filter (field_changes kw cur up) fs))).
  { induction fs as [|f fs IH]; simpl; intros acc acc' E.
    - inversion E; subst. rewrite !app_nil_r. now destruct acc'.
    - destruct (diff_step kw cur up acc f) as [acc1|] eqn:E1; simpl in E;
        try discriminate.
      apply diff_step_changes in E1. rewrite (IH _ _ E). subst acc1.
      destruct (field_changes kw cur up f); simpl; auto.
      now rewrite <- !app_assoc. }
  apply G in Hrun. simpl in Hrun. inversion Hrun; subst. auto.
Qed.

(** When the field loop returns, the change set is exactly the fields, in
    the order of the table, that are taken from the desired row and whose
    value differs from the current one, each with its new value: there are as
    many placeholders as arguments, no field the desired row lacks is set
    unless [overwrite] is on, and no [None] is set under [ignorenull]. *)
Theorem change_set_exact kw cur up fields sets args :
  diff_fields kw cur up fields = Ok (sets, args) ->
  sets = map (fun f => (f ++ " = %s")%string)
             (filter (field_changes kw cur up) fields)
  /\ args = map (new_value up) (filter (field_changes kw cur up) fields)
  /\ List.length sets = List.length args
  /\ (kw_overwrite kw = false ->
      forall f, In f (filter (field_changes kw cur up) fields) ->
                row_mem f up = true)
  /\ (kw_ignorenull kw = true -> ~ In VNone args).
Proof.
  intros Hrun. destruct (diff_fields_filter _ _ _ _ Hrun) as [-> ->].
  split; [reflexivity|]. split; [reflexivity|]. split.
  - now rewrite !length_map.
  - split.
    + intros Ho f Hf. apply filter_In in Hf. destruct Hf as [_ Hf].
      unfold field_changes in Hf. rewrite Ho in Hf. simpl in Hf.
      destruct (row_mem f up); auto.
    + intros Hn Hin. apply in_map_iff in Hin. destruct Hin as (f & Hv & Hf).
      apply filter_In in Hf. destruct Hf as [_ Hf].
      unfold field_changes in Hf. rewrite Hn, Hv in Hf. simpl in Hf.
      now rewrite andb_false_r in Hf.
Qed.

Lemma change_set_exact_witness :
  ["name = %s"] = map (fun f => (f ++ " = %s")%string)
                      (filter (field_changes no_kwargs
                                 [("id", VInt 1); ("name", VStr "a"); ("email", VNone)]
                                 [("id", VInt 1); ("name", VStr "a2")])
                              ["id"; "name"; "email"])
  /\ [VStr "a2"] = map (new_value [("id", VInt 1); ("name", VStr "a2")])
                       (filter (field_changes no_kwargs
                                  [("id", VInt 1); ("name", VStr "a"); ("email", VNone)]
                                  [("id", VInt 1); ("name", VStr "a2")])
                               ["id"; "name"; "email"])
  /\ List.length ["name = %s"] = List.length [VStr "a2"]
  /\ (false = false ->
      forall f, In f (filter (field_changes no_kwargs
                                [("id", VInt 1); ("name", VStr "a"); ("email", VNone)]
                                [("id", VInt 1); ("name", VStr "a2")])
                             ["id"; "name"; "email"]) ->
                row_mem f [("id", VInt 1); ("name", VStr "a2")] = true)
  /\ (false = true -> ~ In VNone [VStr "a2"]).
Proof.
  exact (@change_set_exact no_kwargs
           [("id", VInt 1); ("name", VStr "a"); ("email", VNone)]
           [("id", VInt 1); ("name", VStr "a2")]
           ["id"; "name"; "email"] ["name = %s"] [VStr "a2"] eq_refl).
Defined.

(** ** Uniqueness violations of updates *)

(** A uniqueness violation raised by the UPDATE of a match record is
    printed and the loop goes on with the next record; any other exception of
    [db.sql] ends the loop and propagates. *)
Theorem update_violation_isolated {DB : Type} {store : Store DB}
    kw table current fields u rest (w : world (DB := DB))
    cur r up sets args tup e db' :
  nth_error (rows current) (m_current u) = Some cur ->
  nth_error (w_upserts w) (m_upsert u) = Some r ->
  apply_defaults kw r = Ok up ->
  diff_fields kw cur up fields = Ok (sets, args) ->
  sets <> [] ->
  to_tup cur (m_key u) = Ok tup ->
  kw_dryrun kw = false ->
  db_sql (update_query table sets (scope_where kw (m_key u) tup)) (args ++ tup)
         (w_db w) = (Raise e, db') ->
  forM_ (update_one kw table current fields) (u :: rest) w
  = match e with
    | UniqueViolation _ =>
        match forM_ (update_one kw table current fields) rest
                    {| w_db := db';
                       w_upserts := list_set (m_upsert u) up (w_upserts w) |} with
        | (res, w2, t) =>
            (res, w2,
             ESql (update_query table sets (scope_where kw (m_key u) tup))
                  (args ++ tup)
               :: EPrintExn e :: t)
        end
    | _ =>
        (Raise e,
         {| w_db := db'; w_upserts := list_set (m_upsert u) up (w_upserts w) |},
         [ESql (update_query table sets (scope_where kw (m_key u) tup))
               (args ++ tup)])
    end.
Proof.
  intros Hcur Hr Hup Hdiff Hsets Htup Hdry Hsql.
  simpl. unfold bind.
  rewrite (@update_one_run _ _ kw table current fields u w cur r up Hcur Hr Hup).
  rewrite Hdiff. simpl. destruct sets as [|s sets]; [congruence|].
  rewrite Htup. unfold send_update, try_unique, call. rewrite Hdry.
  cbn [w_db w_upserts with_upsert]. rewrite Hsql.
  destruct e; reflexivity.
Qed.

(** ** The delete phase *)

Section DeleteFacts.
Context {DB : Type} {store : Store DB}.

Lemma delete_one_run kw table current i k (w : world (DB := DB)) r tup :
  nth_error (rows current) i = Some r ->
  to_tup r k = Ok tup ->
  delete_one kw table current i k w
  = (if kw_dryrun kw
     then emit (EPrintSql
                  (delete_query table
                     (match where_given kw with Some f => [f] | None => ["1=1"] end
                        ++ map (fun fv => where_pred (fst fv) (snd fv))
                               (combine k tup))) tup)
     else call (ESql
                  (delete_query table
                     (match where_given kw with Some f => [f] | None => ["1=1"] end
                        ++ map (fun fv => where_pred (fst fv) (snd fv))
                               (combine k tup))) tup)
               (db_sql
                  (delete_query table
                     (match where_given kw with Some f => [f] | None => ["1=1"] end
                        ++ map (fun fv => where_pred (fst fv) (snd fv))
                               (combine k tup))) tup)) w.
Proof.
  intros Hr Ht. unfold delete_one, bind, lift, list_item.
  rewrite Hr, Ht, where_loop, Ht. simpl.
  destruct (kw_dryrun kw).
  - unfold emit. reflexivity.
  - unfold call. destruct (db_sql _ _ _) as [res db']. reflexivity.
Qed.

(** Delete scoping: when every position to delete is a snapshot row that
    carries the key fields, and the run is dry or [db.sql] returns, the delete
    phase returns after one DELETE statement per position and per declared
    key, in order, each scoped by the global filter (or [1=1]) and the row's
    values for the key; it writes into no desired row. *)
Theorem deletes_once_per_key (iter_set : list nat -> list nat)
    kw table keys current unmatched (w : world (DB := DB)) :
  (forall i, In i (iter_set (u_current unmatched)) ->
             exists r, nth_error (rows current) i = Some r /\
                       forall k, In k keys -> exists tup, to_tup r k = Ok tup) ->
  (kw_dryrun kw = true \/ forall q a db, fst (db_sql q a db) = Ok tt) ->
  exists w',
    do_deletes iter_set kw table keys current unmatched w
    = (Ok tt, w',
       delete_events kw table current keys (iter_set (u_current unmatched)))
    /\ w_upserts w' = w_upserts w
    /\ List.length (delete_events kw table current keys
                                  (iter_set (u_current unmatched)))
       = List.length (iter_set (u_current unmatched)) * List.length keys.
Proof.
  intros Hrows Hsql. unfold do_deletes.
  generalize dependent (iter_set (u_current unmatched)). intros l Hrows.
  assert (Hone : forall i r k tup (w0 : world (DB := DB)),
             nth_error (rows current) i = Some r -> to_tup r k = Ok tup ->
             exists w1,
               delete_one kw table current i k w0
               = (Ok tt, w1, delete_statement kw table r k)
               /\ w_upserts w1 = w_upserts w0).
  { intros i r k tup w0 Hr Ht.
    rewrite (delete_one_run kw table current i k w0 Hr Ht).
    unfold delete_statement. rewrite Ht.
    destruct Hsql as [Hdry|Hok].
    - rewrite Hdry. unfold emit. eauto.
    - destruct (kw_dryrun kw); [unfold emit; eauto|].
      unfold call.
      match goal with |- context [db_sql ?q ?a ?d] =>
        specialize (Hok q a d); destruct (db_sql q a d) as [res db'] end.
      simpl in Hok. subst res. eauto. }
  assert (Hkeys : forall i r ks (w0 : world (DB := DB)),
             nth_error (rows current) i = Some r ->
             (forall k, In k ks -> exists tup, to_tup r k = Ok tup) ->
             exists w1,
               forM_ (delete_one kw table current i) ks w0
               = (Ok tt, w1, flat_map (delete_statement kw table r) ks)
               /\ w_upserts w1 = w_upserts w0
               /\ List.length (flat_map (delete_statement kw table r) ks)
                  = List.length ks).
  { intros i r ks. induction ks as [|k ks IH]; simpl; intros w0 Hr Hks.
    - exists w0. unfold ret. auto.
    - destruct (Hks k (or_introl eq_refl)) as [tup Ht].
      destruct (Hone i r k tup w0 Hr Ht) as (w1 & E1 & U1).
      destruct (IH w1 Hr) as (w2 & E2 & U2 & L2); auto.
      exists w2. unfold bind. rewrite E1, E2. repeat split; auto; try congruence.
      rewrite length_app, L2. unfold delete_statement. now rewrite Ht. }
  revert w. induction l as [|i l IH]; simpl; intros w.
  - exists w. unfold ret. auto.
  - destruct (Hrows i (or_introl eq_refl)) as (r & Hr & Hks).
    destruct (Hkeys i r keys w Hr Hks) as (w1 & E1 & U1 & L1).
    destruct (IH (fun j Hj => Hrows j (or_intror Hj)) w1) as (w2 & E2 & U2 & L2).
    exists w2. unfold bind. rewrite E1, E2, Hr. repeat split; auto; try congruence.
    rewrite length_app, L1, L2. reflexivity.
Qed.

(** The delete phase has no [except] clause: an exception of [db.sql], a
    uniqueness violation included, ends the phase at the first statement that
    raises and propagates. *)
Theorem delete_errors_propagate (iter_set : list nat -> list nat)
    kw table keys ks current unmatched (w : world (DB := DB))
    i rest k r tup e db' :
  kw_dryrun kw = false ->
  iter_set (u_current unmatched) = i :: rest ->
  keys = k :: ks ->
  nth_error (rows current) i = Some r ->
  to_tup r k = Ok tup ->
  db_sql (delete_query table
            (match where_given kw with Some f => [f] | None => ["1=1"] end
               ++ map (fun fv => where_pred (fst fv) (snd fv)) (combine k tup)))
         tup (w_db w) = (Raise e, db') ->
  do_deletes iter_set kw table keys current unmatched w
  = (Raise e, {| w_db := db'; w_upserts := w_upserts w |},
     [ESql (delete_query table
              (match where_given kw with Some f => [f] | None => ["1=1"] end
                 ++ map (fun fv => where_pred (fst fv) (snd fv)) (combine k tup)))
           tup]).
Proof.
  intros Hdry Hl Hk Hr Ht Hsql. unfold do_deletes. rewrite Hl, Hk. simpl.
  unfold bind.
  rewrite (delete_one_run kw table current i k w Hr Ht), Hdry.
  unfold call. rewrite Hsql. reflexivity.
Qed.
End DeleteFacts.

(** ** Arguments of defaults and hooks *)

(** [resolve_args] returns exactly when every back-reference names a field
    the row carries: literals pass through unchanged and a string starting
    with [*] gives the row's value for the field named after the star;
    otherwise it raises the [KeyError] of a back-reference whose field the row
    lacks. *)
Theorem resolve_args_exact (r : row) (args : list value) :
  (forall vs, resolve_args r args = Ok vs <-> Forall2 (arg_resolves r) args vs)
  /\ (forall e,
         resolve_args r args = Raise e ->
         exists field,
           e = KeyError field /\ In (VStr (String "*"%char field)) args /\
           row_get field r = None).
Proof.
  induction args as [|a args [IHok IHerr]]; simpl.
  - split.
    + intros vs. split; intros H; inversion H; subst; constructor.
    + discriminate.
  - set (one := match a with
                | VStr (String "*"%char field) => row_item r field
                | _ => Ok a
                end).
    assert (Hone : (forall v, one = Ok v <-> arg_resolves r a v)
                   /\ (forall e, one = Raise e ->
                                 exists field, e = KeyError field /\
                                   a = VStr (String "*"%char field) /\
                                   row_get field r = None)).
    { unfold one, arg_resolves, row_item.
      destruct a as [| | |s]; try (split; [intros v; split; congruence | discriminate]).
      destruct s as [|c s]; try (split; [intros v; split; congruence | discriminate]).
      destruct (Ascii.eqb c "*"%char) eqn:Ec.
      - apply Ascii.eqb_eq in Ec. subst c.
        destruct (row_get s r) as [v0|] eqn:Hs.
        + split; [intros v; split; congruence | discriminate].
        + split; [intros v; split; discriminate|].
          intros e E. inversion E. eauto.
      - assert (c <> "*"%char) by (intros ->; now rewrite Ascii.eqb_refl in Ec).
        destruct c as [[] [] [] [] [] [] [] []];
          try (split; [intros v; split; congruence | discriminate]). }
    destruct Hone as [Hv He]. fold one.
    destruct one as [v|e0] eqn:Eone; simpl.
    + destruct (resolve_args r args) as [vs0|e1] eqn:Hrest; simpl.
      * split; [|discriminate].
        intros vs. split.
        -- intros E; inversion E; subst. constructor; [now apply Hv | now apply IHok].
        -- intros H; inversion H; subst.
           match goal with H1 : arg_resolves r a _, H2 : Forall2 _ args _ |- _ =>
             apply Hv in H1; apply IHok in H2; congruence end.
      * split.
        -- intros vs. split; [discriminate|].
           intros H; inversion H; subst.
           match goal with H2 : Forall2 _ args _ |- _ =>
             apply IHok in H2; discriminate H2 end.
        -- intros e E. inversion E; subst e.
           destruct (IHerr e1 eq_refl) as (f & -> & Hin & Hf). eauto.
    + split.
      * intros vs. split; [discriminate|].
        intros H; inversion H; subst.
        match goal with H1 : arg_resolves r a _ |- _ =>
          apply Hv in H1; discriminate H1 end.
      * intros e E. inversion E; subst e.
        destruct (He e0 eq_refl) as (f & -> & -> & Hf). eauto.
Qed.

(** ** Defaults *)

Lemma row_get_row_set f f' v r :
  row_get f' (row_set f v r) = if String.eqb f f' then Some v else row_get f' r.
Proof.
  unfold row_get, row_set. apply dget_dset.
  - apply String.eqb_sym.
  - intros a b c Hab Hbc. apply String.eqb_eq in Hab, Hbc. subst.
    apply String.eqb_refl.
Qed.

Lemma apply_defaults_frame kw r r' :
  apply_defaults kw r = Ok r' ->
  (forall f, ~ In f (map fst (kw_default kw)) -> row_get f r' = row_get f r)
  /\ (forall f, In f (map fst (kw_default kw)) -> row_get f r' <> None).
Proof.
  unfold apply_defaults. generalize (kw_default kw) as ds. intros ds; revert r.
  induction ds as [|[f0 spec] ds IH]; simpl; intros r Hrun.
  - inversion Hrun; subst. split; auto.
  - destruct (get_default spec r) as [v|] eqn:Ev; simpl in Hrun; try discriminate.
    destruct (IH _ Hrun) as [Hframe Hset]. split.
    + intros f Hf. rewrite Hframe by tauto. rewrite row_get_row_set.
      destruct (String.eqb f0 f) eqn:E; auto.
      apply String.eqb_eq in E. tauto.
    + intros f [<-|Hf]; auto.
      destruct (in_dec string_dec f0 (map fst ds)) as [Hi|Hi]; auto.
      rewrite Hframe by auto. rewrite row_get_row_set, String.eqb_refl.
      discriminate.
Qed.

(** The defaults loop, when it returns, leaves in the desired row the
    declared defaults and nothing else: the fields without a default keep
    their values and every default field is set, each default computed by
    [get_default] on the row as the earlier defaults left it. *)
Theorem defaults_write_declared_fields {DB : Type} {store : Store DB}
    kw j (w w' : world (DB := DB)) r t :
  nth_error (w_upserts w) j = Some r ->
  set_defaults kw j w = (Ok tt, w', t) ->
  exists r',
      nth_error (w_upserts w') j = Some r'
      /\ foldlM (fun r0 fs =>
                   v <-? get_default (snd fs) r0 ;; Ok (row_set (fst fs) v r0))
                (kw_default kw) r = Ok r'
      /\ (forall f, ~ In f (map fst (kw_default kw)) -> row_get f r' = row_get f r)
      /\ (forall f, In f (map fst (kw_default kw)) -> row_get f r' <> None).
Proof.
  intros Hr Hrun.
  destruct (apply_defaults kw r) as [r'|e] eqn:Hup.
  - rewrite (@set_defaults_run DB kw j w r r' Hr Hup) in Hrun.
    inversion Hrun; subst. clear Hrun.
    destruct (apply_defaults_frame kw r Hup) as [Hframe Hset].
    exists r'. repeat split; auto. simpl. eapply nth_error_list_set; eauto.
  - destruct (@set_defaults_raise DB kw j w r e Hr Hup) as (w1 & E & _).
    rewrite E in Hrun. discriminate.
Qed.

(** ** Empty inputs *)

(** Against an empty table nothing matches: the index is empty, the matcher
    returns no record when the desired rows carry the key fields, and every
    desired row is unmatched. *)
Theorem empty_table_matches_nothing keymaps keys ups nn :
  rows_have_keys ups keys ->
  build_index keymaps keys [] = Ok []
  /\ get_to_update {| rows := []; tups := [] |} ups keys nn = Ok []
  /\ u_upserts (get_unmatched [] {| rows := []; tups := [] |} ups)
     = seq 0 (List.length ups).
Proof.
  intros Hrows. split; [reflexivity|]. split.
  - destruct (get_to_update_total {| rows := []; tups := [] |} nn Hrows)
      as [recs Hrun].
    rewrite Hrun. f_equal. destruct recs as [|u recs]; auto.
    destruct (get_to_update_sound _ _ _ _ Hrun u (or_introl eq_refl))
      as (r & tup & l & _ & _ & _ & Hget & _).
    simpl in Hget. discriminate.
  - unfold get_unmatched, unmatched_of. simpl.
    induction (seq 0 (List.length ups)) as [|x l IH]; simpl; auto.
    now rewrite IH.
Qed.

(** With no desired row and [delete] off, the invocation only reads,
    however it ends: every store call is [get] or [get_fields] and no desired
    row appears. When both reads return and the index builds over the loaded
    rows, it returns the success marker, or the empty list when
    [get_unmatched] is set, after exactly these two calls; when the index does
    not build, its error is raised right after the first read. *)
Theorem nothing_desired_only_reads {DB : Type} {store : Store DB}
    (iter_set : list nat -> list nat) table karg kw (w : world (DB := DB)) :
  set_order iter_set ->
  w_upserts w = [] ->
  kw_delete kw = false ->
  (forall res w' t,
      upsert iter_set table karg kw w = (res, w', t) ->
      w_upserts w' = [] /\ forall e, In e t -> is_read e)
  /\ (forall rws db1 d fs db2,
         db_get (select_query table kw) (w_db w) = (Ok rws, db1) ->
         build_index (kw_keymaps kw) (parse_keys karg) rws = Ok d ->
         db_get_fields table db1 = (Ok fs, db2) ->
         upsert iter_set table karg kw w
         = (Ok (if kw_get_unmatched kw then RRows [] else RTrue),
            {| w_db := db2; w_upserts := [] |},
            [EGet (select_query table kw); EGetFields table]))
  /\ (forall rws db1 e,
         db_get (select_query table kw) (w_db w) = (Ok rws, db1) ->
         build_index (kw_keymaps kw) (parse_keys karg) rws = Raise e ->
         upsert iter_set table karg kw w
         = (Raise e, {| w_db := db1; w_upserts := [] |},
            [EGet (select_query table kw)])).
Proof.
  intros Hord Hups Hdel.
  assert (Hnil : iter_set [] = []).
  { apply Permutation_nil. apply Hord. constructor. }
  assert (Hok : forall rws db1 d fs db2,
             db_get (select_query table kw) (w_db w) = (Ok rws, db1) ->
             build_index (kw_keymaps kw) (parse_keys karg) rws = Ok d ->
             db_get_fields table db1 = (Ok fs, db2) ->
             upsert iter_set table karg kw w
             = (Ok (if kw_get_unmatched kw then RRows [] else RTrue),
                {| w_db := db2; w_upserts := [] |},
                [EGet (select_query table kw); EGetFields table])).
  { intros rws db1 d fs db2 Hget Hidx Hfs.
    rewrite (@upsert_run _ _ iter_set table karg kw w rws db1 d []
               Hget Hidx ltac:(rewrite Hups; reflexivity)).
    unfold bind at 1.
    rewrite (@do_updates_run _ _ kw table [] {| rows := rws; tups := d |}
               {| w_db := db1; w_upserts := w_upserts w |} fs db2 Hfs).
    simpl. unfold after_updates. rewrite Hdel, Hups.
    unfold do_inserts, get_unmatched, unmatched_of. simpl. rewrite Hnil. simpl.
    destruct (kw_noinsert kw), (kw_get_unmatched kw); reflexivity. }
  assert (Hbad : forall rws db1 e,
             db_get (select_query table kw) (w_db w) = (Ok rws, db1) ->
             build_index (kw_keymaps kw) (parse_keys karg) rws = Raise e ->
             upsert iter_set table karg kw w
             = (Raise e, {| w_db := db1; w_upserts := [] |},
                [EGet (select_query table kw)])).
  { intros rws db1 e Hget Hidx.
    unfold upsert, get_current, bind, call, lift. rewrite Hget, Hidx, Hups.
    reflexivity. }
  split; [|split; assumption].
  intros res w' t Hrun.
  destruct (db_get (select_query table kw) (w_db w)) as [[rws|e] db1] eqn:Hget.
  - destruct (build_index (kw_keymaps kw) (parse_keys karg) rws) as [d|e] eqn:Hidx.
    + destruct (db_get_fields table db1) as [[fs|e] db2] eqn:Hfs.
      * rewrite (Hok rws db1 d fs db2 eq_refl Hidx Hfs) in Hrun.
        inversion Hrun; subst. split; [reflexivity|].
        intros e [<-|[<-|[]]]; exact I.
      * rewrite (@upsert_run _ _ iter_set table karg kw w rws db1 d []
                   Hget Hidx ltac:(rewrite Hups; reflexivity)) in Hrun.
        unfold bind at 1 in Hrun. unfold do_updates, bind, call in Hrun.
        simpl in Hrun. rewrite Hfs in Hrun. simpl in Hrun.
        inversion Hrun; subst. split; [assumption|].
        intros x [<-|[<-|[]]]; exact I.
    + rewrite (Hbad rws db1 e eq_refl Hidx) in Hrun.
      inversion Hrun; subst. split; [reflexivity|].
      intros x [<-|[]]; exact I.
  - unfold upsert, get_current, bind, call in Hrun. rewrite Hget in Hrun.
    inversion Hrun; subst. split; [assumption|].
    intros x [<-|[]]; exact I.
Qed.

(** ** Dry runs and live runs *)

Section PlanFacts.
Context {DB : Type} {store : Store DB}.
Variable table : string.

Lemma plans_ret {A} (a : A) : plans (DB := DB) table (ret a) (ret a).
Proof. intros wd wl H. unfold ret, plan_of. simpl. auto. Qed.

Lemma plans_lift {A} (r : result A) : plans (DB := DB) table (lift r) (lift r).
Proof. intros wd wl H. unfold lift, plan_of. simpl. auto. Qed.

Lemma plans_get_upsert j : plans (DB := DB) table (get_upsert j) (get_upsert j).
Proof.
  intros wd wl H. unfold get_upsert, plan_of. simpl. rewrite H. auto.
Qed.

Lemma plans_set_upsert j r : plans (DB := DB) table (set_upsert j r) (set_upsert j r).
Proof.
  intros wd wl H. unfold set_upsert, plan_of. simpl. rewrite H. auto.
Qed.

Lemma plans_bind {A B} (md ml : M (DB := DB) A) (kd kl : A -> M B) :
  plans table md ml -> (forall a, plans table (kd a) (kl a)) ->
  plans table (bind md kd) (bind ml kl).
Proof.
  intros Hm Hk wd wl H. destruct (Hm wd wl H) as (Hr & Ht & Hu).
  unfold bind.
  destruct (md wd) as [[rd wd1] td1]; destruct (ml wl) as [[rl wl1] tl1].
  simpl in Hr, Ht, Hu. subst rl. destruct rd as [a|e]; simpl.
  - destruct (Hk a wd1 wl1 Hu) as (Hr2 & Ht2 & Hu2).
    destruct (kd a wd1) as [[rd2 wd2] td2]; destruct (kl a wl1) as [[rl2 wl2] tl2].
    simpl in *. repeat split; auto.
    unfold plan_of in *. now rewrite map_app, filter_app, Ht, Ht2.
  - repeat split; auto.
Qed.

Lemma plans_forM {A} (fd fl : A -> M (DB := DB) unit) l :
  (forall a, plans table (fd a) (fl a)) ->
  plans table (forM_ fd l) (forM_ fl l).
Proof.
  intros Hf. induction l as [|a l IH]; simpl.
  - apply plans_ret.
  - apply plans_bind; auto.
Qed.

Lemma plans_try_unique (md ml : M (DB := DB) unit) :
  plans table md ml -> plans table (try_unique md) (try_unique ml).
Proof.
  intros Hm wd wl H. destruct (Hm wd wl H) as (Hr & Ht & Hu).
  unfold try_unique.
  destruct (md wd) as [[rd wd1] td1]; destruct (ml wl) as [[rl wl1] tl1].
  simpl in Hr, Ht, Hu. subst rl.
  destruct rd as [[]|e]; simpl; [repeat split; auto|].
  destruct e; simpl; repeat split; auto.
  unfold plan_of in *. rewrite map_app, filter_app, Ht. reflexivity.
Qed.

Lemma plans_set_defaults kw j b b' :
  plans (DB := DB) table (set_defaults (with_dryrun kw b) j)
        (set_defaults (with_dryrun kw b') j).
Proof.
  unfold set_defaults. simpl. apply plans_forM. intros fs.
  apply plans_bind; [apply plans_get_upsert|]. intros r.
  apply plans_bind; [apply plans_lift|]. intros v.
  apply plans_set_upsert.
Qed.

Lemma plans_collect l : plans (DB := DB) table (collect_upserts l) (collect_upserts l).
Proof.
  induction l as [|i l IH]; simpl.
  - apply plans_ret.
  - apply plans_bind; [apply plans_get_upsert|]. intros r.
    apply plans_bind; auto. intros rs. apply plans_ret.
Qed.

Hypothesis sql_returns : forall q a db, fst (db_sql q a db) = Ok tt.
Hypothesis insert_returns : forall r db, fst (db_insert r table db) = Ok tt.

Lemma plans_statement q a :
  plans (DB := DB) table (emit (EPrintSql q a)) (call (ESql q a) (db_sql q a)).
Proof.
  intros wd wl H. unfold emit, call. specialize (sql_returns q a (w_db wl)).
  destruct (db_sql q a (w_db wl)) as [res db']. simpl in *. subst res.
  unfold plan_of. simpl. auto.
Qed.

Lemma plans_insert r :
  plans (DB := DB) table (emit (EPrintInsert r))
        (call (EInsert r table) (db_insert r table)).
Proof.
  intros wd wl H. unfold emit, call. specialize (insert_returns r (w_db wl)).
  destruct (db_insert r table (w_db wl)) as [res db']. simpl in *. subst res.
  unfold plan_of. simpl. auto.
Qed.

Lemma plans_update_one kw current fields u :
  plans table (update_one (with_dryrun kw true) table current fields u)
        (update_one (with_dryrun kw false) table current fields u).
Proof.
  unfold update_one.
  apply plans_bind; [apply plans_lift|]. intros cur.
  apply plans_bind; [apply plans_get_upsert|]. intros _.
  apply plans_bind; [apply plans_set_defaults|]. intros _.
  apply plans_bind; [apply plans_get_upsert|]. intros up.
  apply plans_bind; [apply plans_lift|]. intros sa.
  destruct (fst sa); [apply plans_ret|].
  apply plans_bind; [apply plans_lift|]. intros wa.
  unfold send_update. simpl. apply plans_try_unique, plans_statement.
Qed.

Lemma plans_insert_one kw i :
  hook_always_returns kw ->
  plans table (insert_one (with_dryrun kw true) table i)
        (insert_one (with_dryrun kw false) table i).
Proof.
  intros Hhook. unfold insert_one.
  apply plans_bind; [apply plans_get_upsert|]. intros _.
  apply plans_bind; [apply plans_set_defaults|]. intros _.
  apply plans_bind; [apply plans_get_upsert|]. intros r.
  apply plans_bind.
  - simpl. unfold hook_always_returns in Hhook.
    destruct (kw_before_insert kw) as [before|]; [|apply plans_ret].
    apply plans_bind; [apply plans_lift|]. intros args.
    intros wd wl H. unfold ret, call_hook, plan_of. rewrite Hhook. simpl. auto.
  - intros _. unfold send_insert. simpl. apply plans_try_unique, plans_insert.
Qed.

Lemma plans_delete_one kw current i k :
  plans table (delete_one (with_dryrun kw true) table current i k)
        (delete_one (with_dryrun kw false) table current i k).
Proof.
  unfold delete_one.
  apply plans_bind; [apply plans_lift|]. intros r.
  apply plans_bind; [apply plans_lift|]. intros _.
  apply plans_bind; [apply plans_lift|]. intros wa.
  simpl. apply plans_statement.
Qed.

Lemma plans_from_plans {A} (md ml : M (DB := DB) A) w :
  plans table md ml -> plans_from table w md ml.
Proof.
  intros H. destruct (H w w eq_refl) as (Hr & Ht & _). split; auto.
Qed.

Lemma plan_of_reads t : Forall is_read t -> plan_of table t t.
Proof.
  unfold plan_of. induction 1 as [|e t He Ht IH]; simpl; auto.
  destruct e; simpl in *; try contradiction; now rewrite IH.
Qed.

(** Both runs start with the same computation, which only reads. *)
Lemma plans_from_bind_same {A B} (m : M (DB := DB) A) (kd kl : A -> M B) w :
  emits_only is_read m ->
  (forall a w1, plans_from table w1 (kd a) (kl a)) ->
  plans_from table w (bind m kd) (bind m kl).
Proof.
  intros Hm Hk. unfold plans_from, bind.
  destruct (m w) as [[[a|e] w1] t1] eqn:Em.
  - destruct (Hk a w1) as [Hr Ht].
    destruct (kd a w1) as [[rd wd] td]; destruct (kl a w1) as [[rl wl] tl].
    simpl in *. split; auto.
    unfold plan_of in *. rewrite map_app, filter_app, Ht. f_equal.
    apply plan_of_reads. eapply Hm; eauto.
  - simpl. split; auto. apply plan_of_reads. eapply Hm; eauto.
Qed.

Lemma bind_assoc {A B C} (m : M (DB := DB) A) (k1 : A -> M B) (k2 : B -> M C) w :
  bind (bind m k1) k2 w = bind m (fun a => bind (k1 a) k2) w.
Proof.
  unfold bind. destruct (m w) as [[[a|e] w1] t1]; auto.
  destruct (k1 a w1) as [[[b|e] w2] t2]; auto.
  destruct (k2 b w2) as [[r w3] t3]. now rewrite app_assoc.
Qed.

(** Dry-run fidelity: over a store whose [sql] and [insert] return, and with
    a hook, if any, that returns, the dry run and the live run of the same
    invocation end with the same result, and the statements and rows the dry
    run prints are, in order, exactly the statements and rows the live run
    passes to [db.sql] and [db.insert]. *)
Theorem dry_run_fidelity (iter_set : list nat -> list nat) karg kw
    (w : world (DB := DB)) :
  hook_always_returns kw ->
  fst (fst (upsert iter_set table karg (with_dryrun kw true) w))
  = fst (fst (upsert iter_set table karg (with_dryrun kw false) w))
  /\ plan_of table
       (snd (upsert iter_set table karg (with_dryrun kw true) w))
       (snd (upsert iter_set table karg (with_dryrun kw false) w)).
Proof.
  intros Hhook.
  assert (Hrest : forall current recs ups fs,
    plans table
      (bind (forM_ (update_one (with_dryrun kw true) table current fs) recs)
         (fun _ => after_updates iter_set (with_dryrun kw true) table
                     (parse_keys karg) current
                     (get_unmatched recs current ups)))
      (bind (forM_ (update_one (with_dryrun kw false) table current fs) recs)
         (fun _ => after_updates iter_set (with_dryrun kw false) table
                     (parse_keys karg) current
                     (get_unmatched recs current ups)))).
  { intros current recs ups fs.
    apply plans_bind; [apply plans_forM; intros u; apply plans_update_one|].
    intros _. unfold after_updates. simpl.
    apply plans_bind.
    { destruct (kw_noinsert kw); [apply plans_ret|].
      unfold do_inserts. apply plans_forM. intros i.
      now apply plans_insert_one. }
    intros _. apply plans_bind.
    { destruct (kw_delete kw); [|apply plans_ret].
      unfold do_deletes. apply plans_forM. intros i. apply plans_forM.
      intros k. apply plans_delete_one. }
    intros _. destruct (kw_get_unmatched kw); [|apply plans_ret].
    apply plans_bind; [apply plans_collect|]. intros rs. apply plans_ret. }
  change (plans_from table w
            (upsert iter_set table karg (with_dryrun kw true))
            (upsert iter_set table karg (with_dryrun kw false))).
  unfold upsert.
  change (get_current table (parse_keys karg) (with_dryrun kw true))
    with (get_current table (parse_keys karg) kw).
  change (get_current table (parse_keys karg) (with_dryrun kw false))
    with (get_current table (parse_keys karg) kw).
  cbn [kw_nonullkeys with_dryrun].
  apply plans_from_bind_same.
  { unfold get_current.
    apply emits_only_bind; [apply emits_only_call; exact I|]. intros rws.
    apply emits_only_bind; [apply emits_only_lift|]. intros d.
    apply emits_only_ret. }
  intros current w1.
  apply plans_from_bind_same; [apply emits_only_get_upserts|]. intros ups w2.
  apply plans_from_bind_same; [apply emits_only_lift|]. intros recs w3.
  unfold do_updates. cbn [kw_ignore with_dryrun].
  unfold plans_from. rewrite !bind_assoc.
  apply plans_from_bind_same; [apply emits_only_call; exact I|]. intros fs w4.
  apply plans_from_plans.
  exact (Hrest current recs ups
               (filter (fun x => negb (mem_str x (kw_ignore kw))) fs)).
Qed.
End PlanFacts.

(** ** Errors of the field loop, and ignored fields *)

(** The field loop raises two errors only: the [KeyError] of a diffed field
    that the current row lacks, and the [TypeError] of a diffed field whose
    current and desired values are non-null with different types. *)
Theorem field_loop_errors kw cur up fields e :
  diff_fields kw cur up fields = Raise e ->
  exists f,
    In f fields /\
    ((e = KeyError f /\ row_get f cur = None)
     \/ exists c n,
         e = TypeError f n c /\ row_get f cur = Some c /\ row_get f up = Some n
         /\ c <> VNone /\ n <> VNone /\ type_of c <> type_of n).
Proof.
  unfold diff_fields. intros Hrun.
  destruct (foldlM_raise_inv _ _ _ Hrun) as (f & acc & Hf & Hstep).
  exists f. split; auto.
  unfold diff_step, row_item in Hstep.
  destruct (row_get f cur) as [c|] eqn:Hc; simpl in Hstep.
  2:{ inversion Hstep. auto. }
  right.
  destruct (negb (kw_overwrite kw) && negb (row_mem f up)); try discriminate.
  destruct (kw_ignorenull kw && is_none _); try discriminate.
  destruct (negb (is_none c) && negb (is_none _) && _) eqn:Hm.
  2:{ destruct (negb (py_eqb c _)); discriminate. }
  inversion Hstep; subst e. clear Hstep.
  apply andb_true_iff in Hm. destruct Hm as [Hm Ht].
  apply andb_true_iff in Hm. destruct Hm as [Hcn Hnn].
  destruct (row_get f up) as [n|] eqn:Hn; [|discriminate Hnn].
  exists c, n. repeat split; auto.
  - intros ->. discriminate.
  - intros ->. discriminate.
  - intros E. rewrite E, pytype_eqb_refl in Ht. discriminate.
Qed.

Lemma field_loop_errors_witness :
  exists f,
    In f ["id"; "name"; "qty"] /\
    ((TypeError "qty" (VInt 5) (VStr "5") = KeyError f
      /\ row_get f [("id", VInt 2); ("name", VStr "bolt"); ("qty", VStr "5")] = None)
     \/ exists c n,
         TypeError "qty" (VInt 5) (VStr "5") = TypeError f n c
         /\ row_get f [("id", VInt 2); ("name", VStr "bolt"); ("qty", VStr "5")]
            = Some c
         /\ row_get f [("id", VInt 2); ("qty", VInt 5)] = Some n
         /\ c <> VNone /\ n <> VNone /\ type_of c <> type_of n).
Proof.
  exact (@field_loop_errors no_kwargs
           [("id", VInt 2); ("name", VStr "bolt"); ("qty", VStr "5")]
           [("id", VInt 2); ("qty", VInt 5)]
           ["id"; "name"; "qty"] (TypeError "qty" (VInt 5) (VStr "5")) eq_refl).
Defined.

(** An ignored field is never set: every UPDATE statement of the update
    phase sets fields of the table, in table order, none of which is in the
    [ignore] list. *)
Theorem ignored_fields_never_set {DB : Type} {store : Store DB}
    kw table recs current (w w' : world (DB := DB)) fs db2 res t :
  db_get_fields table (w_db w) = (Ok fs, db2) ->
  do_updates kw table recs current w = (res, w', t) ->
  forall q a,
    In (ESql q a) t \/ In (EPrintSql q a) t ->
    exists changed where_,
      q = update_query table (map (fun f => (f ++ " = %s")%string) changed) where_
      /\ forall f, In f changed -> In f fs /\ ~ In f (kw_ignore kw).
Proof.
  intros Hfs Hrun q a Hin.
  rewrite (@do_updates_run _ _ kw table recs current w fs db2 Hfs) in Hrun.
  destruct (forM_ _ _ _) as [[r1 w1] t1] eqn:Hloop.
  inversion Hrun; subst. clear Hrun.
  assert (He : exists e, (e = ESql q a \/ e = EPrintSql q a) /\ In e t1).
  { destruct Hin as [[E|Hin]|[E|Hin]]; try discriminate E; eauto. }
  destruct He as (e & He & Hin1).
  destruct (@forM__event DB _ _ e _ _ _ _ _ Hloop Hin1)
    as (u & w0 & r0 & w0' & t0 & Hu & Hone & Hin0).
  destruct (@update_one_events DB store kw table current _ u w0 w0' r0 t0 Hone q a)
    as (cur & up & tup & sets & sargs & H1 & H2 & H3 & H4 & H5).
  { destruct He as [-> | ->]; auto. }
  destruct (diff_fields_filter _ _ _ _ H2) as (Hsets & _).
  exists (filter (field_changes kw cur up)
                 (filter (fun x => negb (mem_str x (kw_ignore kw))) fs)),
         (scope_where kw (m_key u) tup).
  split; [congruence|].
  intros f Hf. apply filter_In in Hf. destruct Hf as [Hf _].
  apply filter_In in Hf. destruct Hf as [Hf Hig]. split; auto.
  intros Hi. apply negb_true_iff in Hig.
  assert (mem_str f (kw_ignore kw) = true).
  { unfold mem_str. apply existsb_exists. exists f. split; auto.
    apply String.eqb_refl. }
  congruence.
Qed.

(** ** The properties on the worked example *)

Lemma noinsert_skips_insert_phase_witness :
  upsert iter_added "users" users_keys noinsert_kwargs users_world
  = (Ok RTrue, users_world,
     [EGet "SELECT * FROM users "; EGetFields "users";
      ESql users_update users_update_args])
  /\ is_insert_event (ESql users_update users_update_args) = false.
Proof.
  split; [reflexivity|].
  exact (@noinsert_skips_insert_phase mem_db mem_store iter_added "users"
           users_keys noinsert_kwargs users_world users_world (Ok RTrue)
           [EGet "SELECT * FROM users "; EGetFields "users";
            ESql users_update users_update_args]
           eq_refl eq_refl (ESql users_update users_update_args)
           (or_intror (or_intror (or_introl eq_refl)))).
Defined.

Lemma no_delete_without_flag_witness :
  statement_is_update (ESql users_update users_update_args).
Proof.
  exact (@no_delete_without_flag mem_db mem_store iter_added "users"
           users_keys noinsert_kwargs users_world users_world (Ok RTrue)
           [EGet "SELECT * FROM users "; EGetFields "users";
            ESql users_update users_update_args]
           eq_refl eq_refl (ESql users_update users_update_args)
           (or_intror (or_intror (or_introl eq_refl)))).
Defined.

Lemma update_violation_isolated_witness :
  forM_ (update_one (store := refusing_store (UniqueViolation "users_name_key"))
                    no_kwargs "users" users_snapshot ["id"; "name"; "email"])
        [users_record] users_world
  = (Ok tt, users_world,
     [ESql users_update users_update_args;
      EPrintExn (UniqueViolation "users_name_key")]).
Proof.
  refine (@update_violation_isolated mem_db
            (refusing_store (UniqueViolation "users_name_key"))
            no_kwargs "users" users_snapshot ["id"; "name"; "email"]
            users_record [] users_world
            [("id", VInt 1); ("name", VStr "a"); ("email", VNone)]
            [("id", VInt 1); ("name", VStr "a2"); ("email", VNone)]
            [("id", VInt 1); ("name", VStr "a2"); ("email", VNone)]
            ["name = %s"] [VStr "a2"] [VInt 1; VNone]
            (UniqueViolation "users_name_key") users_db
            eq_refl eq_refl eq_refl eq_refl _ eq_refl eq_refl eq_refl).
  discriminate.
Defined.

Lemma deletes_once_per_key_witness :
  exists w',
    do_deletes iter_added delete_kwargs "users" [["id"; "email"]] users_snapshot
               users_unmatched users_world
    = (Ok tt, w', [ESql users_delete [VInt 2; VStr "b@x.com"]])
    /\ w_upserts w' = w_upserts users_world
    /\ 1 = 1 * 1.
Proof.
  refine (@deletes_once_per_key mem_db mem_store iter_added delete_kwargs
            "users" [["id"; "email"]] users_snapshot users_unmatched
            users_world _ (or_intror (fun _ _ _ => eq_refl))).
  intros i [<-|[]]. eexists. split; [reflexivity|].
  intros k [<-|[]]. eexists. reflexivity.
Defined.

Lemma delete_errors_propagate_witness :
  do_deletes (store := refusing_store (UniqueViolation "orders_user_fkey"))
             iter_added delete_kwargs "users" [["id"; "email"]] users_snapshot
             users_unmatched users_world
  = (Raise (UniqueViolation "orders_user_fkey"), users_world,
     [ESql users_delete [VInt 2; VStr "b@x.com"]]).
Proof.
  exact (@delete_errors_propagate mem_db
           (refusing_store (UniqueViolation "orders_user_fkey"))
           iter_added delete_kwargs "users" [["id"; "email"]] []
           users_snapshot users_unmatched users_world 1 []
           ["id"; "email"]
           [("id", VInt 2); ("name", VStr "b"); ("email", VStr "b@x.com")]
           [VInt 2; VStr "b@x.com"]
           (UniqueViolation "orders_user_fkey") users_db
           eq_refl eq_refl eq_refl eq_refl eq_refl eq_refl).
Defined.

Lemma defaults_write_declared_fields_witness :
  set_defaults (DB := mem_db) defaults_kwargs 1 users_world
  = (Ok tt, users_world_defaulted, [])
  /\ (exists r',
          nth_error (w_upserts users_world_defaulted) 1 = Some r'
          /\ foldlM (fun r0 fs =>
                       v <-? get_default (snd fs) r0 ;;
                       Ok (row_set (fst fs) v r0))
                    (kw_default defaults_kwargs)
                    [("id", VInt 3); ("name", VStr "c"); ("email", VNone)]
             = Ok r'
          /\ (forall f, ~ In f ["status"; "label"] ->
                        row_get f r'
                        = row_get f [("id", VInt 3); ("name", VStr "c");
                                     ("email", VNone)])
          /\ (forall f, In f ["status"; "label"] -> row_get f r' <> None)).
Proof.
  split; [reflexivity|].
  exact (@defaults_write_declared_fields mem_db mem_store defaults_kwargs 1
           users_world users_world_defaulted
           [("id", VInt 3); ("name", VStr "c"); ("email", VNone)] []
           eq_refl eq_refl).
Defined.

Lemma empty_table_matches_nothing_witness :
  build_index [] [["id"; "email"]] [] = Ok []
  /\ get_to_update {| rows := []; tups := [] |} (w_upserts users_world)
                   [["id"; "email"]] false = Ok []
  /\ u_upserts (get_unmatched [] {| rows := []; tups := [] |}
                              (w_upserts users_world))
     = [0; 1].
Proof.
  refine (@empty_table_matches_nothing [] [["id"; "email"]]
            (w_upserts users_world) false _).
  intros r k [<-|[<-|[]]] [<-|[]]; eexists; reflexivity.
Defined.

Lemma nothing_desired_only_reads_witness :
  upsert iter_added "users" users_keys no_kwargs users_world_empty
  = (Ok RTrue, users_world_empty,
     [EGet "SELECT * FROM users "; EGetFields "users"])
  /\ is_read (EGetFields "users").
Proof.
  destruct (@nothing_desired_only_reads mem_db mem_store iter_added "users"
              users_keys no_kwargs users_world_empty
              iter_added_order eq_refl eq_refl) as (Hall & Hok & _).
  split.
  - exact (Hok users_rows users_db
             [ ([VInt 1; VNone], [0]); ([VInt 2; VStr "b@x.com"], [1]) ]
             ["id"; "name"; "email"] users_db eq_refl eq_refl eq_refl).
  - exact (proj2 (Hall (Ok RTrue) users_world_empty
                    [EGet "SELECT * FROM users "; EGetFields "users"] eq_refl)
                 (EGetFields "users") (or_intror (or_introl eq_refl))).
Defined.

Lemma dry_run_fidelity_witness :
  fst (fst (upsert (store := lenient_store) iter_added "users" users_keys
                   (with_dryrun delete_kwargs true) users_world))
  = fst (fst (upsert (store := lenient_store) iter_added "users" users_keys
                     (with_dryrun delete_kwargs false) users_world))
  /\ plan_of "users"
       [EGet "SELECT * FROM users  WHERE active"; EGetFields "users";
        EPrintSql users_filtered_update users_update_args;
        EPrintInsert [("id", VInt 3); ("name", VStr "c"); ("email", VNone)];
        EPrintSql users_delete [VInt 2; VStr "b@x.com"]]
       [EGet "SELECT * FROM users  WHERE active"; EGetFields "users";
        ESql users_filtered_update users_update_args;
        EInsert [("id", VInt 3); ("name", VStr "c"); ("email", VNone)] "users";
        ESql users_delete [VInt 2; VStr "b@x.com"]].
Proof.
  exact (@dry_run_fidelity mem_db lenient_store "users"
           (fun _ _ _ => eq_refl) (fun _ _ => eq_refl)
           iter_added users_keys delete_kwargs users_world I).
Defined.

Lemma ignored_fields_never_set_witness :
  exists changed where_,
    users_update
    = update_query "users" (map (fun f => (f ++ " = %s")%string) changed) where_
    /\ forall f, In f changed ->
                 In f ["id"; "name"; "email"] /\ ~ In f (kw_ignore defaults_kwargs).
Proof.
  exact (@ignored_fields_never_set mem_db mem_store defaults_kwargs "users"
           [users_record] users_snapshot users_world
           {| w_db := users_db;
              w_upserts := [ [("id", VInt 1); ("name", VStr "a2"); ("email", VNone);
                              ("status", VStr "new"); ("label", VStr "a2!")];
                             [("id", VInt 3); ("name", VStr "c"); ("email", VNone)] ] |}
           ["id"; "name"; "email"] users_db (Ok tt)
           [EGetFields "users"; ESql users_update users_update_args]
           eq_refl eq_refl users_update users_update_args
           (or_introl (or_intror (or_introl eq_refl)))).
Defined.

(** ** The global filter *)

Section FilterFacts.
Context {DB : Type} {store : Store DB}.
Variable P : event -> Prop.

Lemma emits_only_bind_lift {A B} (r : result A) (k : A -> M (DB := DB) B) :
  (forall a, r = Ok a -> emits_only P (k a)) -> emits_only P (bind (lift r) k).
Proof.
  intros Hk w res w' t E. unfold bind, lift in E.
  destruct r as [a|e].
  - destruct (k a w) as [[r2 w2] t2] eqn:Ek. inversion E; subst.
    simpl. eapply Hk; eauto.
  - inversion E; subst. constructor.
Qed.
End FilterFacts.

(** With a global filter ([where], not empty) the invocation reads, updates
    and deletes under it: the SELECT carries it, and every statement executed
    or printed is an UPDATE or a DELETE whose WHERE clause is the filter
    followed by the predicates of a key. *)
Theorem global_filter_scopes_statements {DB : Type} {store : Store DB}
    (iter_set : list nat -> list nat) table karg kw wf
    (w w' : world (DB := DB)) res t :
  where_given kw = Some wf ->
  upsert iter_set table karg kw w = (res, w', t) ->
  forall e, In e t -> scoped_by table wf e.
Proof.
  intros Hwf Hrun. apply Forall_forall. revert w res w' t Hrun.
  change (emits_only (scoped_by table wf) (upsert iter_set table karg kw)).
  assert (Hexn : forall e, scoped_by table wf (EPrintExn e)) by (intros; exact I).
  unfold upsert.
  apply emits_only_bind.
  { unfold get_current.
    apply emits_only_bind.
    - apply emits_only_call. unfold select_query. rewrite Hwf. reflexivity.
    - intros rws. apply emits_only_bind; [apply emits_only_lift|]. intros d.
      apply emits_only_ret. }
  intros current.
  apply emits_only_bind; [apply emits_only_get_upserts|]. intros ups.
  apply emits_only_bind; [apply emits_only_lift|]. intros recs.
  apply emits_only_bind.
  { unfold do_updates.
    apply emits_only_bind; [apply emits_only_call; exact I|]. intros fs.
    apply emits_only_forM. intros u _. unfold update_one.
    apply emits_only_bind; [apply emits_only_lift|]. intros cur.
    apply emits_only_bind; [apply emits_only_get_upsert|]. intros _.
    apply emits_only_bind; [apply emits_only_set_defaults|]. intros _.
    apply emits_only_bind; [apply emits_only_get_upsert|]. intros up.
    apply emits_only_bind; [apply emits_only_lift|]. intros sa.
    destruct (fst sa) as [|s l]; [apply emits_only_ret|].
    apply emits_only_bind_lift. intros wa Hwa.
    rewrite Hwf, where_loop in Hwa.
    destruct (to_tup cur (m_key u)) as [tup|e]; [|discriminate Hwa].
    inversion Hwa; subst wa; clear Hwa. simpl fst. simpl snd.
    unfold send_update. apply emits_only_try_unique; auto.
    destruct (kw_dryrun kw); [apply emits_only_emit | apply emits_only_call];
      exists (m_key u), tup; left; exists (s :: l); reflexivity. }
  intros _.
  apply emits_only_bind.
  { destruct (kw_noinsert kw); [apply emits_only_ret|].
    unfold do_inserts. apply emits_only_forM. intros i _. unfold insert_one.
    apply emits_only_bind; [apply emits_only_get_upsert|]. intros _.
    apply emits_only_bind; [apply emits_only_set_defaults|]. intros _.
    apply emits_only_bind; [apply emits_only_get_upsert|]. intros r.
    apply emits_only_bind.
    - destruct (kw_before_insert kw) as [before|]; [|apply emits_only_ret].
      apply emits_only_bind; [apply emits_only_lift|]. intros args.
      destruct (kw_dryrun kw); [apply emits_only_ret|].
      intros w0 res0 w0' t0 E. unfold call_hook in E. inversion E; subst.
      repeat constructor.
    - intros _. unfold send_insert. apply emits_only_try_unique; auto.
      destruct (kw_dryrun kw); [apply emits_only_emit | apply emits_only_call];
        exact I. }
  intros _.
  apply emits_only_bind.
  { destruct (kw_delete kw); [|apply emits_only_ret].
    unfold do_deletes. apply emits_only_forM. intros i _.
    apply emits_only_forM. intros k _. unfold delete_one.
    apply emits_only_bind; [apply emits_only_lift|]. intros r.
    apply emits_only_bind; [apply emits_only_lift|]. intros _.
    apply emits_only_bind_lift. intros wa Hwa.
    rewrite Hwf, where_loop in Hwa.
    destruct (to_tup r k) as [tup|e]; [|discriminate Hwa].
    inversion Hwa; subst wa; clear Hwa. simpl fst. simpl snd.
    destruct (kw_dryrun kw); [apply emits_only_emit | apply emits_only_call];
      exists k, tup; right; reflexivity. }
  intros _.
  destruct (kw_get_unmatched kw); [|apply emits_only_ret].
  apply emits_only_bind; [apply emits_only_collect|]. intros rs.
  apply emits_only_ret.
Qed.

Lemma global_filter_scopes_statements_witness :
  scoped_by "users" "active" (ESql users_delete [VInt 2; VStr "b@x.com"]).
Proof.
  exact (@global_filter_scopes_statements mem_db lenient_store iter_added
           "users" users_keys delete_kwargs "active" users_world
           (snd (fst (upsert (store := lenient_store) iter_added "users"
                             users_keys delete_kwargs users_world)))
           (Ok RTrue)
           [EGet "SELECT * FROM users  WHERE active"; EGetFields "users";
            ESql users_filtered_update users_update_args;
            EInsert [("id", VInt 3); ("name", VStr "c"); ("email", VNone)] "users";
            ESql users_delete [VInt 2; VStr "b@x.com"]]
           eq_refl eq_refl (ESql users_delete [VInt 2; VStr "b@x.com"])
           (or_intror (or_intror (or_intror (or_intror (or_introl eq_refl)))))).
Defined.

(** ** Key arguments *)

(** [parse_keys] is a normalisation: its result, given back as a list of
    tuples, is returned as it is, one key per key given; so an invocation
    behaves the same on a key argument and on its normal form, whether the
    keys came as a scalar, a tuple or a list of these. *)
Theorem parse_keys_normal_form {DB : Type} {store : Store DB}
    (iter_set : list nat -> list nat) table (karg : key_arg) kw :
  parse_keys (KList (map KTuple (parse_keys karg))) = parse_keys karg
  /\ List.length (parse_keys karg)
     = match karg with KSingle _ => 1 | KList ks => List.length ks end
  /\ forall w : world (DB := DB),
       upsert iter_set table (KList (map KTuple (parse_keys karg))) kw w
       = upsert iter_set table karg kw w.
Proof.
  assert (H : parse_keys (KList (map KTuple (parse_keys karg))) = parse_keys karg).
  { unfold parse_keys. rewrite map_map. apply map_id. }
  split; [exact H|]. split.
  - unfold parse_keys. destruct karg; simpl; auto. apply length_map.
  - intros w. unfold upsert. rewrite H. reflexivity.
Qed.

(** ** The exact characterisations on the worked example *)

Lemma to_tup_exact_witness :
  to_tup [("id", VInt 3); ("name", VStr "c")] ["id"; "email"]
  = Raise (KeyError "email")
  /\ exists k1 f k2,
      ["id"; "email"] = k1 ++ f :: k2 /\ KeyError "email" = KeyError f
      /\ row_get f [("id", VInt 3); ("name", VStr "c")] = None
      /\ forall x, In x k1 -> row_get x [("id", VInt 3); ("name", VStr "c")] <> None.
Proof.
  split; [reflexivity|].
  exact (proj2 (to_tup_exact [("id", VInt 3); ("name", VStr "c")] ["id"; "email"])
               (KeyError "email") eq_refl).
Defined.

Lemma unmatched_partition_witness :
  In 1 (u_upserts (get_unmatched [users_record] users_snapshot
                                 (w_upserts users_world)))
  /\ In 1 (u_current (get_unmatched [users_record] users_snapshot
                                    (w_upserts users_world))).
Proof.
  destruct (unmatched_partition [users_record] users_snapshot
                                (w_upserts users_world)) as (Hu & Hc & _).
  split; [apply Hu | apply Hc]; (split; [simpl; lia|]);
    simpl; intros [E|[]]; discriminate E.
Defined.

Lemma matcher_returns_iff_witness :
  get_to_update users_snapshot
                [ [("id", VInt 1); ("name", VStr "a2"); ("email", VNone)];
                  [("id", VInt 3); ("name", VStr "c")] ]
                [["id"; "email"]] false
  = Raise (KeyError "email")
  /\ exists r k f,
      In r [ [("id", VInt 1); ("name", VStr "a2"); ("email", VNone)];
             [("id", VInt 3); ("name", VStr "c")] ]
      /\ In k [["id"; "email"]] /\ In f k /\ row_get f r = None
      /\ KeyError "email" = KeyError f.
Proof.
  split; [reflexivity|].
  exact (proj2 (matcher_returns_iff users_snapshot
                  [ [("id", VInt 1); ("name", VStr "a2"); ("email", VNone)];
                    [("id", VInt 3); ("name", VStr "c")] ]
                  [["id"; "email"]] false)
               (KeyError "email") eq_refl).
Defined.

Lemma resolve_args_exact_witness :
  resolve_args [("id", VInt 3); ("name", VStr "c")]
               [VStr "*name"; VInt 7; VStr "*email"]
  = Raise (KeyError "email")
  /\ exists field,
      KeyError "email" = KeyError field
      /\ In (VStr (String "*"%char field)) [VStr "*name"; VInt 7; VStr "*email"]
      /\ row_get field [("id", VInt 3); ("name", VStr "c")] = None.
Proof.
  split; [reflexivity|].
  exact (proj2 (resolve_args_exact [("id", VInt 3); ("name", VStr "c")]
                  [VStr "*name"; VInt 7; VStr "*email"])
               (KeyError "email") eq_refl).
Defined.

(** ** Settled fields and the field loop *)

Lemma field_settled_get kw cur cur' up f :
  row_get f cur' = row_get f cur ->
  field_settled kw cur up f -> field_settled kw cur' up f.
Proof.
  intros E (c & Hc & H). exists c. rewrite E. auto.
Qed.

Lemma field_settled_target kw cur up f :
  row_get f cur = Some (new_value up f) -> field_settled kw cur up f.
Proof.
  intros E. exists (new_value up f). auto.
Qed.

Lemma field_settled_step kw cur up acc f :
  field_settled kw cur up f -> diff_step kw cur up acc f = Ok acc.
Proof.
  intros (c & Hc & H). unfold diff_step, row_item. rewrite Hc. cbn [rbind].
  unfold row_mem, dmem. fold (row_get f up).
  destruct H as [[Ho Hu]|[[Hi Hn]|Hn]].
  - rewrite Ho, Hu. reflexivity.
  - destruct (negb (kw_overwrite kw) && negb _); auto.
    unfold new_value in Hn. rewrite Hn, Hi. reflexivity.
  - destruct (negb (kw_overwrite kw) && negb _); auto.
    unfold new_value in Hn. rewrite Hn.
    destruct (kw_ignorenull kw && is_none c); auto.
    rewrite pytype_eqb_refl, py_eqb_refl. cbn.
    now rewrite !andb_false_r.
Qed.

Lemma settled_fields_noop kw cur up fields :
  (forall f, In f fields -> field_settled kw cur up f) ->
  diff_fields kw cur up fields = Ok ([], []).
Proof.
  unfold diff_fields. generalize (@nil string, @nil value) as acc.
  induction fields as [|f fields IH]; simpl; intros acc H; auto.
  rewrite (@field_settled_step kw cur up acc f) by auto. simpl. auto.
Qed.

Lemma py_eqb_same_type c n :
  py_eqb c n = true ->
  negb (is_none c) && negb (is_none n)
  && negb (pytype_eqb (type_of c) (type_of n)) = false ->
  n = c.
Proof.
  destruct c, n; simpl; intros E T; try discriminate; auto.
  - apply Bool.eqb_prop in E. now subst.
  - apply Z.eqb_eq in E. now subst.
  - apply String.eqb_eq in E. now subst.
Qed.

Lemma is_none_eq v : is_none v = true -> v = VNone.
Proof. destruct v; simpl; congruence. Qed.

Lemma diff_step_unchanged kw cur up acc acc' f :
  diff_step kw cur up acc f = Ok acc' ->
  field_changes kw cur up f = false ->
  field_settled kw cur up f.
Proof.
  unfold diff_step, row_item, field_changes, field_settled.
  destruct (row_get f cur) as [c|] eqn:Hc; [|discriminate]. cbn [rbind].
  intros Hs Hf. exists c. split; auto.
  unfold row_mem, dmem in *. fold (row_get f up) in *.
  fold (new_value up f) in *.
  destruct (kw_overwrite kw) eqn:Ho; simpl in *.
  - destruct (kw_ignorenull kw) eqn:Hi; simpl in *.
    + destruct (is_none (new_value up f)) eqn:Hn.
      * right; left. split; auto using is_none_eq.
      * simpl in Hf. apply negb_false_iff in Hf.
        destruct (negb (is_none c) && _ && _) eqn:Ht; [discriminate|].
        right; right. apply py_eqb_same_type; [assumption | rewrite ?Hn; assumption].
    + apply negb_false_iff in Hf.
      destruct (negb (is_none c) && _ && _) eqn:Ht; [discriminate|].
      right; right. apply py_eqb_same_type; [assumption | rewrite ?Hn; assumption].
  - destruct (row_get f up) as [n|] eqn:Hu; simpl in *; [|now left].
    destruct (kw_ignorenull kw) eqn:Hi; simpl in *.
    + destruct (is_none (new_value up f)) eqn:Hn.
      * right; left. split; auto using is_none_eq.
      * simpl in Hf. apply negb_false_iff in Hf.
        destruct (negb (is_none c) && _ && _) eqn:Ht; [discriminate|].
        right; right. apply py_eqb_same_type; [assumption | rewrite ?Hn; assumption].
    + apply negb_false_iff in Hf.
      destruct (negb (is_none c) && _ && _) eqn:Ht; [discriminate|].
      right; right. apply py_eqb_same_type; [assumption | rewrite ?Hn; assumption].
Qed.

Lemma diff_fields_unchanged kw cur up fields sets args f :
  diff_fields kw cur up fields = Ok (sets, args) ->
  In f fields -> field_changes kw cur up f = false ->
  field_settled kw cur up f.
Proof.
  intros Hd Hin Hf. unfold diff_fields in Hd.
  destruct (foldlM_visits _ _ _ Hd f Hin) as (s1 & s2 & Hs).
  eapply diff_step_unchanged; eauto.
Qed.

(** ** Rows written by the statements *)

Lemma row_get_assign_other cf :
  forall vals r f, ~ In f cf -> row_get f (assign cf vals r) = row_get f r.
Proof.
  induction cf as [|x cf IH]; simpl; intros vals r f Hn; auto.
  destruct vals as [|v vals]; auto.
  rewrite IH by tauto. rewrite row_get_row_set.
  destruct (String.eqb x f) eqn:E; auto.
  apply String.eqb_eq in E. tauto.
Qed.

Lemma row_get_assign_map (g : string -> value) cf :
  forall r f, In f cf -> row_get f (assign cf (map g cf) r) = Some (g f).
Proof.
  induction cf as [|x cf IH]; simpl; intros r f Hin; [contradiction|].
  destruct (in_dec string_dec f cf) as [Hc|Hc]; [now apply IH|].
  destruct Hin as [->|Hin]; [|contradiction].
  rewrite row_get_assign_other by assumption.
  now rewrite row_get_row_set, String.eqb_refl.
Qed.

Lemma row_get_stored fs r f :
  In f fs -> row_get f (stored_row fs r) = Some (new_value r f).
Proof.
  unfold stored_row, row_get.
  induction fs as [|x fs IH]; simpl; intros Hin; [contradiction|].
  destruct (String.eqb x f) eqn:E.
  - apply String.eqb_eq in E. now subst.
  - destruct Hin as [->|Hin]; [now rewrite String.eqb_refl in E | auto].
Qed.

Lemma to_tup_ext r r' k :
  (forall f, In f k -> row_get f r = row_get f r') -> to_tup r k = to_tup r' k.
Proof.
  induction k as [|x k IH]; simpl; intros H; auto.
  unfold row_item. rewrite (H x) by auto. rewrite IH by auto. reflexivity.
Qed.

Lemma to_tup_fields r k tup :
  to_tup r k = Ok tup -> forall f, In f k -> row_get f r <> None.
Proof.
  revert tup. induction k as [|x k IH]; simpl; intros tup H f Hin; [contradiction|].
  unfold row_item in H. destruct (row_get x r) as [v|] eqn:Hx; [|discriminate].
  simpl in H. destruct (to_tup r k) as [t|] eqn:Ht; [|discriminate].
  destruct Hin as [<-|Hin]; [congruence | eauto].
Qed.

Lemma to_tup_total r k :
  (forall f, In f k -> row_get f r <> None) -> exists tup, to_tup r k = Ok tup.
Proof.
  induction k as [|x k IH]; simpl; intros H; eauto.
  unfold row_item. destruct (row_get x r) as [v|] eqn:Hx.
  - destruct IH as [t Ht]; auto. rewrite Ht. simpl. eauto.
  - exfalso. apply (H x); auto.
Qed.

Lemma same_key_ext_l k r r' u :
  (forall f, In f k -> row_get f r = row_get f r') ->
  same_key k r u = same_key k r' u.
Proof.
  intros H. unfold same_key. now rewrite (to_tup_ext r r' k H).
Qed.

Lemma same_key_ext_r k r u u' :
  (forall f, In f k -> row_get f u = row_get f u') ->
  same_key k r u = same_key k r u'.
Proof.
  intros H. unfold same_key. now rewrite (to_tup_ext u u' k H).
Qed.

Lemma same_key_sym k r u : same_key k r u = same_key k u r.
Proof.
  unfold same_key. destruct (to_tup r k), (to_tup u k); auto.
  apply tup_eqb_sym.
Qed.

Lemma same_key_trans k r u v :
  same_key k r u = true -> same_key k u v = true -> same_key k r v = true.
Proof.
  unfold same_key.
  destruct (to_tup r k), (to_tup u k), (to_tup v k); try discriminate.
  apply tup_eqb_trans.
Qed.

Lemma same_key_refl k r tup : to_tup r k = Ok tup -> same_key k r r = true.
Proof.
  intros H. unfold same_key. rewrite H. apply tup_eqb_refl.
Qed.

Lemma key_selects_same k tup r u :
  to_tup u k = Ok tup -> key_selects k tup r = same_key k r u.
Proof.
  intros H. unfold key_selects, same_key. rewrite H. reflexivity.
Qed.

Lemma same_key_fields k r u :
  same_key k r u = true ->
  forall f, In f k ->
    exists c n, row_get f r = Some c /\ row_get f u = Some n /\ py_eqb c n = true.
Proof.
  unfold same_key. induction k as [|x k IH]; simpl; intros H f Hin; [contradiction|].
  unfold row_item in H.
  destruct (row_get x r) as [c|] eqn:Hr; [|discriminate]. simpl in H.
  destruct (to_tup r k) as [t|] eqn:Ht; [|discriminate]. simpl in H.
  destruct (row_get x u) as [n|] eqn:Hu; [|discriminate]. simpl in H.
  destruct (to_tup u k) as [t'|] eqn:Hu'; [|discriminate]. simpl in H.
  apply andb_true_iff in H. destruct H as [H1 H2].
  destruct Hin as [<-|Hin]; eauto.
Qed.

(** ** Matching on one key, without key maps *)

Lemma records_same_key k rws d ups nn recs :
  build_index [] [k] rws = Ok d ->
  get_to_update {| rows := rws; tups := d |} ups [k] nn = Ok recs ->
  forall u, In u recs ->
    m_key u = k /\
    exists r cur,
      nth_error ups (m_upsert u) = Some r /\
      nth_error rws (m_current u) = Some cur /\
      same_key k cur r = true.
Proof.
  intros Hidx Hrecs u Hu.
  destruct (@get_to_update_sound _ _ _ _ _ Hrecs u Hu)
    as (r & tup & l & Hr & Hk & Htup & Hget & Hin & _).
  simpl in Hk. destruct Hk as [Hk|[]]. split; [auto|].
  rewrite <- Hk in Htup.
  destruct (@indexed_sound [] [k] rws d Hidx tup (m_current u))
    as (cur & k' & t' & Hcur & Hk' & Hrow & Heq).
  { exists l. auto. }
  destruct Hk' as [<-|[]].
  destruct Hrow as (tup0 & Ht0 & [->|Halias]).
  - exists r, cur. repeat split; auto. unfold same_key. now rewrite Ht0, Htup.
  - destruct Halias as (field & m & a & vs & v & idx & x & [] & _).
Qed.

Lemma same_key_recorded k rws d ups nn recs :
  build_index [] [k] rws = Ok d ->
  get_to_update {| rows := rws; tups := d |} ups [k] nn = Ok recs ->
  forall j r i cur,
    nth_error ups j = Some r -> nth_error rws i = Some cur ->
    same_key k cur r = true ->
    (nn = true -> forall tup, to_tup r k = Ok tup -> none_in tup = false) ->
    In {| m_key := k; m_current := i; m_upsert := j |} recs.
Proof.
  intros Hidx Hrecs j r i cur Hr Hcur Hsame Hnn.
  destruct (@rows_indexed_once_built [] [k] rws d Hidx i cur k Hcur (or_introl eq_refl))
    as (tup0 & Ht0 & (l & Hget & Hin) & _).
  unfold same_key in Hsame. rewrite Ht0 in Hsame.
  destruct (to_tup r k) as [tup|] eqn:Htup; [|discriminate].
  eapply get_to_update_complete with (tup := tup) (l := l); eauto.
  - simpl. auto.
  - simpl. rewrite <- Hget. symmetry. now apply tups_get_eqb.
  - destruct nn; auto. simpl. now apply Hnn.
Qed.

(** ** A run over a reconciled table *)

Section SecondRun.
Context {DB : Type} {store : Store DB}.
Variables (iter_set : list nat -> list nat) (table : string) (karg : key_arg).
Variables (kw : kwargs_t) (fs : list string) (k : key) (tbl : DB -> list row).
Hypothesis Hex : executes table kw fs k tbl.
Hypothesis Hkeys : parse_keys karg = [k].
Hypothesis Hmaps : kw_keymaps kw = [].
Hypothesis Hord : set_order iter_set.
Hypothesis Hkfs : incl k fs.

Lemma iter_set_nil : iter_set [] = [].
Proof.
  apply Permutation_nil. apply Hord. constructor.
Qed.

Lemma In_iter_set l i : NoDup l -> In i (iter_set l) -> In i l.
Proof.
  intros Hl Hin. eapply Permutation_in; [|exact Hin].
  apply Permutation_sym. now apply Hord.
Qed.

Lemma collect_upserts_total l (w : world (DB := DB)) :
  (forall i, In i l -> i < List.length (w_upserts w)) ->
  exists rs, collect_upserts l w = (Ok rs, w, []).
Proof.
  induction l as [|i l IH]; simpl; intros H.
  - exists []. reflexivity.
  - destruct IH as [rs Hrs]; [auto|].
    destruct (nth_error (w_upserts w) i) as [r|] eqn:Hr.
    + exists (r :: rs). unfold bind, get_upsert, lift, list_item.
      rewrite Hr. rewrite Hrs. reflexivity.
    + apply nth_error_None in Hr. specialize (H i (or_introl eq_refl)). lia.
Qed.

Lemma update_one_settled current fields u (w : world (DB := DB)) cur r :
  nth_error (rows current) (m_current u) = Some cur ->
  nth_error (w_upserts w) (m_upsert u) = Some r ->
  apply_defaults kw r = Ok r ->
  (forall f, In f fields -> field_settled kw cur r f) ->
  update_one kw table current fields u w = (Ok tt, w, []).
Proof.
  intros Hcur Hr Hup Hs.
  rewrite (@update_one_run _ _ kw table current fields u w cur r r Hcur Hr Hup).
  rewrite (@settled_fields_noop kw cur r fields Hs). simpl.
  now rewrite (@with_upsert_same _ w _ _ Hr).
Qed.

Lemma reconciled_run (w : world (DB := DB)) :
  reconciled kw fs k (tbl (w_db w)) (w_upserts w) ->
  exists res,
    upsert iter_set table karg kw w
    = (Ok res, w, [EGet (select_query table kw); EGetFields table]).
Proof.
  intros (Hwf & Hups & Hset & Hall & Hdelall).
  assert (HT : rows_have_keys (tbl (w_db w)) [k]).
  { intros r k0 Hr [<-|[]]. apply to_tup_total. intros f Hf.
    apply (Hwf r f); auto. }
  assert (HU : rows_have_keys (w_upserts w) [k]).
  { intros u k0 Hu [<-|[]]. destruct (Hups u Hu) as (tup & Ht & _). eauto. }
  destruct (@build_index_total [] [k] (tbl (w_db w)) HT) as [d Hd].
  { right. intros field m k0 []. }
  destruct (@get_to_update_total {| rows := (tbl (w_db w)); tups := d |} (w_upserts w) [k]
              (kw_nonullkeys kw) HU) as [recs Hrecs].
  assert (Hw : {| w_db := w_db w; w_upserts := w_upserts w |} = w)
    by (destruct w; reflexivity).
  rewrite (@upsert_run _ _ iter_set table karg kw w (tbl (w_db w)) (w_db w) d recs).
  2:{ apply (ex_get Hex). }
  2:{ rewrite Hmaps, Hkeys. exact Hd. }
  2:{ rewrite Hkeys. exact Hrecs. }
  rewrite Hw. unfold bind at 1.
  rewrite (@do_updates_run _ _ kw table recs {| rows := (tbl (w_db w)); tups := d |} w fs
             (w_db w) (ex_fields Hex (w_db w))).
  rewrite Hw.
  assert (Hloop : forall l,
             incl l recs ->
             forM_ (update_one kw table {| rows := (tbl (w_db w)); tups := d |}
                      (filter (fun x => negb (mem_str x (kw_ignore kw))) fs))
                   l w = (Ok tt, w, [])).
  { induction l as [|u l IH]; simpl; intros Hl; [reflexivity|].
    destruct (@records_same_key k (tbl (w_db w)) d (w_upserts w) (kw_nonullkeys kw) recs Hd Hrecs u (Hl u (or_introl eq_refl)))
      as (_ & r & cur & Hr & Hcur & Hsame).
    destruct (Hset cur r) as [Hup Hs]; auto.
    { eapply nth_error_In; eauto. }
    { eapply nth_error_In; eauto. }
    unfold bind.
    rewrite (@update_one_settled {| rows := (tbl (w_db w)); tups := d |} _ u w cur r
               Hcur Hr Hup Hs).
    rewrite IH; [reflexivity|]. intros x Hx. apply Hl. now right. }
  rewrite (Hloop recs (incl_refl recs)). cbn [fst snd app].
  unfold after_updates.
  assert (Hins : (if kw_noinsert kw then ret tt
                  else do_inserts iter_set kw table
                         (get_unmatched recs {| rows := (tbl (w_db w)); tups := d |} (w_upserts w))) w
                 = (Ok tt, w, [])).
  { destruct (kw_noinsert kw) eqn:Hno; [reflexivity|].
    unfold do_inserts, get_unmatched. cbn [u_upserts].
    rewrite unmatched_of_all; [now rewrite iter_set_nil|].
    intros j Hj. apply nth_error_Some in Hj.
    destruct (nth_error (w_upserts w) j) as [u|] eqn:Hu; [|congruence].
    assert (HuIn : In u (w_upserts w)) by (eapply nth_error_In; eauto).
    destruct (Hall eq_refl u HuIn) as (r & Hr & Hsame).
    destruct (In_nth_error _ _ Hr) as [i Hi].
    apply in_map_iff.
    exists {| m_key := k; m_current := i; m_upsert := j |}. split; [reflexivity|].
    eapply same_key_recorded; eauto.
    intros Hnn tup Ht. destruct (Hups u HuIn) as (tup' & Ht' & Hnone).
    rewrite Ht in Ht'. inversion Ht'; subst. auto. }
  assert (Hdels : (if kw_delete kw
                   then do_deletes iter_set kw table (parse_keys karg)
                          {| rows := tbl (w_db w); tups := d |}
                          (get_unmatched recs
                             {| rows := tbl (w_db w); tups := d |} (w_upserts w))
                   else ret tt) w
                  = (Ok tt, w, [])).
  { destruct (kw_delete kw) eqn:Hdl; [|reflexivity].
    unfold do_deletes, get_unmatched. cbn [u_current rows].
    rewrite unmatched_of_all; [now rewrite iter_set_nil|].
    intros i Hi. apply nth_error_Some in Hi.
    destruct (nth_error (tbl (w_db w)) i) as [r|] eqn:Hr; [|congruence].
    assert (HrIn : In r (tbl (w_db w))) by (eapply nth_error_In; eauto).
    destruct (Hdelall eq_refl r HrIn) as (u & Hu & Hsame).
    destruct (In_nth_error _ _ Hu) as [j Hj].
    apply in_map_iff.
    exists {| m_key := k; m_current := i; m_upsert := j |}. split; [reflexivity|].
    eapply same_key_recorded; eauto.
    intros Hnn tup Ht. destruct (Hups u Hu) as (tup' & Ht' & Hnone).
    rewrite Ht in Ht'. inversion Ht'; subst. auto. }
  unfold bind at 1. rewrite Hins. unfold bind at 1. rewrite Hdels.
  cbn [fst snd app].
  destruct (kw_get_unmatched kw).
  - destruct (@collect_upserts_total
                (iter_set (u_upserts (get_unmatched recs {| rows := (tbl (w_db w)); tups := d |} (w_upserts w))))
                w) as [rs Hrs].
    { intros i Hi. apply In_iter_set in Hi; [|apply NoDup_unmatched_of].
      apply In_unmatched_of in Hi. tauto. }
    exists (RRows rs). unfold bind. rewrite Hrs. reflexivity.
  - exists RTrue. reflexivity.
Qed.
End SecondRun.

(** ** Lists *)

Lemma Forall2_nth_l {A B} (R : A -> B -> Prop) l l' i a :
  Forall2 R l l' -> nth_error l i = Some a ->
  exists b, nth_error l' i = Some b /\ R a b.
Proof.
  intros H. revert i. induction H; intros [|i] Hi; simpl in *; try discriminate.
  - inversion Hi; subst. eauto.
  - eauto.
Qed.

Lemma Forall2_nth_r {A B} (R : A -> B -> Prop) l l' i b :
  Forall2 R l l' -> nth_error l' i = Some b ->
  exists a, nth_error l i = Some a /\ R a b.
Proof.
  intros H. revert i. induction H; intros [|i] Hi; simpl in *; try discriminate.
  - inversion Hi; subst. eauto.
  - eauto.
Qed.

Lemma Forall2_map_r {A B} (R : A -> B -> Prop) (g : B -> B) l l' :
  Forall2 R l l' -> (forall a b, R a b -> R a (g b)) ->
  Forall2 R l (map g l').
Proof.
  intros H Hg. induction H; simpl; constructor; auto.
Qed.

Lemma Forall2_list_set {A B} (R : A -> B -> Prop) l l' j b :
  Forall2 R l l' -> (forall a, nth_error l j = Some a -> R a b) ->
  Forall2 R l (list_set j b l').
Proof.
  intros H. revert j. induction H; intros [|j] Hb; simpl; constructor; auto.
Qed.

Lemma Forall2_refl {A} (R : A -> A -> Prop) l :
  (forall a, R a a) -> Forall2 R l l.
Proof.
  intros H. induction l; constructor; auto.
Qed.

Lemma filter_filter {A} (f g : A -> bool) l :
  filter f (filter g l) = filter (fun x => g x && f x) l.
Proof.
  induction l as [|x l IH]; simpl; auto.
  destruct (g x); simpl; [destruct (f x)|]; now rewrite IH.
Qed.

Lemma nth_error_list_set_cases {A} (l : list A) i j a b :
  nth_error (list_set j a l) i = Some b ->
  (i = j /\ b = a) \/ (i <> j /\ nth_error l i = Some b).
Proof.
  intros H. destruct (Nat.eq_dec i j) as [->|Hn].
  - left. split; auto.
    destruct (nth_error l j) as [c|] eqn:Hc.
    + rewrite (@nth_error_list_set _ l j a c Hc) in H. congruence.
    + exfalso. apply nth_error_None in Hc.
      assert (Hs : nth_error (list_set j a l) j <> None) by congruence.
      apply nth_error_Some in Hs. rewrite length_list_set in Hs. lia.
  - right. split; auto. now rewrite nth_error_list_set_other in H.
Qed.

(** ** A run over a store that executes the statements *)

Lemma get_to_update_keys current ups keys nn recs :
  get_to_update current ups keys nn = Ok recs -> rows_have_keys ups keys.
Proof.
  intros Hrun r k Hr Hk.
  apply In_nth_error in Hr. destruct Hr as [j Hj].
  apply In_enumerate in Hj.
  destruct (foldlM_visits _ _ _ Hrun _ Hj) as (s1 & s2 & Hkeys). simpl in Hkeys.
  destruct (foldlM_visits _ _ _ Hkeys _ Hk) as (s3 & s4 & Hstep).
  eapply match_key_to_tup; eauto.
Qed.

Section FirstRun.
Context {DB : Type} {store : Store DB}.
Variables (iter_set : list nat -> list nat) (table : string).
Variables (kw : kwargs_t) (fs : list string) (k : key) (tbl : DB -> list row).
Hypothesis Hex : executes table kw fs k tbl.
Hypothesis Hord : set_order iter_set.
Hypothesis Hdry : kw_dryrun kw = false.
Hypothesis Hkfs : incl k fs.
Hypothesis Hdefk : forall f, In f k -> ~ In f (map fst (kw_default kw)).
Variables (T0 U0 : list row).
Hypothesis Hstable :
  forall r r', In r U0 -> apply_defaults kw r = Ok r' -> apply_defaults kw r' = Ok r'.
Hypothesis Hdist : distinct_keys k U0.
Hypothesis Hnn :
  kw_nonullkeys kw = true ->
  forall r tup, In r U0 -> to_tup r k = Ok tup -> none_in tup = false.
Hypothesis Hwf0 : forall r f, In r T0 -> In f fs -> row_get f r <> None.
Variables (d : tups_index) (recs : list match_record).
Hypothesis Hd : build_index [] [k] T0 = Ok d.
Hypothesis Hrecs :
  get_to_update {| rows := T0; tups := d |} U0 [k] (kw_nonullkeys kw) = Ok recs.

Lemma live_defaults u0 r up :
  In u0 U0 -> row_defaulted kw u0 r -> apply_defaults kw r = Ok up ->
  apply_defaults kw u0 = Ok up /\ apply_defaults kw up = Ok up.
Proof.
  intros Hin [->|Hd0] Hup.
  - split; auto. eapply Hstable; eauto.
  - pose proof (@Hstable _ _ Hin Hd0) as Hs. rewrite Hs in Hup.
    inversion Hup; subst. auto.
Qed.

Lemma live_defaults_raise u0 r e :
  In u0 U0 -> row_defaulted kw u0 r -> apply_defaults kw r = Raise e -> r = u0.
Proof.
  intros Hin [->|Hd0] Hup; auto.
  pose proof (@Hstable _ _ Hin Hd0) as Hs. congruence.
Qed.

Lemma defaults_keep_key u0 up :
  apply_defaults kw u0 = Ok up -> forall f, In f k -> row_get f up = row_get f u0.
Proof.
  intros Hup f Hf.
  destruct (@apply_defaults_frame kw u0 up Hup) as [Hframe _].
  apply Hframe. now apply Hdefk.
Qed.

Lemma defaulted_key u0 u :
  row_defaulted kw u0 u -> forall f, In f k -> row_get f u = row_get f u0.
Proof.
  intros [->|Hup]; auto. now apply defaults_keep_key.
Qed.

Lemma key_fields_unchanged cur0 u0 up :
  same_key k cur0 u0 = true -> apply_defaults kw u0 = Ok up ->
  forall f, In f k -> field_changes kw cur0 up f = false.
Proof.
  intros Hsame Hup f Hf.
  destruct (@same_key_fields k cur0 u0 Hsame f Hf) as (c & n & Hc & Hn & Heq).
  unfold field_changes, new_value.
  rewrite (@defaults_keep_key u0 up Hup f Hf), Hc, Hn, Heq.
  now rewrite andb_false_r.
Qed.

Lemma same_key_position u0 u1 j :
  nth_error U0 j = Some u0 -> In u1 U0 -> same_key k u1 u0 = true -> u1 = u0.
Proof.
  intros Hj Hin Hsame. destruct (In_nth_error _ _ Hin) as [j1 Hj1].
  assert (j1 = j) by (eapply Hdist; eauto). subst. congruence.
Qed.

Lemma row_step cur0 u0 up tup cf r0 r :
  In u0 U0 -> apply_defaults kw u0 = Ok up ->
  same_key k cur0 u0 = true -> to_tup cur0 k = Ok tup ->
  (forall f, In f cf -> ~ In f k) ->
  row_between kw k U0 r0 r ->
  row_between kw k U0 r0
    (if key_selects k tup r then assign cf (map (new_value up) cf) r else r).
Proof.
  intros Hin Hup Hsame Htup Hcf [Hkey Hval].
  destruct (key_selects k tup r) eqn:Hsel; [|split; auto].
  assert (Hr0 : same_key k r0 u0 = true).
  { rewrite (@key_selects_same k tup r cur0 Htup) in Hsel.
    rewrite (@same_key_ext_l k r r0 cur0 Hkey) in Hsel.
    eapply same_key_trans; eauto. }
  split.
  - intros f Hf. rewrite row_get_assign_other; auto.
    intros Hc. now apply (Hcf f).
  - intros f. destruct (in_dec string_dec f cf) as [Hc|Hc].
    + right. exists u0, up. repeat split; auto.
      now apply row_get_assign_map.
    + rewrite row_get_assign_other by assumption. apply Hval.
Qed.

Lemma old_desired (ups : list row) j j2 r up up2 :
  nth_error ups j2 = Some up2 -> apply_defaults kw up2 = Ok up2 ->
  nth_error ups j = Some r -> apply_defaults kw r = Ok up ->
  nth_error (list_set j up ups) j2 = Some up2.
Proof.
  intros H2 Hs2 Hr Hup. destruct (Nat.eq_dec j2 j) as [->|Hn].
  - assert (r = up2) by congruence. subst r.
    assert (up = up2) by congruence. subst up.
    eapply nth_error_list_set; eauto.
  - now rewrite nth_error_list_set_other.
Qed.

Lemma update_step u done (w w' : world (DB := DB)) t :
  In u recs -> incl done recs ->
  updates_inv kw fs k T0 U0 done (tbl (w_db w)) (w_upserts w) ->
  update_one kw table {| rows := T0; tups := d |}
             (filter (fun x => negb (mem_str x (kw_ignore kw))) fs) u w
  = (Ok tt, w', t) ->
  updates_inv kw fs k T0 U0 (u :: done) (tbl (w_db w')) (w_upserts w').
Proof.
  intros Hu Hdone (HT & HU & Hc) Hrun.
  destruct (@records_same_key k T0 d U0 _ recs Hd Hrecs u Hu)
    as (Hk & u0 & cur0 & Hu0 & Hcur0 & Hsame).
  destruct (Forall2_nth_l _ HU Hu0) as (r & Hr & Hdef).
  destruct (Forall2_nth_l _ HT Hcur0) as (rl & Hrl & Hbtw).
  assert (Hin0 : In u0 U0) by (eapply nth_error_In; eauto).
  destruct (apply_defaults kw r) as [up|e] eqn:Hup.
  2:{ destruct (@set_defaults_raise DB kw (m_upsert u) w r e Hr Hup)
        as (w1 & Hd1 & _).
      unfold update_one, bind, lift, get_upsert, list_item in Hrun.
      cbn [rows] in Hrun. rewrite Hcur0, Hr, Hd1 in Hrun. discriminate. }
  destruct (live_defaults Hin0 Hdef Hup) as [Hup0 Hupup].
  rewrite (@update_one_run _ _ kw table {| rows := T0; tups := d |} _ u w
             cur0 r up Hcur0 Hr Hup) in Hrun.
  destruct (diff_fields kw cur0 up
              (filter (fun x => negb (mem_str x (kw_ignore kw))) fs))
    as [[sets args]|e] eqn:Hdiff; [|discriminate].
  destruct (diff_fields_filter _ _ _ _ Hdiff) as [Hsets Hargs].
  remember (filter (field_changes kw cur0 up)
              (filter (fun x => negb (mem_str x (kw_ignore kw))) fs))
    as cf eqn:Hcfdef.
  assert (Hcfk : forall f, In f cf -> ~ In f k).
  { intros f Hf Hfk. rewrite Hcfdef in Hf. apply filter_In in Hf.
    rewrite (@key_fields_unchanged cur0 u0 up Hsame Hup0 f Hfk) in Hf.
    destruct Hf; discriminate. }
  assert (Hsettle : forall rw,
             row_between kw k U0 cur0 rw ->
             forall f,
               In f (filter (fun x => negb (mem_str x (kw_ignore kw))) fs) ->
               ~ In f cf -> field_settled kw rw up f).
  { intros rw [_ Hval] f Hf Hncf.
    destruct (Hval f) as [E | (u1 & up1 & Hin1 & Hup1 & Hs1 & E)].
    - eapply field_settled_get; [exact E|].
      eapply diff_fields_unchanged; eauto.
      destruct (field_changes kw cur0 up f) eqn:Hfc; auto.
      exfalso. apply Hncf. rewrite Hcfdef. apply filter_In. auto.
    - assert (u1 = u0).
      { eapply same_key_position; eauto.
        eapply same_key_trans; [|exact Hsame].
        now rewrite same_key_sym. }
      subst u1. assert (up1 = up) by congruence. subst up1.
      now apply field_settled_target. }
  assert (Hnewdef : Forall2 (row_defaulted kw) U0
                      (list_set (m_upsert u) up (w_upserts w))).
  { apply Forall2_list_set; auto. intros a Ha. right. congruence. }
  cbn [fst snd] in Hrun. subst sets args.
  destruct cf as [|c0 cf'].
  - (* nothing to set, no statement *)
    inversion Hrun; subst w' t. clear Hrun. cbn [with_upsert w_db w_upserts].
    split; [exact HT|]. split; [exact Hnewdef|].
    intros u2 [<-|Hu2].
    + exists rl, up. split; [exact Hrl|].
      split; [eapply nth_error_list_set; eauto|]. split; auto.
    + destruct (Hc u2 Hu2) as (r2 & up2 & Hr2 & Hup2 & Hst2 & Hset2).
      exists r2, up2. split; auto. split; [|auto].
      eapply old_desired; eauto.
  - (* one statement, executed by the store *)
    cbn [map] in Hrun.
    destruct (to_tup cur0 (m_key u)) as [tup|e] eqn:Htup; [|discriminate].
    rewrite Hk in *.
    unfold send_update in Hrun. rewrite Hdry in Hrun.
    assert (Hcf : c0 :: cf'
                  = filter (fun x => negb (mem_str x (kw_ignore kw))
                                     && field_changes kw cur0 up x) fs).
    { rewrite Hcfdef. apply filter_filter. }
    destruct (ex_update Hex
                (fun x => negb (mem_str x (kw_ignore kw))
                          && field_changes kw cur0 up x)
                (map (new_value up) (c0 :: cf')) tup
                (w_db (with_upsert w (m_upsert u) up)))
      as (db' & Hsql & Htbl).
    { rewrite <- Hcf. now rewrite length_map. }
    { eapply to_tup_length; eauto. }
    { rewrite <- Hcf. discriminate. }
    rewrite <- Hcf in Hsql, Htbl. cbn [map] in Hsql, Htbl.
    unfold try_unique, call in Hrun. rewrite Hsql in Hrun.
    inversion Hrun; subst w' t. clear Hrun.
    cbn [with_upsert w_db w_upserts] in *. rewrite Htbl. unfold run_update.
    split; [|split; [exact Hnewdef|]].
    + apply Forall2_map_r; auto. intros a b Hab.
      apply (@row_step cur0 u0 up tup (c0 :: cf') a b); auto.
    + assert (Hsel : forall r2 cur2,
                 row_between kw k U0 cur2 r2 ->
                 key_selects k tup r2 = same_key k cur2 cur0).
      { intros r2 cur2 [Hkey2 _].
        rewrite (@key_selects_same k tup r2 cur0 Htup).
        apply same_key_ext_l. exact Hkey2. }
      assert (Hnew : forall r2 f,
                 In f (filter (fun x => negb (mem_str x (kw_ignore kw))) fs) ->
                 (~ In f (c0 :: cf') -> field_settled kw r2 up f) ->
                 field_settled kw
                   (assign (c0 :: cf') (map (new_value up) (c0 :: cf')) r2) up f).
      { intros r2 f Hf Hold.
        destruct (in_dec string_dec f (c0 :: cf')) as [Hi|Hi].
        - apply field_settled_target. now apply row_get_assign_map.
        - eapply field_settled_get; [|apply Hold; exact Hi].
          now apply row_get_assign_other. }
      intros u2 [<-|Hu2].
      * exists (assign (c0 :: cf') (map (new_value up) (c0 :: cf')) rl), up.
        split.
        { rewrite nth_error_map, Hrl. cbn [option_map].
          rewrite (Hsel rl cur0 Hbtw), (@same_key_refl k cur0 tup Htup). reflexivity. }
        split; [eapply nth_error_list_set; eauto|]. split; [exact Hupup|].
        intros f Hf. apply Hnew; auto.
      * destruct (Hc u2 Hu2) as (r2 & up2 & Hr2 & Hup2 & Hst2 & Hset2).
        destruct (@records_same_key k T0 d U0 _ recs Hd Hrecs u2 (Hdone u2 Hu2))
          as (_ & u02 & cur2 & Hu02 & Hcur2 & Hsame2).
        destruct (Forall2_nth_l _ HT Hcur2) as (r2' & Hr2' & Hbtw2).
        assert (r2' = r2) by congruence. subst r2'.
        exists (if key_selects k tup r2
                then assign (c0 :: cf') (map (new_value up) (c0 :: cf')) r2
                else r2), up2.
        split; [rewrite nth_error_map, Hr2; reflexivity|].
        split; [eapply old_desired; eauto|]. split; auto.
        destruct (key_selects k tup r2) eqn:Hs2; auto.
        rewrite (Hsel r2 cur2 Hbtw2) in Hs2.
        assert (Hj : m_upsert u2 = m_upsert u).
        { eapply Hdist; eauto.
          rewrite same_key_sym in Hsame2.
          eapply same_key_trans; [exact Hsame2|].
          eapply same_key_trans; [exact Hs2|exact Hsame]. }
        rewrite Hj in Hup2. assert (r = up2) by congruence. subst r.
        assert (up = up2) by congruence. subst up2.
        intros f Hf. apply Hnew; auto.
Qed.
Lemma update_loop l :
  forall done (w w' : world (DB := DB)) t,
    incl l recs -> incl done recs ->
    updates_inv kw fs k T0 U0 done (tbl (w_db w)) (w_upserts w) ->
    forM_ (update_one kw table {| rows := T0; tups := d |}
             (filter (fun x => negb (mem_str x (kw_ignore kw))) fs)) l w
    = (Ok tt, w', t) ->
    updates_inv kw fs k T0 U0 (l ++ done) (tbl (w_db w')) (w_upserts w').
Proof.
  induction l as [|u l IH]; simpl; intros done w w' t Hl Hdone Hinv Hrun.
  - unfold ret in Hrun. inversion Hrun; subst. exact Hinv.
  - unfold bind in Hrun.
    destruct (update_one kw table {| rows := T0; tups := d |} _ u w)
      as [[[[]|e] w1] t1] eqn:E1; [|discriminate].
    destruct (forM_ _ l w1) as [[r2 w2] t2] eqn:E2.
    inversion Hrun; subst. clear Hrun.
    assert (Hu : In u recs) by (apply Hl; now left).
    pose proof (@update_step u done w w1 t1 Hu Hdone Hinv E1) as H1.
    assert (Hl' : incl l recs) by (intros x Hx; apply Hl; now right).
    assert (Hd' : incl (u :: done) recs).
    { intros x [<-|Hx]; auto. }
    destruct (IH (u :: done) w1 w' t2 Hl' Hd' H1 E2) as (HT & HU & Hc).
    split; [exact HT|]. split; [exact HU|].
    intros x Hx. apply Hc. apply in_or_app.
    destruct Hx as [<-|Hx]; [right; now left|].
    apply in_app_or in Hx. destruct Hx; [now left | right; now right].
Qed.

Lemma loaded_have_key r0 : In r0 T0 -> exists tup, to_tup r0 k = Ok tup.
Proof.
  intros Hin. apply to_tup_total. intros f Hf. apply Hwf0; auto.
Qed.

Lemma In_rows_at l r0 :
  In r0 (rows_at T0 l) <-> exists i, In i l /\ nth_error T0 i = Some r0.
Proof.
  unfold rows_at. rewrite in_flat_map. split.
  - intros (i & Hi & Hr). exists i. split; auto.
    destruct (nth_error T0 i) as [r|]; [|contradiction].
    destruct Hr as [->|[]]. reflexivity.
  - intros (i & Hi & Hr). exists i. split; auto. rewrite Hr. now left.
Qed.

Lemma updates_hold rws ups l :
  updates_inv kw fs k T0 U0 recs rws ups ->
  (forall i, i < List.length T0 -> ~ In i (map m_current recs) -> In i l) ->
  (forall i, In i l -> ~ In i (map m_current recs)) ->
  holds_inv kw fs k U0 (map m_upsert recs) (rows_at T0 l) rws ups.
Proof.
  intros (HT & HU & Hc) Hl1 Hl2.
  assert (Hpair : forall u, In u recs ->
             exists r up,
               nth_error rws (m_current u) = Some r /\
               nth_error ups (m_upsert u) = Some up /\
               same_key k r up = true).
  { intros u Hu. destruct (Hc u Hu) as (r & up & Hr & Hup & _ & _).
    destruct (@records_same_key k T0 d U0 _ recs Hd Hrecs u Hu)
      as (_ & u0 & cur0 & Hu0 & Hcur0 & Hsame).
    destruct (Forall2_nth_l _ HT Hcur0) as (r' & Hr' & Hkey & _).
    destruct (Forall2_nth_l _ HU Hu0) as (up' & Hup' & Hdef).
    assert (Er : r' = r) by congruence. assert (Eu : up' = up) by congruence.
    rewrite Er in *. rewrite Eu in *.
    exists r, up. split; auto. split; auto.
    rewrite <- Hsame. rewrite (@same_key_ext_l k r cur0 up Hkey).
    apply same_key_ext_r. intros f Hf. now apply (@defaulted_key u0 up Hdef). }
  assert (Hback : forall i r0 r j u0 u,
             nth_error T0 i = Some r0 -> nth_error rws i = Some r ->
             nth_error U0 j = Some u0 -> nth_error ups j = Some u ->
             same_key k r0 u0 = same_key k r u).
  { intros i r0 r j u0 u Hr0 Hr Hu0 Hu.
    destruct (Forall2_nth_l _ HT Hr0) as (r' & Hr' & Hkey & _).
    destruct (Forall2_nth_l _ HU Hu0) as (u' & Hu' & Hdef).
    assert (Er : r' = r) by congruence. assert (Eu : u' = u) by congruence.
    rewrite Er in *. rewrite Eu in *.
    rewrite (@same_key_ext_l k r r0 u Hkey).
    apply same_key_ext_r. intros f Hf. symmetry.
    now apply (@defaulted_key u0 u Hdef). }
  assert (Hrecd : forall i r0 j u0,
             nth_error T0 i = Some r0 -> nth_error U0 j = Some u0 ->
             same_key k r0 u0 = true ->
             In {| m_key := k; m_current := i; m_upsert := j |} recs).
  { intros i r0 j u0 Hr0 Hu0 Hsame. eapply same_key_recorded; eauto.
    intros Hn tup Ht. eapply Hnn; eauto. eapply nth_error_In; eauto. }
  split; [|split; [exact HU|split; [|split; [|split]]]].
  - intros r f Hr Hf. destruct (In_nth_error _ _ Hr) as [i Hi].
    destruct (Forall2_nth_r _ HT Hi) as (r0 & Hr0 & _ & Hval).
    destruct (Hval f) as [E | (u0 & up & _ & _ & _ & E)]; rewrite E.
    + apply Hwf0; auto. eapply nth_error_In; eauto.
    + discriminate.
  - intros r j u Hr Hu Hsame. destruct (In_nth_error _ _ Hr) as [i Hi].
    destruct (Forall2_nth_r _ HT Hi) as (r0 & Hr0 & _).
    destruct (Forall2_nth_r _ HU Hu) as (u0 & Hu0 & _).
    rewrite <- (Hback i r0 r j u0 u Hr0 Hi Hu0 Hu) in Hsame.
    destruct (Hc _ (Hrecd i r0 j u0 Hr0 Hu0 Hsame))
      as (r' & up' & Hr' & Hup' & Hst & Hset).
    cbn [m_current m_upsert] in *.
    assert (Er : r' = r) by congruence. assert (Eu : up' = u) by congruence.
    rewrite Er in *. rewrite Eu in *. auto.
  - intros j Hj. apply in_map_iff in Hj. destruct Hj as (u & <- & Hu).
    destruct (Hpair u Hu) as (r & up & Hr & Hup & Hsame).
    exists up, r. split; auto. split; auto. eapply nth_error_In; eauto.
  - intros r Hr. destruct (In_nth_error _ _ Hr) as [i Hi].
    destruct (Forall2_nth_r _ HT Hi) as (r0 & Hr0 & Hkey & _).
    destruct (in_dec Nat.eq_dec i (map m_current recs)) as [Hm|Hm].
    + left. apply in_map_iff in Hm. destruct Hm as (u & Hiu & Hu).
      destruct (Hpair u Hu) as (r' & up & Hr' & Hup & Hsame).
      rewrite Hiu in Hr'. assert (Er : r' = r) by congruence. rewrite Er in *.
      exists up. split; auto. eapply nth_error_In; eauto.
    + right. exists r0. split.
      * apply In_rows_at. exists i. split; auto. apply Hl1; auto.
        apply nth_error_Some. congruence.
      * rewrite (@same_key_ext_l k r r0 r0 Hkey).
        destruct (@loaded_have_key r0) as [tup Htup].
        { eapply nth_error_In; eauto. }
        eapply same_key_refl; eauto.
  - intros r0 u Hr0 Hu. apply In_rows_at in Hr0. destruct Hr0 as (i & Hi & Hr0).
    destruct (In_nth_error _ _ Hu) as [j Hj].
    destruct (Forall2_nth_r _ HU Hj) as (u0 & Hu0 & Hdef).
    destruct (same_key k r0 u) eqn:Hsame; auto.
    exfalso. apply (Hl2 i Hi).
    assert (Hsame0 : same_key k r0 u0 = true).
    { rewrite <- Hsame. apply same_key_ext_r. intros f Hf. symmetry.
      now apply (@defaulted_key u0 u Hdef). }
    pose proof (Hrecd i r0 j u0 Hr0 Hu0 Hsame0) as Hrec.
    apply in_map_iff. exists {| m_key := k; m_current := i; m_upsert := j |}.
    split; auto.
Qed.

Lemma desired_have_key u0 : In u0 U0 -> exists tup, to_tup u0 k = Ok tup.
Proof.
  intros Hin.
  apply (@get_to_update_keys _ _ _ _ _ Hrecs u0 k Hin (or_introl eq_refl)).
Qed.

Lemma insert_step j held stale (w w' : world (DB := DB)) t :
  j < List.length U0 ->
  holds_inv kw fs k U0 held stale (tbl (w_db w)) (w_upserts w) ->
  insert_one kw table j w = (Ok tt, w', t) ->
  holds_inv kw fs k U0 (j :: held) stale (tbl (w_db w')) (w_upserts w').
Proof.
  intros Hj (Hwf & HU & Hset & Hheld & Hpart & Hstale) Hrun.
  destruct (nth_error U0 j) as [u0|] eqn:Hu0;
    [|apply nth_error_None in Hu0; lia].
  assert (Hin0 : In u0 U0) by (eapply nth_error_In; eauto).
  destruct (Forall2_nth_l _ HU Hu0) as (r & Hr & Hdef).
  destruct (apply_defaults kw r) as [up|e] eqn:Hup.
  2:{ destruct (@set_defaults_raise DB kw j w r e Hr Hup) as (w1 & Hd1 & _).
      unfold insert_one, bind, get_upsert, list_item in Hrun.
      rewrite Hr, Hd1 in Hrun. discriminate. }
  destruct (@live_defaults u0 r up Hin0 Hdef Hup) as [Hup0 Hupup].
  destruct (ex_insert Hex up (w_db w)) as (db' & Hins & Htbl).
  assert (Hsend : send_insert kw table up (with_upsert w j up)
                  = (Ok tt,
                     {| w_db := db'; w_upserts := list_set j up (w_upserts w) |},
                     [EInsert up table])).
  { rewrite (send_insert_live kw table up (with_upsert w j up) Hdry).
    cbn [with_upsert w_db w_upserts]. rewrite Hins. reflexivity. }
  assert (Hw' : w' = {| w_db := db'; w_upserts := list_set j up (w_upserts w) |}).
  { rewrite (insert_one_run kw table j w Hr Hup), Hsend, Hdry in Hrun.
    destruct (kw_before_insert kw) as [before|].
    - destruct (resolve_args up (h_args before)) as [args|e]; [|discriminate].
      destruct (h_func before args) as [[]|e]; [|discriminate].
      now inversion Hrun.
    - now inversion Hrun. }
  rewrite Hw'. cbn [w_db w_upserts]. rewrite Htbl. clear Hrun Hsend Hins Hw'.
  assert (Hkr : forall f, In f k -> row_get f r = row_get f up).
  { intros f Hf. rewrite (@defaulted_key u0 r Hdef f Hf).
    symmetry. now apply (@defaults_keep_key u0 up Hup0). }
  assert (Hks : forall f, In f k -> row_get f (stored_row fs up) = row_get f up).
  { intros f Hf. rewrite row_get_stored by (now apply Hkfs).
    destruct (@desired_have_key u0 Hin0) as [tup Htup].
    pose proof (@to_tup_fields u0 k tup Htup f Hf) as Hne.
    rewrite <- (@defaults_keep_key u0 up Hup0 f Hf) in Hne.
    unfold new_value. destruct (row_get f up); congruence. }
  assert (Hupup' : same_key k (stored_row fs up) up = true).
  { rewrite (@same_key_ext_l k _ up up Hks).
    destruct (@desired_have_key u0 Hin0) as [tup Htup].
    apply same_key_refl with (tup := tup).
    rewrite <- Htup. apply to_tup_ext.
    intros f Hf. now apply (@defaults_keep_key u0 up Hup0). }
  assert (HupIn : In up (list_set j up (w_upserts w))).
  { eapply nth_error_In. eapply nth_error_list_set; eauto. }
  split; [|split; [|split; [|split; [|split]]]].
  - intros r' f Hr' Hf. apply in_app_or in Hr'. destruct Hr' as [Hr'|[<-|[]]].
    + now apply Hwf.
    + rewrite row_get_stored by assumption. discriminate.
  - apply Forall2_list_set; auto. intros a Ha. right. congruence.
  - intros r' j2 u2 Hr' Hu2 Hsame.
    apply nth_error_list_set_cases in Hu2.
    apply in_app_or in Hr'.
    destruct Hr' as [Hr'|[<-|[]]]; destruct Hu2 as [[-> ->]|[Hne Hu2]].
    + rewrite <- (@same_key_ext_r k r' r up Hkr) in Hsame.
      destruct (Hset r' j r Hr' Hr Hsame) as [Hst Hs].
      assert (E : up = r) by congruence. rewrite E in *. auto.
    + now apply (Hset r' j2 u2).
    + split; auto. intros f Hf. apply field_settled_target.
      apply row_get_stored. apply filter_In in Hf. tauto.
    + exfalso. apply Hne.
      destruct (Forall2_nth_r _ HU Hu2) as (u02 & Hu02 & Hdef2).
      eapply Hdist; eauto.
      rewrite (@same_key_ext_l k _ up u2 Hks) in Hsame.
      rewrite same_key_sym.
      rewrite <- Hsame.
      rewrite (@same_key_ext_l k u0 up u02).
      * apply same_key_ext_r. intros f Hf. symmetry.
        now apply (@defaulted_key u02 u2 Hdef2).
      * intros f Hf. symmetry. now apply (@defaults_keep_key u0 up Hup0).
  - intros j' [<-|Hj'].
    + exists up, (stored_row fs up).
      split; [eapply nth_error_list_set; eauto|].
      split; [apply in_or_app; right; now left | exact Hupup'].
    + destruct (Hheld j' Hj') as (u' & r' & Hu' & Hr' & Hsame).
      destruct (Nat.eq_dec j' j) as [->|Hne].
      * exists up, r'. split; [eapply nth_error_list_set; eauto|].
        split; [apply in_or_app; now left|].
        assert (E : u' = r) by congruence. rewrite E in *.
        now rewrite <- (@same_key_ext_r k r' r up Hkr).
      * exists u', r'. split; [now rewrite nth_error_list_set_other|].
        split; [apply in_or_app; now left | assumption].
  - intros r' Hr'. apply in_app_or in Hr'. destruct Hr' as [Hr'|[<-|[]]].
    + destruct (Hpart r' Hr') as [(u & Hu & Hsame)|Hst]; [|now right].
      left. destruct (In_nth_error _ _ Hu) as [j' Hj'].
      destruct (Nat.eq_dec j' j) as [->|Hne].
      * exists up. split; auto.
        assert (E : u = r) by congruence. rewrite E in *.
        now rewrite <- (@same_key_ext_r k r' r up Hkr).
      * exists u. split; auto. eapply nth_error_In.
        rewrite nth_error_list_set_other; eauto.
    + left. exists up. split; auto.
  - intros r0 u Hr0 Hu. destruct (In_nth_error _ _ Hu) as [j' Hj'].
    apply nth_error_list_set_cases in Hj'. destruct Hj' as [[-> ->]|[Hne Hj']].
    + rewrite <- (@same_key_ext_r k r0 r up Hkr).
      apply Hstale; auto. eapply nth_error_In; eauto.
    + apply Hstale; auto. eapply nth_error_In; eauto.
Qed.

Lemma insert_loop l :
  forall held stale (w w' : world (DB := DB)) t,
    (forall j, In j l -> j < List.length U0) ->
    holds_inv kw fs k U0 held stale (tbl (w_db w)) (w_upserts w) ->
    forM_ (insert_one kw table) l w = (Ok tt, w', t) ->
    holds_inv kw fs k U0 (l ++ held) stale (tbl (w_db w')) (w_upserts w').
Proof.
  induction l as [|j l IH]; simpl; intros held stale w w' t Hl Hinv Hrun.
  - unfold ret in Hrun. inversion Hrun. subst w' t. exact Hinv.
  - unfold bind in Hrun.
    destruct (insert_one kw table j w) as [[[[]|e] w1] t1] eqn:E1; [|discriminate].
    destruct (forM_ _ l w1) as [[r2 w2] t2] eqn:E2.
    inversion Hrun. subst r2 w2 t. clear Hrun.
    pose proof (@insert_step j held stale w w1 t1 (Hl j (or_introl eq_refl))
                  Hinv E1) as H1.
    destruct (IH (j :: held) stale w1 w' t2 (fun x Hx => Hl x (or_intror Hx))
                 H1 E2)
      as (Hwf & HU & Hset & Hheld & Hpart & Hstale).
    split; [exact Hwf|]. split; [exact HU|]. split; [exact Hset|].
    split; [|split; assumption].
    intros x Hx. apply Hheld. apply in_or_app.
    destruct Hx as [<-|Hx]; [right; now left|].
    apply in_app_or in Hx. destruct Hx; [now left | right; now right].
Qed.

Lemma delete_step i r0 held stale (w w' : world (DB := DB)) t :
  nth_error T0 i = Some r0 ->
  holds_inv kw fs k U0 held (r0 :: stale) (tbl (w_db w)) (w_upserts w) ->
  forM_ (delete_one kw table {| rows := T0; tups := d |} i) [k] w
  = (Ok tt, w', t) ->
  holds_inv kw fs k U0 held stale (tbl (w_db w')) (w_upserts w').
Proof.
  intros Hr0 (Hwf & HU & Hset & Hheld & Hpart & Hstale) Hrun.
  destruct (@loaded_have_key r0) as [tup Htup].
  { eapply nth_error_In; eauto. }
  destruct (ex_delete Hex tup (w_db w)) as (db' & Hsql & Htbl).
  { eapply to_tup_length; eauto. }
  cbn [forM_] in Hrun. unfold bind in Hrun.
  rewrite (@delete_one_run DB store kw table {| rows := T0; tups := d |} i k w
             r0 tup Hr0 Htup), Hdry in Hrun.
  unfold call in Hrun. rewrite Hsql in Hrun. unfold ret in Hrun.
  inversion Hrun. subst w' t. clear Hrun. cbn [w_db w_upserts]. rewrite Htbl.
  assert (Hsel : forall r, key_selects k tup r = same_key k r r0).
  { intros r. now apply key_selects_same. }
  split; [|split; [exact HU|split; [|split; [|split]]]].
  - intros r f Hr. apply filter_In in Hr. now apply Hwf.
  - intros r j u Hr. apply filter_In in Hr. now apply Hset.
  - intros j Hj. destruct (Hheld j Hj) as (u & r & Hu & Hr & Hsame).
    exists u, r. split; auto. split; auto. apply filter_In. split; auto.
    rewrite Hsel. destruct (same_key k r r0) eqn:Hs; auto. exfalso.
    assert (Hf : same_key k r0 u = false).
    { apply Hstale; [now left|]. eapply nth_error_In; eauto. }
    rewrite same_key_sym in Hs.
    rewrite (@same_key_trans k r0 r u Hs Hsame) in Hf. discriminate.
  - intros r Hr. apply filter_In in Hr. destruct Hr as [Hr Hn].
    destruct (Hpart r Hr) as [Hu|(r1 & [<-|Hr1] & Hsame)]; auto.
    + rewrite Hsel, Hsame in Hn. discriminate.
    + right. eauto.
  - intros r1 u Hr1 Hu. apply Hstale; auto. now right.
Qed.

Lemma forM__cons {A} (f : A -> M (DB := DB) unit) a l (w : world (DB := DB)) :
  forM_ f (a :: l) w = bind (f a) (fun _ => forM_ f l) w.
Proof. reflexivity. Qed.

Lemma delete_loop l :
  forall held (w w' : world (DB := DB)) t,
    (forall i, In i l -> i < List.length T0) ->
    holds_inv kw fs k U0 held (rows_at T0 l) (tbl (w_db w)) (w_upserts w) ->
    forM_ (fun i => forM_ (delete_one kw table {| rows := T0; tups := d |} i) [k])
          l w = (Ok tt, w', t) ->
    holds_inv kw fs k U0 held [] (tbl (w_db w')) (w_upserts w').
Proof.
  induction l as [|i l IH]; intros held w w' t Hl Hinv Hrun.
  - cbn [forM_] in Hrun. unfold ret in Hrun. inversion Hrun. subst w' t.
    exact Hinv.
  - rewrite forM__cons in Hrun. unfold bind at 1 in Hrun.
    destruct (forM_ (delete_one kw table {| rows := T0; tups := d |} i) [k] w)
      as [[[[]|e] w1] t1] eqn:E1; [|discriminate].
    destruct (forM_ _ l w1) as [[r2 w2] t2] eqn:E2.
    inversion Hrun. subst r2 w2 t. clear Hrun.
    destruct (nth_error T0 i) as [r0|] eqn:Hr0.
    2:{ apply nth_error_None in Hr0. specialize (Hl i (or_introl eq_refl)). lia. }
    assert (Hst : rows_at T0 (i :: l) = r0 :: rows_at T0 l).
    { unfold rows_at. cbn [flat_map]. rewrite Hr0. reflexivity. }
    rewrite Hst in Hinv.
    pose proof (@delete_step i r0 held (rows_at T0 l) w w1 t1 Hr0 Hinv E1) as H1.
    exact (IH held w1 w' t2 (fun x Hx => Hl x (or_intror Hx)) H1 E2).
Qed.

Lemma holds_reconciled held stale rws ups :
  holds_inv kw fs k U0 held stale rws ups ->
  (kw_noinsert kw = false -> forall j, j < List.length U0 -> In j held) ->
  (kw_delete kw = true -> stale = []) ->
  reconciled kw fs k rws ups.
Proof.
  intros (Hwf & HU & Hset & Hheld & Hpart & Hstale) Hall Hnil.
  split; [exact Hwf|]. split; [|split; [|split]].
  - intros u Hu. destruct (In_nth_error _ _ Hu) as [j Hj].
    destruct (Forall2_nth_r _ HU Hj) as (u0 & Hu0 & Hdef).
    assert (Hin0 : In u0 U0) by (eapply nth_error_In; eauto).
    destruct (@desired_have_key u0 Hin0) as [tup Htup].
    exists tup. split.
    + rewrite <- Htup. apply to_tup_ext. now apply (@defaulted_key u0 u Hdef).
    + intros Hn. eapply Hnn; eauto.
  - intros r u Hr Hu Hsame. destruct (In_nth_error _ _ Hu) as [j Hj].
    now apply (Hset r j u).
  - intros Hno u Hu. destruct (In_nth_error _ _ Hu) as [j Hj].
    assert (Hlt : j < List.length U0).
    { rewrite (Forall2_length HU). apply nth_error_Some. congruence. }
    destruct (Hheld j (Hall Hno j Hlt)) as (u' & r & Hu' & Hr & Hsame).
    assert (E : u' = u) by congruence. rewrite E in *. eauto.
  - intros Hdl r Hr. destruct (Hpart r Hr) as [Hu|(r0 & Hr0 & _)]; auto.
    rewrite (Hnil Hdl) in Hr0. contradiction.
Qed.

Lemma first_run_reconciles karg (w w1 : world (DB := DB)) res1 t1 :
  parse_keys karg = [k] -> kw_keymaps kw = [] ->
  tbl (w_db w) = T0 -> w_upserts w = U0 ->
  upsert iter_set table karg kw w = (Ok res1, w1, t1) ->
  reconciled kw fs k (tbl (w_db w1)) (w_upserts w1).
Proof.
  intros Hkeys Hmaps HT0 HU0 Hrun.
  assert (Hw : {| w_db := w_db w; w_upserts := w_upserts w |} = w)
    by (destruct w; reflexivity).
  rewrite (@upsert_run _ _ iter_set table karg kw w T0 (w_db w) d recs) in Hrun.
  2:{ rewrite <- HT0. apply (ex_get Hex). }
  2:{ rewrite Hmaps, Hkeys. exact Hd. }
  2:{ rewrite Hkeys, HU0. exact Hrecs. }
  rewrite Hw in Hrun. unfold bind at 1 in Hrun.
  rewrite (@do_updates_run _ _ kw table recs {| rows := T0; tups := d |} w fs
             (w_db w) (ex_fields Hex (w_db w))) in Hrun.
  rewrite Hw in Hrun.
  destruct (forM_ (update_one kw table {| rows := T0; tups := d |}
                     (filter (fun x => negb (mem_str x (kw_ignore kw))) fs))
                  recs w) as [[[[]|e] wu] tu] eqn:Eu; [|discriminate].
  assert (Hinv0 : updates_inv kw fs k T0 U0 [] (tbl (w_db w)) (w_upserts w)).
  { rewrite HT0, HU0. split; [|split].
    - apply Forall2_refl. intros a. split; auto.
    - apply Forall2_refl. intros a. now left.
    - intros u []. }
  pose proof (@update_loop recs [] w wu tu (incl_refl _) (incl_nil_l _) Hinv0 Eu)
    as Hinv.
  rewrite app_nil_r in Hinv.
  apply (@updates_hold (tbl (w_db wu)) (w_upserts wu)
           (iter_set (unmatched_of (map m_current recs) (List.length T0))))
    in Hinv.
  2:{ intros i Hi Hn. eapply Permutation_in.
      - apply Hord. apply NoDup_unmatched_of.
      - apply In_unmatched_of. auto. }
  2:{ intros i Hi. apply (In_iter_set Hord) in Hi; [|apply NoDup_unmatched_of].
      apply In_unmatched_of in Hi. tauto. }
  unfold after_updates in Hrun. rewrite Hkeys in Hrun.
  unfold bind at 1 in Hrun.
  destruct ((if kw_noinsert kw then ret tt
             else do_inserts iter_set kw table
                    (get_unmatched recs {| rows := T0; tups := d |}
                                   (w_upserts w))) wu)
    as [[[[]|e] wi] ti] eqn:Ei; [|discriminate].
  assert (Hhold : exists held,
             holds_inv kw fs k U0 held
               (rows_at T0 (iter_set (unmatched_of (map m_current recs)
                                                   (List.length T0))))
               (tbl (w_db wi)) (w_upserts wi)
             /\ (kw_noinsert kw = false ->
                 forall j, j < List.length U0 -> In j held)).
  { destruct (kw_noinsert kw) eqn:Hno.
    - unfold ret in Ei. inversion Ei. subst wi ti.
      exists (map m_upsert recs). split; [exact Hinv|]. discriminate.
    - unfold do_inserts, get_unmatched in Ei. cbn [u_upserts] in Ei.
      rewrite HU0 in Ei.
      exists (iter_set (unmatched_of (map m_upsert recs) (List.length U0))
              ++ map m_upsert recs).
      split.
      + eapply insert_loop; [|exact Hinv|exact Ei].
        intros j Hj. apply (In_iter_set Hord) in Hj; [|apply NoDup_unmatched_of].
        apply In_unmatched_of in Hj. tauto.
      + intros _ j Hj. apply in_or_app.
        destruct (in_dec Nat.eq_dec j (map m_upsert recs)) as [Hm|Hm]; auto.
        left. eapply Permutation_in.
        * apply Hord. apply NoDup_unmatched_of.
        * apply In_unmatched_of. auto. }
  destruct Hhold as (held & Hhold & Hall).
  unfold bind at 1 in Hrun.
  destruct ((if kw_delete kw
             then do_deletes iter_set kw table [k] {| rows := T0; tups := d |}
                    (get_unmatched recs {| rows := T0; tups := d |}
                                   (w_upserts w))
             else ret tt) wi)
    as [[[[]|e] wd] td] eqn:Ed; [|discriminate].
  assert (Hrec : reconciled kw fs k (tbl (w_db wd)) (w_upserts wd)
                 /\ List.length (w_upserts wd) = List.length U0).
  { destruct (kw_delete kw) eqn:Hdl.
    - unfold do_deletes, get_unmatched in Ed. cbn [u_current rows] in Ed.
      assert (Hl : holds_inv kw fs k U0 held [] (tbl (w_db wd)) (w_upserts wd)).
      { eapply delete_loop; [|exact Hhold|exact Ed].
        intros i Hi. apply (In_iter_set Hord) in Hi; [|apply NoDup_unmatched_of].
        apply In_unmatched_of in Hi. tauto. }
      split.
      + eapply holds_reconciled; eauto.
      + destruct Hl as (_ & HU & _). symmetry. apply (Forall2_length HU).
    - unfold ret in Ed. inversion Ed. subst wd td. split.
      + eapply holds_reconciled; eauto. intros Hc. congruence.
      + destruct Hhold as (_ & HU & _). symmetry. apply (Forall2_length HU). }
  destruct Hrec as [Hrec Hlen].
  assert (Hw1 : w1 = wd).
  { destruct (kw_get_unmatched kw).
    - destruct (@collect_upserts_total DB
                  (iter_set (u_upserts (get_unmatched recs
                                          {| rows := T0; tups := d |}
                                          (w_upserts w))))
                  wd) as [rs Hrs].
      { intros i Hi. unfold get_unmatched in Hi. cbn [u_upserts] in Hi.
        apply (In_iter_set Hord) in Hi; [|apply NoDup_unmatched_of].
        apply In_unmatched_of in Hi. destruct Hi as [Hi _].
        rewrite Hlen, <- HU0. exact Hi. }
      unfold bind in Hrun. rewrite Hrs in Hrun. unfold ret in Hrun.
      inversion Hrun. reflexivity.
    - unfold ret in Hrun. inversion Hrun. reflexivity. }
  rewrite Hw1. exact Hrec.
Qed.
End FirstRun.

(** ** Runs that change nothing *)


Lemma team_store_executes :
  executes (store := table_store "team" ["id"; "name"; "active"] [["id"]])
           "team" team_kwargs ["id"; "name"; "active"] ["id"] (fun rws => rws).
Proof.
  split.
  - reflexivity.
  - reflexivity.
  - intros r db. eexists. split; reflexivity.
  - intros p vals tup db Hv Ht Hne. cbn [filter] in *.
    destruct tup as [|v [|? ?]]; try discriminate Ht.
    destruct (p "id"), (p "name"), (p "active"); cbn [List.length] in Hv;
      try (exfalso; apply Hne; reflexivity);
      (destruct vals as [|v1 [|v2 [|v3 [|? ?]]]]; try discriminate Hv);
      destruct v; (eexists; split; [vm_compute; reflexivity | reflexivity]).
  - intros tup db Ht.
    destruct tup as [|v [|? ?]]; try discriminate Ht.
    destruct v; (eexists; split; [vm_compute; reflexivity | reflexivity]).
Qed.


(** ** Second runs that write again

    Each condition of the two-run statement is there for a reason: over
    the same executing table, a run that returns is followed by a second run
    that writes again when two desired rows have the same key-tuple, when a
    default computes another value on the row it has set, when a row is found
    through two keys by two desired rows, or through a key map. *)

(** Two desired rows with one key-tuple: the table ends with the second
    one's name, and the second run sets the first one's again. *)
Lemma second_run_equal_keys :
  fst (fst (upsert (store := table_store "team" ["id"; "name"; "active"] [["id"]])
                   iter_added "team" (KSingle (KScalar "id")) no_kwargs
                   team_world_twins)) = Ok RTrue
  /\ snd (upsert (store := table_store "team" ["id"; "name"; "active"] [["id"]])
                iter_added "team" (KSingle (KScalar "id")) no_kwargs
                (snd (fst (upsert (store := table_store "team"
                                              ["id"; "name"; "active"] [["id"]])
                                  iter_added "team" (KSingle (KScalar "id"))
                                  no_kwargs team_world_twins))))
     = [ EGet "SELECT * FROM team "; EGetFields "team";
         ESql "UPDATE team SET name = %s WHERE id = %s" [VStr "b"; VInt 1] ].
Proof.
  split; vm_compute; reflexivity.
Qed.

(** A default computed from the field it sets: each run sets a new name. *)
Lemma second_run_unstable_default :
  fst (fst (upsert (store := table_store "team" ["id"; "name"; "active"] [["id"]])
                   iter_added "team" (KSingle (KScalar "id")) starred_kwargs
                   team_world_starred)) = Ok RTrue
  /\ snd (upsert (store := table_store "team" ["id"; "name"; "active"] [["id"]])
                iter_added "team" (KSingle (KScalar "id")) starred_kwargs
                (snd (fst (upsert (store := table_store "team"
                                              ["id"; "name"; "active"] [["id"]])
                                  iter_added "team" (KSingle (KScalar "id"))
                                  starred_kwargs team_world_starred))))
     = [ EGet "SELECT * FROM team "; EGetFields "team";
         ESql "UPDATE team SET name = %s WHERE id = %s" [VStr "a!!"; VInt 1] ].
Proof.
  split; vm_compute; reflexivity.
Qed.

(** Two keys: the row found by [email] gets the [id] of the first desired
    row, so the second desired row, which found it by [id], matches nothing in
    the second run and is inserted. *)
Lemma second_run_several_keys :
  fst (fst (upsert (store := table_store "ledger" ["id"; "email"]
                               [["id"]; ["email"]])
                   iter_added "ledger" (KList [KScalar "id"; KScalar "email"])
                   no_kwargs ledger_world)) = Ok RTrue
  /\ snd (upsert (store := table_store "ledger" ["id"; "email"]
                             [["id"]; ["email"]])
                iter_added "ledger" (KList [KScalar "id"; KScalar "email"])
                no_kwargs
                (snd (fst (upsert (store := table_store "ledger" ["id"; "email"]
                                              [["id"]; ["email"]])
                                  iter_added "ledger"
                                  (KList [KScalar "id"; KScalar "email"])
                                  no_kwargs ledger_world))))
     = [ EGet "SELECT * FROM ledger "; EGetFields "ledger";
         EInsert [("id", VInt 1); ("email", VStr "z")] "ledger" ].
Proof.
  split; vm_compute; reflexivity.
Qed.

(** A key map: the row found under its name and under its alias takes the
    alias, so the desired row with the name matches nothing in the second run
    and is inserted. *)
Lemma second_run_key_map :
  fst (fst (upsert (store := table_store "states" ["state"; "n"] [["state"]])
                   iter_added "states" (KSingle (KScalar "state")) alias_kwargs
                   states_world)) = Ok RTrue
  /\ snd (upsert (store := table_store "states" ["state"; "n"] [["state"]])
                iter_added "states" (KSingle (KScalar "state")) alias_kwargs
                (snd (fst (upsert (store := table_store "states" ["state"; "n"]
                                              [["state"]])
                                  iter_added "states" (KSingle (KScalar "state"))
                                  alias_kwargs states_world))))
     = [ EGet "SELECT * FROM states "; EGetFields "states";
         EInsert [("state", VStr "NY"); ("n", VInt 1)] "states" ].
Proof.
  split; vm_compute; reflexivity.
Qed.
